(** * Tic-tac-toe engine: board state and strategy engine of [tictactoe.py]

    A shallow embedding of the class [TicTacToe] and of the game loop
    [play], followed by the properties of the engine.

    Python values are embedded as follows.
    - A [str] is the list of its Unicode code points ([list N]).  The
      character tables used by [str.split], [str.isdigit], [int] and
      [str.upper] are written out for the code points below U+0100; above,
      they are the fields of a [UnicodeData] record that every definition
      takes as an implicit argument.
    - An [int] is a [Z].
    - The instance attributes [self.grid] and [self.player] form the record
      [game]; a method is a computation in the monad [M], which threads the
      instance and may raise a Python exception.
    - The string tags returned by [place_move] and [game_state] form the
      enumeration [tag].
    - The recursion of [min_max_algorithm] and the loop of [play] take a
      bound ([depth], [fuel]); a call that exhausts it ends in [NoFuel]. *)

From Stdlib Require Import ZArith NArith List Bool Lia String Ascii DecimalString.
Import ListNotations.
Open Scope Z_scope.

(** ** Python runtime *)

Module Py.

Definition char := N.
Definition str := list char.

(** A string literal of the source, as a [str] (one code point per byte of
    an ASCII literal). *)
Definition lit (s : string) : str :=
  map N_of_ascii (list_ascii_of_string s).

Definition char_eqb (a b : char) : bool := N.eqb a b.

Fixpoint str_eqb (a b : str) : bool :=
  match a, b with
  | [], [] => true
  | x :: a', y :: b' => char_eqb x y && str_eqb a' b'
  | _, _ => false
  end.

(** The part of the Unicode character database above U+00FF. *)
Class UnicodeData := {
  u_isspace : N -> bool;
  u_isdigit : N -> bool;
  u_decimal : N -> option Z;
  u_upper : N -> list N
}.

Definition between (lo hi c : N) : bool := (N.leb lo c && N.leb c hi)%bool.

Section Tables.
Context {U : UnicodeData}.

(** [c.isspace()]: the separators of [str.split()]. *)
Definition isspace (c : char) : bool :=
  if N.ltb c 256 then
    between 9 13 c || between 28 32 c || N.eqb c 133 || N.eqb c 160
  else u_isspace c.

(** [c.isdigit()] for one character: the decimal digits and the
    superscript digits U+00B2, U+00B3, U+00B9. *)
Definition isdigit_char (c : char) : bool :=
  if N.ltb c 256 then
    between 48 57 c || N.eqb c 178 || N.eqb c 179 || N.eqb c 185
  else u_isdigit c.

(** The value of a decimal digit (Unicode category Nd), the only digits
    [int] accepts. *)
Definition decimal_value (c : char) : option Z :=
  if N.ltb c 256 then
    if between 48 57 c then Some (Z.of_N c - 48) else None
  else u_decimal c.

(** The full upper-case mapping of one character. *)
Definition upper_char (c : char) : list char :=
  if N.ltb c 256 then
    if between 97 122 c then [N.sub c 32]
    else if N.eqb c 181 then [924%N]
    else if N.eqb c 223 then [83%N; 83%N]
    else if between 224 254 c && negb (N.eqb c 247) then [N.sub c 32]
    else if N.eqb c 255 then [376%N]
    else [c]
  else u_upper c.

(** [s.upper()] *)
Definition upper (s : str) : str := flat_map upper_char s.

(** [s.isdigit()]: at least one character, all of them digits. *)
Definition isdigit (s : str) : bool :=
  match s with
  | [] => false
  | _ => forallb isdigit_char s
  end.

(** [s.split()]: the maximal runs of non-space characters, in order.
    [tok] is the run being read, in reverse. *)
Fixpoint split_from (tok : option str) (s : str) : list str :=
  let flush := match tok with Some t => [rev t] | None => [] end in
  match s with
  | [] => flush
  | c :: s' =>
      if isspace c then flush ++ split_from None s'
      else split_from (Some (c :: match tok with Some t => t | None => [] end)) s'
  end.

Definition split (s : str) : list str := split_from None s.

(** [int(s)] for a token [s] that passed [isdigit]: the decimal value when
    every character is a decimal digit, [None] for the [ValueError]. *)
Fixpoint int_from (acc : Z) (s : str) : option Z :=
  match s with
  | [] => Some acc
  | c :: s' =>
      match decimal_value c with
      | Some d => int_from (10 * acc + d) s'
      | None => None
      end
  end.

Definition int (s : str) : option Z :=
  match s with
  | [] => None
  | _ => int_from 0 s
  end.

End Tables.

(** [str(n)] for an [int]. *)
Definition str_of_int (n : Z) : str :=
  lit (NilZero.string_of_int (Z.to_int n)).

(** [s.count(c)] for a one-character [c]. *)
Definition count (c : char) (s : str) : Z :=
  Z.of_nat (List.length (filter (char_eqb c) s)).

(** [s[a:b]] for [0 <= a <= b]. *)
Definition slice {A} (a b : nat) (l : list A) : list A :=
  firstn (b - a) (skipn a l).

(** Position addressed by the subscript [l[i]]: negative subscripts count
    from the end, [None] is [IndexError]. *)
Definition position {A} (l : list A) (i : Z) : option nat :=
  let n := Z.of_nat (List.length l) in
  if (0 <=? i) && (i <? n) then Some (Z.to_nat i)
  else if (- n <=? i) && (i <? 0) then Some (Z.to_nat (i + n))
  else None.

Definition getitem {A} (l : list A) (i : Z) : option A :=
  match position l i with
  | Some k => nth_error l k
  | None => None
  end.

Fixpoint update {A} (l : list A) (k : nat) (v : A) : list A :=
  match l, k with
  | [], _ => []
  | _ :: l', O => v :: l'
  | x :: l', S k' => x :: update l' k' v
  end.

(** [l[i] = v] *)
Definition setitem {A} (l : list A) (i : Z) (v : A) : option (list A) :=
  match position l i with
  | Some k => Some (update l k v)
  | None => None
  end.

(** [max(l)] and [min(l)]; [None] is the [ValueError] on an empty list. *)
Definition max (l : list Z) : option Z :=
  match l with
  | [] => None
  | x :: l' => Some (fold_left Z.max l' x)
  end.

Definition min (l : list Z) : option Z :=
  match l with
  | [] => None
  | x :: l' => Some (fold_left Z.min l' x)
  end.

(** [random.choice(l)], the generator's draw [r] being given; [None] is the
    [IndexError] on an empty list. *)
Definition choice {A} (r : nat) (l : list A) : option A :=
  match l with
  | [] => None
  | _ => nth_error l (r mod List.length l)
  end.

End Py.

(** ** The instance and its methods *)

Import Py.

(** The Python exceptions the methods can raise. *)
Inductive exn := IndexError | ValueError | TypeError.

(** How a call ends: it returns a value, raises, or (for the recursive
    search and the game loop, which take a bound on their depth) runs out
    of that bound. *)
Inductive outcome (A : Type) :=
| Ret (a : A)
| Raise (e : exn)
| NoFuel.
Arguments Ret {A} a.
Arguments Raise {A} e.
Arguments NoFuel {A}.

(** [self.grid] holds one-character strings; [self.player] is [True] for
    'X'. *)
Record game := Game {
  grid : list (list char);
  player : bool
}.

(** The string tags of [place_move] and [game_state]; [tag_X] and [tag_O]
    are the strings 'X' and 'O', also the values of [get_turn_player]. *)
Inductive tag :=
| tag_X | tag_O | draw | not_finished
| not_coordinates_pair | not_number_symbol | out_of_range | occupied_cell.

Definition tag_eqb (a b : tag) : bool :=
  match a, b with
  | tag_X, tag_X | tag_O, tag_O | draw, draw | not_finished, not_finished
  | not_coordinates_pair, not_coordinates_pair
  | not_number_symbol, not_number_symbol
  | out_of_range, out_of_range | occupied_cell, occupied_cell => true
  | _, _ => false
  end.

Definition M (A : Type) := game -> outcome A * game.

Definition ret {A} (a : A) : M A := fun g => (Ret a, g).

Definition bind {A B} (m : M A) (k : A -> M B) : M B :=
  fun g =>
    match m g with
    | (Ret a, g') => k a g'
    | (Raise e, g') => (Raise e, g')
    | (NoFuel, g') => (NoFuel, g')
    end.

Definition raise {A} (e : exn) : M A := fun g => (Raise e, g).
Definition no_fuel {A} : M A := fun g => (NoFuel, g).
Definition get_grid : M (list (list char)) := fun g => (Ret (grid g), g).
Definition get_player : M bool := fun g => (Ret (player g), g).
Definition set_grid (gr : list (list char)) : M unit :=
  fun g => (Ret tt, Game gr (player g)).
Definition set_player (p : bool) : M unit :=
  fun g => (Ret tt, Game (grid g) p).

(** A Python operation that may raise [e]. *)
Definition or_raise {A} (e : exn) (o : option A) : M A :=
  match o with
  | Some a => ret a
  | None => raise e
  end.

Declare Scope py_scope.
Delimit Scope py_scope with py.
Notation "x <- m ;; k" := (bind m (fun x => k))
  (at level 61, m at next level, right associativity) : py_scope.
Notation "m ;;; k" := (bind m (fun _ => k))
  (at level 61, right associativity) : py_scope.
Open Scope py_scope.

(** [for x in l: body], collecting what the body appends. *)
Fixpoint for_each {A B} (l : list A) (body : A -> M B) : M (list B) :=
  match l with
  | [] => ret []
  | x :: l' => b <- body x ;; bs <- for_each l' body ;; ret (b :: bs)
  end.

(** [for x in l: body], threading the local variables [acc]. *)
Fixpoint for_fold {A B} (l : list A) (acc : B) (body : B -> A -> M B) : M B :=
  match l with
  | [] => ret acc
  | x :: l' => acc' <- body acc x ;; for_fold l' acc' body
  end.

Definition mark_X : char := 88%N.
Definition mark_O : char := 79%N.
Definition blank : char := 95%N.

(** ['X' if p else 'O'] as a grid cell, and as a tag. *)
Definition mark_of (p : bool) : char := if p then mark_X else mark_O.
Definition tag_of (p : bool) : tag := if p then tag_X else tag_O.

Definition empty_grid : list (list char) :=
  [[blank; blank; blank]; [blank; blank; blank]; [blank; blank; blank]].

(** [self.grid[x][y]] *)
Definition cell (x y : Z) : M char :=
  gr <- get_grid ;;
  row <- or_raise IndexError (getitem gr x) ;;
  or_raise IndexError (getitem row y).

(** [self.grid[x][y] = v] *)
Definition set_cell (x y : Z) (v : char) : M unit :=
  gr <- get_grid ;;
  row <- or_raise IndexError (getitem gr x) ;;
  row' <- or_raise IndexError (setitem row y v) ;;
  gr' <- or_raise IndexError (setitem gr x row') ;;
  set_grid gr'.

(** [a == b == c], the operands read left to right and the third only
    when the first comparison holds. *)
Definition eq3 (a b c : M char) : M bool :=
  va <- a ;; vb <- b ;;
  if char_eqb va vb then vc <- c ;; ret (char_eqb vb vc) else ret false.

(** [a == b != '_'] *)
Definition eq_not_blank (a b : M char) : M bool :=
  va <- a ;; vb <- b ;;
  ret (char_eqb va vb && negb (char_eqb vb blank)).

Section Methods.
Context {U : UnicodeData}.

(** [TicTacToe(initial_condition)]: the new instance and the lines
    printed. *)
Definition init (initial_condition : option str) : game * list str :=
  match initial_condition with
  | None => (Game empty_grid true, [])
  | Some ic =>
      let ic := upper ic in
      if (Z.of_nat (List.length ic) =? 9) &&
         (count mark_X ic + count mark_O ic + count blank ic =? 9)
      then
        (Game (map (fun i => slice (3 * i) (3 * i + 3) ic) [0; 1; 2]%nat)
              (if negb (count mark_X ic =? count mark_O ic) then false else true),
         [])
      else (Game empty_grid true, [lit "Wrong initial condition"])
  end.

Definition get_turn_player : M tag :=
  p <- get_player ;; ret (tag_of p).

Definition get_string_grid : M str :=
  gr <- get_grid ;; ret (List.concat gr).

Definition game_state (x y : Z) : M tag :=
  p <- get_player ;;
  let possible_winner := negb p in
  v <- eq3 (cell 0 y) (cell 1 y) (cell 2 y) ;;
  if v then ret (tag_of possible_winner) else
  h <- eq3 (cell x 0) (cell x 1) (cell x 2) ;;
  if h then ret (tag_of possible_winner) else
  d1 <- (if x =? y then eq3 (cell 0 0) (cell 1 1) (cell 2 2) else ret false) ;;
  if d1 then ret (tag_of possible_winner) else
  d2 <- (if x + y =? 2 then eq3 (cell 0 2) (cell 1 1) (cell 2 0) else ret false) ;;
  if d2 then ret (tag_of possible_winner) else
  string_grid <- get_string_grid ;;
  if negb (count blank string_grid =? 0) then ret not_finished else ret draw.

Definition place_move (coordinates : str) : M tag :=
  match split coordinates with
  | [x; y] =>
      if negb (isdigit x) || negb (isdigit y) then ret not_number_symbol else
      x <- or_raise ValueError (int x) ;;
      y <- or_raise ValueError (int y) ;;
      let x := x - 1 in
      let y := y - 1 in
      if (x <? 0) || (x >? 2) || (y <? 0) || (y >? 2) then ret out_of_range else
      c <- cell x y ;;
      if negb (char_eqb c blank) then ret occupied_cell else
      p <- get_player ;;
      set_cell x y (mark_of p) ;;;
      set_player (negb p) ;;;
      game_state x y
  | _ => ret not_coordinates_pair
  end.

Definition undo_move (coordinates : Z * Z) : M unit :=
  let x := fst coordinates - 1 in
  let y := snd coordinates - 1 in
  set_cell x y blank ;;;
  p <- get_player ;;
  set_player (negb p).

Definition get_blank_coordinates : M (list (Z * Z)) :=
  string_grid <- get_string_grid ;;
  picked <- for_each (map Z.of_nat (seq 0 9)) (fun position =>
    c <- or_raise IndexError (getitem string_grid position) ;;
    ret (if char_eqb c blank
         then [(position / 3 + 1, position mod 3 + 1)] else [])) ;;
  ret (List.concat picked).

(** [f'{coordinates[0]} {coordinates[1]}'] *)
Definition format (coordinates : Z * Z) : str :=
  str_of_int (fst coordinates) ++ lit " " ++ str_of_int (snd coordinates).

(** *** Easy strategy; [r] is the draw of the random generator. *)

Definition get_random_coordinates (r : nat) : M (Z * Z) :=
  blank_coordinates <- get_blank_coordinates ;;
  or_raise IndexError (choice r blank_coordinates).

(** *** Medium strategy *)

Definition neighbours : list (Z * Z) := [(1, 2); (0, 2); (0, 1)].

Definition neighbour (i : Z) : M (Z * Z) :=
  or_raise IndexError (getitem neighbours i).

(** [for x in l: ...] whose body may [return]: [Some v] leaves the loop. *)
Fixpoint for_return {A B} (l : list A) (body : A -> M (option B)) : M (option B) :=
  match l with
  | [] => ret None
  | x :: l' =>
      r <- body x ;;
      match r with
      | Some v => ret (Some v)
      | None => for_return l' body
      end
  end.

Definition get_relevant_coordinates (r : nat) : M (Z * Z) :=
  blank_coordinates <- get_blank_coordinates ;;
  found <- for_return blank_coordinates (fun coordinates =>
    let row := fst coordinates - 1 in
    let column := snd coordinates - 1 in
    h <- eq_not_blank (n <- neighbour column ;; cell row (fst n))
                      (n <- neighbour column ;; cell row (snd n)) ;;
    if h then ret (Some coordinates) else
    v <- eq_not_blank (n <- neighbour row ;; cell (fst n) column)
                      (n <- neighbour row ;; cell (snd n) column) ;;
    if v then ret (Some coordinates) else
    d1 <- (if row =? column then
             eq_not_blank
               (n <- neighbour row ;; m <- neighbour column ;; cell (fst n) (fst m))
               (n <- neighbour row ;; m <- neighbour column ;; cell (snd n) (snd m))
           else ret false) ;;
    if d1 then ret (Some coordinates) else
    d2 <- (if row + column =? 2 then
             eq_not_blank
               (n <- neighbour row ;; m <- neighbour column ;; cell (fst n) (snd m))
               (n <- neighbour row ;; m <- neighbour column ;; cell (snd n) (fst m))
           else ret false) ;;
    if d2 then ret (Some coordinates) else ret None) ;;
  match found with
  | Some coordinates => ret coordinates
  | None => or_raise IndexError (choice r blank_coordinates)
  end.

(** *** Hard strategy; [depth] bounds the depth of the recursion. *)

Fixpoint min_max_algorithm (depth : nat) (move_result computer_player : tag)
    (maximizing : bool) : M Z :=
  match depth with
  | O => no_fuel
  | S depth' =>
      if tag_eqb move_result draw then ret 0
      else if negb (tag_eqb move_result not_finished) then
        ret (if tag_eqb computer_player move_result then 1 else -1)
      else
        blank_coordinates <- get_blank_coordinates ;;
        scores <- for_each blank_coordinates (fun coordinates =>
          move_result <- place_move (format coordinates) ;;
          s <- min_max_algorithm depth' move_result computer_player
                 (negb maximizing) ;;
          undo_move coordinates ;;;
          ret s) ;;
        or_raise ValueError (if maximizing then max scores else min scores)
  end.

(** [score > best_score], where [None] is [-math.inf]. *)
Definition exceeds (score : Z) (best_score : option Z) : bool :=
  match best_score with
  | None => true
  | Some b => score >? b
  end.

Definition get_best_coordinates (depth : nat) : M (option (Z * Z)) :=
  p <- get_player ;;
  let computer_player := tag_of p in
  blank_coordinates <- get_blank_coordinates ;;
  best <- for_fold blank_coordinates (None, None)
    (fun (best : option Z * option (Z * Z)) coordinates =>
      move_result <- place_move (format coordinates) ;;
      score <- min_max_algorithm depth move_result computer_player false ;;
      undo_move coordinates ;;;
      if exceeds score (fst best) then ret (Some score, Some coordinates)
      else ret best) ;;
  ret (snd best).

(** [best_coordinates[0]] on [None] is a [TypeError]. *)
Definition get_coordinates (depth : nat) (r : nat) (difficulty : str) : M str :=
  if str_eqb difficulty (lit "easy") then
    random_coordinates <- get_random_coordinates r ;;
    ret (format random_coordinates)
  else if str_eqb difficulty (lit "medium") then
    relevant_coordinates <- get_relevant_coordinates r ;;
    ret (format relevant_coordinates)
  else
    best_coordinates <- get_best_coordinates depth ;;
    best_coordinates <- or_raise TypeError best_coordinates ;;
    ret (format best_coordinates).

(** *** The game loop [play]

    [input k] is the line typed and [draws k] the generator's draw in the
    [k]-th iteration; the value returned is the final [move_result], after
    which the loop prints the result and stops. *)
Fixpoint play (fuel depth : nat) (x_player o_player : str)
    (input : nat -> str) (draws : nat -> nat) (k : nat) : M tag :=
  match fuel with
  | O => no_fuel
  | S fuel' =>
      turn_player <- get_turn_player ;;
      move_result <-
        (if (str_eqb x_player (lit "user") && tag_eqb turn_player tag_X) ||
            (str_eqb o_player (lit "user") && tag_eqb turn_player tag_O)
         then place_move (input k)
         else
           let auto_move_difficulty :=
             if tag_eqb turn_player tag_X then x_player else o_player in
           coordinates <- get_coordinates depth (draws k) auto_move_difficulty ;;
           place_move coordinates) ;;
      match move_result with
      | draw | tag_X | tag_O => ret move_result
      | _ => play fuel' depth x_player o_player input draws (S k)
      end
  end.

End Methods.


(** ** Reasoning about computations in [M] *)

(** A table for the characters above U+00FF in which none of them is a
    space or a digit and [upper] leaves them alone: enough for closed
    examples on ASCII text. *)
Definition plain_unicode : UnicodeData :=
  {| u_isspace := fun _ => false;
     u_isdigit := fun _ => false;
     u_decimal := fun _ => None;
     u_upper := fun c => [c] |}.

(** Every value [m] returns satisfies [P]. *)
Definition returns {A} (P : A -> Prop) (m : M A) : Prop :=
  forall g a g', m g = (Ret a, g') -> P a.

(** [m] leaves the instance as it found it, however it ends. *)
Definition read_only {A} (m : M A) : Prop :=
  forall g, snd (m g) = g.

(** The tags of a game position, as opposed to those of a rejected input. *)
Definition is_result (t : tag) : bool :=
  match t with
  | tag_X | tag_O | draw | not_finished => true
  | _ => false
  end.

Definition is_failure (t : tag) : bool := negb (is_result t).

Lemma bind_ret_inv {A B} (m : M A) (k : A -> M B) g b g' :
  bind m k g = (Ret b, g') ->
  exists a g1, m g = (Ret a, g1) /\ k a g1 = (Ret b, g').
Proof.
  unfold bind. destruct (m g) as [[a|e|] g1]; intros H; try discriminate.
  now exists a, g1.
Qed.

Lemma returns_bind {A B} (P : B -> Prop) (m : M A) (k : A -> M B) :
  (forall a, returns P (k a)) -> returns P (bind m k).
Proof.
  intros Hk g b g' H. apply bind_ret_inv in H as (a & g1 & _ & H).
  exact (Hk a g1 b g' H).
Qed.

Lemma returns_ret {A} (P : A -> Prop) a : P a -> returns P (ret a).
Proof. intros H g b g' E. inversion E. now subst. Qed.

Lemma returns_if {A} (P : A -> Prop) (c : bool) (m1 m2 : M A) :
  returns P m1 -> returns P m2 -> returns P (if c then m1 else m2).
Proof. now destruct c. Qed.

Lemma read_only_bind {A B} (m : M A) (k : A -> M B) :
  read_only m -> (forall a, read_only (k a)) -> read_only (bind m k).
Proof.
  intros Hm Hk g. unfold bind. specialize (Hm g).
  destruct (m g) as [[a|e|] g1]; simpl in *; subst; auto. apply Hk.
Qed.

Lemma read_only_ret {A} (a : A) : read_only (ret a).
Proof. now intros g. Qed.

Lemma read_only_or_raise {A} e (o : option A) : read_only (or_raise e o).
Proof. now destruct o. Qed.

Lemma read_only_if {A} (c : bool) (m1 m2 : M A) :
  read_only m1 -> read_only m2 -> read_only (if c then m1 else m2).
Proof. now destruct c. Qed.

Lemma read_only_get_grid : read_only get_grid.
Proof. now intros g. Qed.

Lemma read_only_get_player : read_only get_player.
Proof. now intros g. Qed.

Lemma read_only_for_each {A B} (l : list A) (body : A -> M B) :
  (forall x, read_only (body x)) -> read_only (for_each l body).
Proof.
  intros Hb. induction l as [|x l IH]; simpl.
  - apply read_only_ret.
  - apply read_only_bind; [apply Hb|]. intros b.
    apply read_only_bind; [apply IH|]. intros bs. apply read_only_ret.
Qed.

Create HintDb pure_m discriminated.
#[global] Hint Resolve read_only_ret read_only_or_raise read_only_get_grid
  read_only_get_player : pure_m.

Ltac read_only_tac :=
  repeat first
    [ apply read_only_bind; [|intro]
    | apply read_only_if
    | apply read_only_for_each; intro
    | solve [auto with pure_m] ].

Lemma read_only_cell x y : read_only (cell x y).
Proof. unfold cell. read_only_tac. Qed.
#[global] Hint Resolve read_only_cell : pure_m.

Lemma read_only_eq3 a b c :
  read_only a -> read_only b -> read_only c -> read_only (eq3 a b c).
Proof. intros. unfold eq3. read_only_tac. Qed.

Lemma read_only_eq_not_blank a b :
  read_only a -> read_only b -> read_only (eq_not_blank a b).
Proof. intros. unfold eq_not_blank. read_only_tac. Qed.

Section BoardFacts.
Context {U : UnicodeData}.

Lemma read_only_get_string_grid : read_only get_string_grid.
Proof. unfold get_string_grid. read_only_tac. Qed.

Lemma read_only_game_state x y : read_only (game_state x y).
Proof.
  unfold game_state.
  repeat first
    [ apply read_only_bind; [|intro]
    | apply read_only_if
    | apply read_only_eq3
    | apply read_only_get_string_grid
    | solve [auto with pure_m] ].
Qed.

Lemma read_only_get_blank_coordinates : read_only get_blank_coordinates.
Proof.
  unfold get_blank_coordinates.
  apply read_only_bind; [apply read_only_get_string_grid|intro].
  read_only_tac.
Qed.

(** [game_state] answers with the tag of a game position. *)
Lemma game_state_result x y : returns (fun t => is_result t = true) (game_state x y).
Proof.
  unfold game_state.
  repeat first
    [ apply returns_bind; intro
    | apply returns_if
    | apply returns_ret; first [reflexivity | now destruct (negb _)] ].
Qed.

End BoardFacts.

(** ** Input validation of [place_move] *)

Section Validation.
Context {U : UnicodeData}.

(** [TicTacToe()] *)
Definition initial_game : game := fst (init None).

(** The text "² 1": a superscript two, a space, a one. *)
Definition superscript_two_one : str := [178%N; 32%N; 49%N].

(** What [place_move] does once the coordinates are read and in range. *)
Definition place_at (x y : Z) : M tag :=
  c <- cell x y ;;
  if negb (char_eqb c blank) then ret occupied_cell else
  p <- get_player ;;
  set_cell x y (mark_of p) ;;;
  set_player (negb p) ;;;
  game_state x y.

Lemma place_at_result_or_occupied x y :
  returns (fun t => t = occupied_cell \/ is_result t = true) (place_at x y).
Proof.
  unfold place_at. apply returns_bind; intro c. apply returns_if.
  - apply returns_ret. now left.
  - do 3 (apply returns_bind; intro).
    intros g t g' H. right. exact (game_state_result _ _ g t g' H).
Qed.

Lemma place_at_occupied x y g g' :
  place_at x y g = (Ret occupied_cell, g') ->
  g' = g /\ exists c, cell x y g = (Ret c, g) /\ c <> blank.
Proof.
  unfold place_at. intros H.
  apply bind_ret_inv in H as (c & g1 & Hc & H).
  assert (g1 = g) by (pose proof (read_only_cell x y g) as R; now rewrite Hc in R).
  subst g1. destruct (char_eqb c blank) eqn:E; simpl in H.
  - do 3 (apply bind_ret_inv in H as (? & ? & _ & H)).
    apply game_state_result in H. discriminate.
  - inversion H; subst. split; [reflexivity|]. exists c. split; [assumption|].
    intros ->. unfold char_eqb in E. now rewrite N.eqb_refl in E.
Qed.

Lemma place_at_blank x y g :
  cell x y g = (Ret blank, g) ->
  forall t g', place_at x y g = (Ret t, g') -> is_result t = true.
Proof.
  intros Hc t g' H. unfold place_at, bind at 1 in H. rewrite Hc in H.
  unfold char_eqb in H. rewrite N.eqb_refl in H. simpl in H.
  do 3 (apply bind_ret_inv in H as (? & ? & _ & H)).
  now apply game_state_result in H.
Qed.

Definition in_range (x y : Z) : bool :=
  negb ((x <? 0) || (x >? 2) || (y <? 0) || (y >? 2)).

Lemma place_move_unfold coordinates :
  place_move coordinates =
  match split coordinates with
  | [x; y] =>
      if negb (isdigit x) || negb (isdigit y) then ret not_number_symbol else
      x <- or_raise ValueError (int x) ;;
      y <- or_raise ValueError (int y) ;;
      if in_range (x - 1) (y - 1) then place_at (x - 1) (y - 1)
      else ret out_of_range
  | _ => ret not_coordinates_pair
  end.
Proof.
  unfold place_move, place_at, in_range.
  destruct (split coordinates) as [|x [|y [|z l]]]; try reflexivity.
  destruct (negb (isdigit x) || negb (isdigit y)); [reflexivity|].
  destruct (int x) as [vx|], (int y) as [vy|]; try reflexivity.
  unfold or_raise, bind, ret.
  now destruct ((vx - 1 <? 0) || (vx - 1 >? 2) || (vy - 1 <? 0) || (vy - 1 >? 2)).
Qed.

End Validation.

Section Rejection.
Context {U : UnicodeData}.

Lemma in_range_iff x y :
  in_range x y = true <-> 0 <= x <= 2 /\ 0 <= y <= 2.
Proof.
  unfold in_range. rewrite negb_true_iff, !orb_false_iff.
  rewrite !Z.ltb_ge, !Z.gtb_ltb, !Z.ltb_ge. lia.
Qed.

Lemma place_at_keeps_state_on_failure x y g t g' :
  place_at x y g = (Ret t, g') -> is_failure t = true -> g' = g.
Proof.
  intros H F. destruct (place_at_result_or_occupied x y g t g' H) as [->|R].
  - now apply place_at_occupied in H.
  - unfold is_failure in F. now rewrite R in F.
Qed.

(** C2.  Whatever the board and the text, a call of [place_move] that
    answers with one of the four rejection tags leaves the grid and the
    player as they were; and the four tests come in this order: the number
    of tokens, then [isdigit] on both tokens, then the range of the two
    indices, then the occupation of the cell. *)
Theorem place_move_rejection_keeps_state (coordinates : str) (g : game) :
  let r := place_move coordinates g in
  (forall t, fst r = Ret t -> is_failure t = true -> snd r = g) /\
  (fst r = Ret not_coordinates_pair <-> List.length (split coordinates) <> 2%nat) /\
  (forall x y, split coordinates = [x; y] ->
     (fst r = Ret not_number_symbol <-> isdigit x = false \/ isdigit y = false) /\
     (forall vx vy,
        isdigit x = true -> isdigit y = true ->
        int x = Some vx -> int y = Some vy ->
        (fst r = Ret out_of_range <-> ~ (0 <= vx - 1 <= 2 /\ 0 <= vy - 1 <= 2)) /\
        (0 <= vx - 1 <= 2 /\ 0 <= vy - 1 <= 2 ->
         (fst r = Ret occupied_cell <->
          exists c, cell (vx - 1) (vy - 1) g = (Ret c, g) /\ c <> blank)))).
Proof.
  cbv zeta. rewrite place_move_unfold.
  destruct (split coordinates) as [|x [|y [|z l]]];
    try (simpl; repeat split; try easy; intros; discriminate).
  split; [|split].
  - (* no mutation *)
    intros t.
    destruct (negb (isdigit x) || negb (isdigit y)); [reflexivity|].
    destruct (int x) as [vx|]; [|discriminate].
    destruct (int y) as [vy|]; [|discriminate].
    cbn [or_raise bind ret].
    destruct (in_range (vx - 1) (vy - 1)); [|reflexivity].
    destruct (place_at (vx - 1) (vy - 1) g) as [o g'] eqn:E. simpl.
    intros -> F. exact (place_at_keeps_state_on_failure _ _ _ _ _ E F).
  - (* token count *)
    simpl. split; [|easy].
    destruct (negb (isdigit x) || negb (isdigit y)); [discriminate|].
    destruct (int x) as [vx|]; [|discriminate].
    destruct (int y) as [vy|]; [|discriminate].
    cbn [or_raise bind ret].
    destruct (in_range (vx - 1) (vy - 1)); [|discriminate].
    destruct (place_at (vx - 1) (vy - 1) g) as [o g'] eqn:E. simpl.
    intros ->. destruct (place_at_result_or_occupied _ _ _ _ _ E); discriminate.
  - intros x0 y0 E0. inversion E0; subst x0 y0; clear E0. split.
    + (* isdigit *)
      destruct (isdigit x), (isdigit y); simpl;
        try (split; [auto|reflexivity]).
      split; [|intros [?|?]; discriminate].
      destruct (int x) as [vx|]; [|discriminate].
      destruct (int y) as [vy|]; [|discriminate].
      cbn [or_raise bind ret].
      destruct (in_range (vx - 1) (vy - 1)); [|discriminate].
      destruct (place_at (vx - 1) (vy - 1) g) as [o g'] eqn:E. simpl.
      intros ->. destruct (place_at_result_or_occupied _ _ _ _ _ E); discriminate.
    + intros vx vy Dx Dy Ix Iy. rewrite Dx, Dy, Ix, Iy. simpl.
      cbn [or_raise bind ret].
      rewrite <- in_range_iff.
      destruct (in_range (vx - 1) (vy - 1)); simpl.
      * split.
        -- split; [|intros H; now elim H].
           destruct (place_at (vx - 1) (vy - 1) g) as [o g'] eqn:E. simpl.
           intros ->.
           destruct (place_at_result_or_occupied _ _ _ _ _ E); discriminate.
        -- intros _. split.
           ++ destruct (place_at (vx - 1) (vy - 1) g) as [o g'] eqn:E. simpl.
              intros ->. now apply place_at_occupied in E.
           ++ intros (c & Hc & Hn). unfold place_at, bind at 1. rewrite Hc.
              destruct (char_eqb c blank) eqn:Eb; [|reflexivity].
              apply N.eqb_eq in Eb. contradiction.
      * split; [split; [discriminate|reflexivity]|discriminate].
Qed.

(** C7.  The four rejections on the examples of the specification; and,
    on the text "² 1", a call that does not return: the superscript two
    passes [isdigit] and [int] raises [ValueError]. *)
Theorem place_move_examples :
  fst (place_move (lit "4 1") initial_game) = Ret out_of_range /\
  fst (place_move (lit "a b") initial_game) = Ret not_number_symbol /\
  fst (place_move (lit "1") initial_game) = Ret not_coordinates_pair /\
  fst (place_move (lit "1 1") (snd (place_move (lit "1 1") initial_game)))
    = Ret occupied_cell /\
  place_move superscript_two_one initial_game = (Raise ValueError, initial_game).
Proof. repeat split. Qed.

End Rejection.

(** ** Construction from a preset *)

Section Construct.
Context {U : UnicodeData}.

Definition is_cell (c : char) : Prop := c = mark_X \/ c = mark_O \/ c = blank.

(** A preset that [TicTacToe] loads, as the specification words it: nine
    characters, each a mark or the blank. *)
Definition valid_preset (s : str) : Prop :=
  List.length s = 9%nat /\ Forall is_cell s.

Lemma count_cons c a s :
  count c (a :: s) = (if char_eqb c a then 1 else 0) + count c s.
Proof.
  unfold count. simpl. destruct (char_eqb c a); simpl List.length; lia.
Qed.

Lemma count_nonneg c s : 0 <= count c s.
Proof. unfold count. lia. Qed.

Lemma count_cells_le s :
  count mark_X s + count mark_O s + count blank s <= Z.of_nat (List.length s).
Proof.
  induction s as [|a s IH]; [reflexivity|].
  rewrite !count_cons. simpl List.length. unfold char_eqb.
  destruct (N.eqb_spec mark_X a), (N.eqb_spec mark_O a), (N.eqb_spec blank a);
    subst; try discriminate; lia.
Qed.

Lemma count_cells_eq s :
  count mark_X s + count mark_O s + count blank s = Z.of_nat (List.length s)
  <-> Forall is_cell s.
Proof.
  induction s as [|a s IH]; [split; [constructor|reflexivity]|].
  rewrite !count_cons. simpl List.length. pose proof (count_cells_le s) as L.
  unfold char_eqb, is_cell in *.
  destruct (N.eqb_spec mark_X a), (N.eqb_spec mark_O a), (N.eqb_spec blank a);
    subst; try discriminate; (split; [intros H|intros H; inversion H; subst]);
    try (constructor; [auto|apply IH; lia]);
    try (apply IH in H3; lia); try lia.
  all: try (destruct H2 as [?|[?|?]]; congruence).
Qed.

Lemma accepted_iff s :
  (Z.of_nat (List.length s) =? 9) &&
  (count mark_X s + count mark_O s + count blank s =? 9) = true
  <-> valid_preset s.
Proof.
  unfold valid_preset. rewrite andb_true_iff, !Z.eqb_eq, <- count_cells_eq. lia.
Qed.

(** The grid [TicTacToe] builds from nine characters. *)
Lemma rows_of_nine (a b c d e f g h i : char) :
  map (fun k => slice (3 * k) (3 * k + 3) [a; b; c; d; e; f; g; h; i]) [0; 1; 2]%nat
  = [[a; b; c]; [d; e; f]; [g; h; i]].
Proof. reflexivity. Qed.

(** C8.  With [s] the preset in upper case: [s] is loaded exactly when it
    has nine characters, each 'X', 'O' or '_'; a preset that is loaded is
    laid out row by row, nothing is printed, and 'O' is to move exactly
    when the two counts differ; a preset that is not loaded leaves the
    empty board with 'X' to move and prints the diagnostic; and eight 'X'
    with one blank are loaded. *)
Theorem init_preset (initial_condition : str) :
  let s := upper initial_condition in
  let r := init (Some initial_condition) in
  (valid_preset s ->
     List.concat (grid (fst r)) = s /\
     List.length (grid (fst r)) = 3%nat /\
     Forall (fun row => List.length row = 3%nat) (grid (fst r)) /\
     (player (fst r) = false <-> count mark_X s <> count mark_O s) /\
     snd r = []) /\
  (~ valid_preset s -> r = (Game empty_grid true, [lit "Wrong initial condition"])) /\
  init (Some (lit "XXXXXXXX_")) =
    (Game [[mark_X; mark_X; mark_X]; [mark_X; mark_X; mark_X]; [mark_X; mark_X; blank]]
          false, []).
Proof.
  cbv zeta. unfold init. set (s := upper initial_condition).
  split; [|split; [|reflexivity]].
  - intros V. pose proof (proj2 (accepted_iff s) V) as ->.
    destruct V as [L _].
    destruct s as [|a [|b [|c [|d [|e [|f [|g [|h [|i [|j s]]]]]]]]]];
      try discriminate L.
    rewrite rows_of_nine. cbn [fst snd grid player].
    repeat split; try (repeat constructor).
    + destruct (count mark_X _ =? count mark_O _) eqn:E; simpl; [discriminate|].
      intros _. now apply Z.eqb_neq.
    + destruct (count mark_X _ =? count mark_O _) eqn:E; simpl; [|reflexivity].
      apply Z.eqb_eq in E. contradiction.
  - intros V.
    destruct ((Z.of_nat (List.length s) =? 9) && _) eqn:E; [|reflexivity].
    apply accepted_iff in E. contradiction.
Qed.

End Construct.

(** ** Classification of a position *)

(** A grid of three rows of three cells, as [TicTacToe] builds them. *)
Definition three_by_three (gr : list (list char)) : Prop :=
  List.length gr = 3%nat /\ Forall (fun row => List.length row = 3%nat) gr.

Lemma three_by_three_inv gr :
  three_by_three gr ->
  exists a b c d e f g h i, gr = [[a; b; c]; [d; e; f]; [g; h; i]].
Proof.
  intros [L F].
  destruct gr as [|r1 [|r2 [|r3 [|r4 gr]]]]; try discriminate L.
  inversion F as [|? ? L1 F1]; subst. inversion F1 as [|? ? L2 F2]; subst.
  inversion F2 as [|? ? L3 _]; subst.
  destruct r1 as [|a [|b [|c [|? ?]]]]; try discriminate L1.
  destruct r2 as [|d [|e [|f [|? ?]]]]; try discriminate L2.
  destruct r3 as [|g [|h [|i [|? ?]]]]; try discriminate L3.
  now exists a, b, c, d, e, f, g, h, i.
Qed.

Lemma char_eqb_spec (a b : char) : reflect (a = b) (char_eqb a b).
Proof. apply N.eqb_spec. Qed.

(** The eight lines, as lists of 0-based (row, column) cells. *)
Definition lines : list (list (Z * Z)) :=
  [ [(0, 0); (0, 1); (0, 2)]; [(1, 0); (1, 1); (1, 2)]; [(2, 0); (2, 1); (2, 2)];
    [(0, 0); (1, 0); (2, 0)]; [(0, 1); (1, 1); (2, 1)]; [(0, 2); (1, 2); (2, 2)];
    [(0, 0); (1, 1); (2, 2)]; [(0, 2); (1, 1); (2, 0)] ].

Definition same_cell (c d : Z * Z) : bool :=
  (fst c =? fst d) && (snd c =? snd d).

(** The lines through a cell: its row, its column, and the diagonals it
    lies on. *)
Definition lines_through (x y : Z) : list (list (Z * Z)) :=
  filter (existsb (same_cell (x, y))) lines.

(** What the grid holds at a cell. *)
Definition content (g : game) (c : Z * Z) : option char :=
  match fst (cell (fst c) (snd c) g) with
  | Ret v => Some v
  | _ => None
  end.

(** A line wins: its cells hold one and the same mark. *)
Definition line_wins (g : game) (l : list (Z * Z)) : Prop :=
  exists m, m <> blank /\ Forall (fun c => content g c = Some m) l.

Definition has_blank (g : game) : Prop := In blank (List.concat (grid g)).

Definition line_winsb (g : game) (l : list (Z * Z)) : bool :=
  match map (content g) l with
  | [Some u; Some v; Some w] =>
      char_eqb u v && char_eqb v w && negb (char_eqb u blank)
  | _ => false
  end.

Lemma line_wins_iff g c1 c2 c3 :
  line_wins g [c1; c2; c3] <-> line_winsb g [c1; c2; c3] = true.
Proof.
  unfold line_wins, line_winsb. simpl. split.
  - intros (m & Hm & F).
    inversion F as [|? ? H1 F1]; subst. inversion F1 as [|? ? H2 F2]; subst.
    inversion F2 as [|? ? H3 _]; subst. rewrite H1, H2, H3.
    unfold char_eqb. rewrite N.eqb_refl.
    destruct (N.eqb_spec m blank); [contradiction|reflexivity].
  - destruct (content g c1) as [u|] eqn:E1; [|discriminate].
    destruct (content g c2) as [v|] eqn:E2; [|discriminate].
    destruct (content g c3) as [w|] eqn:E3; [|discriminate].
    destruct (char_eqb_spec u v); [|discriminate].
    destruct (char_eqb_spec v w); [|discriminate].
    destruct (char_eqb_spec u blank); [discriminate|]. intros _. subst.
    exists w. repeat constructor; auto.
Qed.

Lemma lines_have_three_cells l :
  In l lines -> exists c1 c2 c3, l = [c1; c2; c3].
Proof.
  unfold lines. simpl.
  intros H; repeat destruct H as [<-|H]; try contradiction; eauto.
Qed.

Lemma won_iff g x y :
  (exists l, In l (lines_through x y) /\ line_wins g l)
  <-> existsb (line_winsb g) (lines_through x y) = true.
Proof.
  rewrite existsb_exists. split; intros (l & I & W); exists l; split; auto.
  - apply filter_In in I as [I _].
    destruct (lines_have_three_cells l I) as (c1 & c2 & c3 & ->).
    now apply line_wins_iff.
  - apply filter_In in I as [I _].
    destruct (lines_have_three_cells l I) as (c1 & c2 & c3 & ->).
    now apply line_wins_iff.
Qed.

Lemma count_zero_iff c s : count c s = 0 <-> ~ In c s.
Proof.
  induction s as [|a s IH]; [simpl; intuition|].
  rewrite count_cons. pose proof (count_nonneg c s). simpl.
  destruct (char_eqb_spec c a); subst.
  - split; [lia|]. intros H0; elim H0; now left.
  - rewrite Z.add_0_l, IH. intuition congruence.
Qed.

(** Case analysis on every comparison of two cells in the goal. *)
Ltac cases_on_cells :=
  repeat match goal with
  | |- context [char_eqb ?a ?b] =>
      destruct (char_eqb_spec a b); subst; try discriminate; try congruence
  end.

Ltac three_cases x :=
  let H := fresh in
  assert (H : x = 0 \/ x = 1 \/ x = 2) by lia;
  destruct H as [?|[?|?]]; subst x.

(** One step of a computation whose first part is known. *)
Lemma bind_run {A B} (m : M A) (k : A -> M B) g a g' :
  m g = (Ret a, g') -> bind m k g = k a g'.
Proof. unfold bind. now intros ->. Qed.

Lemma eq3_run (a b c : M char) g va vb vc :
  a g = (Ret va, g) -> b g = (Ret vb, g) -> c g = (Ret vc, g) ->
  eq3 a b c g = (Ret (char_eqb va vb && char_eqb vb vc), g).
Proof.
  intros Ha Hb Hc. unfold eq3.
  rewrite (bind_run _ _ _ _ _ Ha), (bind_run _ _ _ _ _ Hb).
  destruct (char_eqb va vb); [|reflexivity].
  now rewrite (bind_run _ _ _ _ _ Hc).
Qed.

Lemma eq_not_blank_run (a b : M char) g va vb :
  a g = (Ret va, g) -> b g = (Ret vb, g) ->
  eq_not_blank a b g = (Ret (char_eqb va vb && negb (char_eqb vb blank)), g).
Proof.
  intros Ha Hb. unfold eq_not_blank.
  now rewrite (bind_run _ _ _ _ _ Ha), (bind_run _ _ _ _ _ Hb).
Qed.

Lemma if_run {A} (c : bool) (m1 m2 : M A) g :
  (if c then m1 else m2) g = if c then m1 g else m2 g.
Proof. now destruct c. Qed.

Lemma if_ret {A} (c : bool) (a1 a2 : A) g :
  (if c then ret a1 else ret a2) g = (Ret (if c then a1 else a2), g).
Proof. now destruct c. Qed.

(** Runs a computation on a grid of known shape, splitting on the
    comparisons of cells it meets. *)
Ltac run_step :=
  first
    [ erewrite (bind_run (eq3 _ _ _)) by (apply eq3_run; reflexivity)
    | erewrite (bind_run (eq_not_blank _ _)) by (apply eq_not_blank_run; reflexivity)
    | erewrite (bind_run (ret _)) by reflexivity
    | erewrite (bind_run get_player) by reflexivity
    | erewrite (bind_run get_grid) by reflexivity
    | erewrite (bind_run (or_raise _ _)) by reflexivity
    | erewrite (bind_run (cell _ _)) by reflexivity
    | match goal with
      | |- context [if char_eqb ?a ?b then _ else _] =>
          destruct (char_eqb_spec a b); subst; try congruence
      | |- context [char_eqb ?a ?b && _] =>
          destruct (char_eqb_spec a b); subst; try congruence
      end
    | progress cbn [andb orb negb] ].

Section Classify.
Context {U : UnicodeData}.

Lemma game_state_eq g x y m :
  three_by_three (grid g) -> 0 <= x <= 2 -> 0 <= y <= 2 ->
  content g (x, y) = Some m -> m <> blank ->
  game_state x y g =
  (Ret (if existsb (line_winsb g) (lines_through x y)
        then tag_of (negb (player g))
        else if negb (count blank (List.concat (grid g)) =? 0)
             then not_finished else draw), g).
Proof.
  intros W Hx Hy Hc Hm. destruct g as [gr p]. simpl in W.
  destruct (three_by_three_inv gr W) as (a & b & c & d & e & f & g & h & i & ->).
  clear W.
  three_cases x; three_cases y; cbv in Hc; inversion Hc; subst; clear Hc;
  match goal with
  | |- _ = (Ret (if ?w then _ else _), _) =>
      let w' := eval cbv -[char_eqb blank] in w in change w with w'
  end;
  unfold game_state; cbn [Z.eqb Z.add Pos.eqb Pos.add];
  repeat run_step.
  all: try reflexivity.
  all: try (unfold get_string_grid; repeat run_step; apply if_ret).
  all: cases_on_cells; reflexivity.
Qed.

End Classify.

Section ClassifyTheorem.
Context {U : UnicodeData}.

Lemma game_state_winner x y g t g' :
  game_state x y g = (Ret t, g') ->
  t = tag_of (negb (player g)) \/ t = draw \/ t = not_finished.
Proof.
  intros H. unfold game_state in H.
  rewrite (bind_run get_player _ g (player g) g eq_refl) in H.
  set (p := player g) in *. clearbody p.
  match type of H with
  | ?m g = _ =>
      assert (R : returns (fun t => t = tag_of (negb p) \/ t = draw \/ t = not_finished) m)
  end.
  { repeat first
      [ apply returns_bind; intro
      | apply returns_if
      | apply returns_ret; auto ]. }
  exact (R g t g' H).
Qed.

Lemma count_nonzero_iff c s : count c s <> 0 <-> In c s.
Proof.
  rewrite count_zero_iff. split; [|tauto].
  intros H. destruct (In_dec N.eq_dec c s); tauto.
Qed.

Lemma set_cell_player x y v g g' :
  set_cell x y v g = (Ret tt, g') -> player g' = player g.
Proof.
  unfold set_cell. intros H.
  apply bind_ret_inv in H as (gr & g1 & H1 & H). inversion H1; subst g1 gr; clear H1.
  apply bind_ret_inv in H as (row & g1 & H1 & H).
  assert (g1 = g) by (pose proof (read_only_or_raise IndexError (getitem (grid g) x) g) as R; now rewrite H1 in R). subst g1.
  apply bind_ret_inv in H as (row' & g1 & H2 & H).
  assert (g1 = g) by (pose proof (read_only_or_raise IndexError (setitem row y v) g) as R; now rewrite H2 in R). subst g1.
  apply bind_ret_inv in H as (gr' & g1 & H3 & H).
  assert (g1 = g) by (pose proof (read_only_or_raise IndexError (setitem (grid g) x row') g) as R; now rewrite H3 in R). subst g1.
  inversion H. reflexivity.
Qed.

Lemma place_at_winner x y g t g' :
  place_at x y g = (Ret t, g') -> is_result t = true ->
  player g' = negb (player g) /\
  (t = tag_of (player g) \/ t = draw \/ t = not_finished).
Proof.
  unfold place_at. intros H R.
  apply bind_ret_inv in H as (c & g1 & Hc & H).
  assert (g1 = g) by (pose proof (read_only_cell x y g) as Q; now rewrite Hc in Q).
  subst g1. destruct (negb (char_eqb c blank)).
  { inversion H; subst. discriminate. }
  rewrite (bind_run get_player _ g (player g) g eq_refl) in H.
  apply bind_ret_inv in H as ([] & g1 & H1 & H).
  apply set_cell_player in H1.
  apply bind_ret_inv in H as ([] & g2 & H2 & H).
  inversion H2; subst g2; clear H2.
  pose proof (read_only_game_state x y {| grid := grid g1; player := negb (player g) |}) as Q.
  rewrite H in Q. simpl in Q. subst g'.
  apply game_state_winner in H. simpl in H. rewrite negb_involutive in H.
  now split.
Qed.

Lemma place_move_winner coordinates g t g' :
  place_move coordinates g = (Ret t, g') -> is_result t = true ->
  player g' = negb (player g) /\
  (t = tag_of (player g) \/ t = draw \/ t = not_finished).
Proof.
  rewrite place_move_unfold.
  destruct (split coordinates) as [|x [|y [|z l]]];
    try (intros H; inversion H; subst; discriminate).
  destruct (negb (isdigit x) || negb (isdigit y));
    [intros H; inversion H; subst; discriminate|].
  destruct (int x) as [vx|]; [|discriminate].
  destruct (int y) as [vy|]; [|discriminate].
  cbn [or_raise bind ret].
  destruct (in_range (vx - 1) (vy - 1)).
  - apply place_at_winner.
  - intros H; inversion H; subst; discriminate.
Qed.

(** C3.  On a board and a cell that holds the mark of the player who has
    just moved (the player opposite to [self.player], which [place_move]
    has already flipped): [game_state] answers with that player's tag
    exactly when a line through the cell wins, full board or not; with
    [draw] exactly when no line wins and no cell is blank; with
    [not_finished] exactly when no line wins and a cell is blank.  And the
    winner [place_move] names is the player of the board before the move. *)
Theorem game_state_classifies (g : game) (x y : Z) :
  three_by_three (grid g) -> 0 <= x <= 2 -> 0 <= y <= 2 ->
  content g (x, y) = Some (mark_of (negb (player g))) ->
  let won := exists l, In l (lines_through x y) /\ line_wins g l in
  let r := fst (game_state x y g) in
  (r = Ret (tag_of (negb (player g))) <-> won) /\
  (r = Ret draw <-> ~ won /\ ~ has_blank g) /\
  (r = Ret not_finished <-> ~ won /\ has_blank g) /\
  (forall coordinates g0 t,
     place_move coordinates g0 = (Ret t, g) -> t = tag_X \/ t = tag_O ->
     t = tag_of (player g0) /\ player g0 = negb (player g)).
Proof.
  intros W Hx Hy Hc. cbv zeta.
  assert (Hm : mark_of (negb (player g)) <> blank) by (now destruct (player g)).
  assert (Last : forall coordinates g0 t,
     place_move coordinates g0 = (Ret t, g) -> t = tag_X \/ t = tag_O ->
     t = tag_of (player g0) /\ player g0 = negb (player g)).
  { intros coordinates g0 t H T.
    destruct (place_move_winner _ _ _ _ H) as [P Q]; [destruct T; now subst|].
    split; [|rewrite P; now rewrite negb_involutive].
    destruct Q as [ -> | [ -> | -> ] ]; destruct T; subst; try discriminate; auto. }
  rewrite (game_state_eq g x y _ W Hx Hy Hc Hm). cbn [fst].
  rewrite won_iff. unfold has_blank.
  destruct (existsb (line_winsb g) (lines_through x y)).
  - split; [|split; [|split]]; [easy| | |exact Last].
    + split; [destruct (player g); discriminate|intros []; easy].
    + split; [destruct (player g); discriminate|intros []; easy].
  - destruct (Z.eqb_spec (count blank (List.concat (grid g))) 0) as [E|E]; simpl;
      [apply count_zero_iff in E|apply count_nonzero_iff in E];
      (split; [|split; [|split]]; [| | |exact Last]).
    + split; [destruct (player g); discriminate|discriminate].
    + split; [intros _; split; [discriminate|tauto]|reflexivity].
    + split; [discriminate|intros []; contradiction].
    + split; [destruct (player g); discriminate|discriminate].
    + split; [discriminate|intros []; tauto].
    + split; [intros _; split; [discriminate|tauto]|reflexivity].
Qed.
End ClassifyTheorem.

(** 'X' has completed the first row and the board is not full. *)
Definition first_row_won : game :=
  Game [[mark_X; mark_X; mark_X]; [mark_O; mark_O; blank]; [blank; blank; blank]]
       false.

Lemma three_by_three_first_row_won : three_by_three (grid first_row_won).
Proof. split; [reflexivity|repeat constructor]. Qed.

Lemma game_state_classifies_witness :
  fst (game_state 0 2 first_row_won)
    = Ret (tag_of (negb (player first_row_won)))
  <-> exists l, In l (lines_through 0 2) /\ line_wins first_row_won l.
Proof.
  refine (proj1 (@game_state_classifies plain_unicode first_row_won 0 2
                   three_by_three_first_row_won _ _ _));
    [lia|lia|reflexivity].
Defined.

(** ** Moves on a three-by-three grid *)

(** The grid after [self.grid[x][y] = v]. *)
Definition grid_set (gr : list (list char)) (x y : Z) (v : char) : list (list char) :=
  match getitem gr x with
  | Some row => update gr (Z.to_nat x) (update row (Z.to_nat y) v)
  | None => gr
  end.

Ltac nine_cells gr W :=
  let a := fresh "a" in let b := fresh "b" in let c := fresh "c" in
  let d := fresh "d" in let e := fresh "e" in let f := fresh "f" in
  let g := fresh "g" in let h := fresh "h" in let i := fresh "i" in
  destruct (three_by_three_inv gr W) as (a & b & c & d & e & f & g & h & i & ->);
  clear W.

Lemma set_cell_run g x y v :
  three_by_three (grid g) -> 0 <= x <= 2 -> 0 <= y <= 2 ->
  set_cell x y v g = (Ret tt, Game (grid_set (grid g) x y v) (player g)).
Proof.
  intros W Hx Hy. destruct g as [gr p]. simpl in W. nine_cells gr W.
  three_cases x; three_cases y; reflexivity.
Qed.

Lemma three_by_three_grid_set gr x y v :
  three_by_three gr -> 0 <= x <= 2 -> 0 <= y <= 2 ->
  three_by_three (grid_set gr x y v).
Proof.
  intros W Hx Hy. nine_cells gr W.
  three_cases x; three_cases y; (split; [reflexivity|repeat constructor]).
Qed.

Lemma content_grid_set gr p x y v :
  three_by_three gr -> 0 <= x <= 2 -> 0 <= y <= 2 ->
  content (Game (grid_set gr x y v) p) (x, y) = Some v.
Proof.
  intros W Hx Hy. nine_cells gr W.
  three_cases x; three_cases y; reflexivity.
Qed.

Lemma grid_set_back gr p x y u v :
  three_by_three gr -> 0 <= x <= 2 -> 0 <= y <= 2 ->
  content (Game gr p) (x, y) = Some u ->
  grid_set (grid_set gr x y v) x y u = gr.
Proof.
  intros W Hx Hy. nine_cells gr W.
  three_cases x; three_cases y; intros H; cbv in H; inversion H; reflexivity.
Qed.

Lemma count_grid_set gr p x y u v c :
  three_by_three gr -> 0 <= x <= 2 -> 0 <= y <= 2 ->
  content (Game gr p) (x, y) = Some u ->
  count c (List.concat (grid_set gr x y v)) =
  count c (List.concat gr) + (if char_eqb c v then 1 else 0)
                           - (if char_eqb c u then 1 else 0).
Proof.
  intros W Hx Hy. nine_cells gr W.
  three_cases x; three_cases y; intros H; cbv in H; inversion H; subst;
    repeat match goal with
    | |- context [List.concat ?t] =>
        let t' := eval cbv in (List.concat t) in
        progress change (List.concat t) with t'
    end;
    rewrite !count_cons; ring.
Qed.

Lemma content_cell g x y v :
  content g (x, y) = Some v -> cell x y g = (Ret v, g).
Proof.
  unfold content. simpl. pose proof (read_only_cell x y g) as R.
  destruct (cell x y g) as [[a| |] g']; simpl in *; subst; congruence.
Qed.

Section Moves.
Context {U : UnicodeData}.

Lemma place_at_run g x y :
  three_by_three (grid g) -> 0 <= x <= 2 -> 0 <= y <= 2 ->
  content g (x, y) = Some blank ->
  place_at x y g =
  game_state x y
    (Game (grid_set (grid g) x y (mark_of (player g))) (negb (player g))).
Proof.
  intros W Hx Hy Hc. unfold place_at.
  rewrite (bind_run _ _ _ _ _ (content_cell _ _ _ _ Hc)).
  change (negb (char_eqb blank blank)) with false. cbv iota.
  rewrite (bind_run get_player _ g (player g) g eq_refl).
  rewrite (bind_run _ _ _ _ _ (set_cell_run g x y _ W Hx Hy)).
  reflexivity.
Qed.

Lemma undo_move_run g r c :
  three_by_three (grid g) -> 1 <= r <= 3 -> 1 <= c <= 3 ->
  undo_move (r, c) g =
  (Ret tt, Game (grid_set (grid g) (r - 1) (c - 1) blank) (negb (player g))).
Proof.
  intros W Hr Hc. unfold undo_move. cbn [fst snd].
  rewrite (bind_run _ _ _ _ _ (set_cell_run g (r - 1) (c - 1) _ W ltac:(lia) ltac:(lia))).
  reflexivity.
Qed.

(** The text [place_move] reads as the cell in row [r] and column [c]. *)
Definition denotes (coordinates : str) (r c : Z) : Prop :=
  exists x y, split coordinates = [x; y] /\
    isdigit x = true /\ isdigit y = true /\ int x = Some r /\ int y = Some c.

Lemma place_move_denoted coordinates r c :
  denotes coordinates r c ->
  place_move coordinates =
  if in_range (r - 1) (c - 1) then place_at (r - 1) (c - 1) else ret out_of_range.
Proof.
  intros (x & y & S & Dx & Dy & Ix & Iy).
  rewrite place_move_unfold, S, Dx, Dy, Ix, Iy. reflexivity.
Qed.

Lemma format_denotes r c :
  1 <= r <= 3 -> 1 <= c <= 3 -> denotes (format (r, c)) r c.
Proof.
  intros Hr Hc.
  assert (R : r = 1 \/ r = 2 \/ r = 3) by lia.
  assert (C : c = 1 \/ c = 2 \/ c = 3) by lia.
  destruct R as [ -> | [ -> | -> ] ], C as [ -> | [ -> | -> ] ];
    (eexists; eexists; repeat split; reflexivity).
Qed.

End Moves.

(** ** Apply and undo *)

Section ApplyUndo.
Context {U : UnicodeData}.

(** What a call of [place_move] on a blank cell does. *)
Lemma place_move_on_blank coordinates r c g :
  denotes coordinates r c ->
  three_by_three (grid g) -> 1 <= r <= 3 -> 1 <= c <= 3 ->
  content g (r - 1, c - 1) = Some blank ->
  exists t,
    place_move coordinates g =
      (Ret t, Game (grid_set (grid g) (r - 1) (c - 1) (mark_of (player g)))
                   (negb (player g))) /\
    (t = tag_of (player g) \/ t = draw \/ t = not_finished).
Proof.
  intros D W Hr Hc B. rewrite (place_move_denoted _ _ _ D).
  assert (I : in_range (r - 1) (c - 1) = true) by (apply in_range_iff; lia).
  rewrite I, place_at_run by (auto; lia).
  set (g' := Game _ _).
  pose proof (read_only_game_state (r - 1) (c - 1) g') as R.
  destruct (game_state (r - 1) (c - 1) g') as [[t| |] g''] eqn:E; simpl in R; subst g''.
  - exists t. split; [reflexivity|].
    apply game_state_winner in E. simpl in E. now rewrite negb_involutive in E.
  - exfalso. revert E.
    erewrite game_state_eq; [discriminate| | | |apply content_grid_set|];
      try (apply three_by_three_grid_set); auto; try lia.
    now destruct (player g).
  - exfalso. revert E.
    erewrite game_state_eq; [discriminate| | | |apply content_grid_set|];
      try (apply three_by_three_grid_set); auto; try lia.
    now destruct (player g).
Qed.

(** C4.  On a three-by-three board, a call of [place_move] on a blank cell
    of row [r] and column [c], whatever text denotes it, succeeds, and
    [undo_move (r, c)] then gives back the instance as it was: the same
    grid, hence the same board string, and the same player. *)
Theorem place_then_undo (coordinates : str) (r c : Z) (g : game) :
  denotes coordinates r c ->
  three_by_three (grid g) -> 1 <= r <= 3 -> 1 <= c <= 3 ->
  content g (r - 1, c - 1) = Some blank ->
  exists t g',
    place_move coordinates g = (Ret t, g') /\ is_result t = true /\
    undo_move (r, c) g' = (Ret tt, g) /\
    (forall g'', undo_move (r, c) g' = (Ret tt, g'') ->
       fst (get_string_grid g'') = fst (get_string_grid g) /\
       fst (get_turn_player g'') = fst (get_turn_player g)).
Proof.
  intros D W Hr Hc B.
  destruct (place_move_on_blank _ _ _ _ D W Hr Hc B) as (t & E & T).
  eexists; eexists. split; [exact E|].
  assert (Un : undo_move (r, c)
                 (Game (grid_set (grid g) (r - 1) (c - 1) (mark_of (player g)))
                       (negb (player g))) = (Ret tt, g)).
  { rewrite undo_move_run; auto.
    2:{ apply three_by_three_grid_set; auto; lia. }
    cbn [grid player]. rewrite negb_involutive.
    destruct g as [gr p]. cbn [grid player] in *.
    erewrite grid_set_back; eauto; lia. }
  split; [|split].
  - destruct T as [ -> | [ -> | -> ] ]; try reflexivity. now destruct (player g).
  - exact Un.
  - intros g''. rewrite Un. intros H; inversion H; subst. split; reflexivity.
Qed.

Lemma three_by_three_initial_game : three_by_three (grid initial_game).
Proof. split; [reflexivity|repeat constructor]. Qed.

End ApplyUndo.

Lemma place_then_undo_witness :
  let start := initial_game (U := plain_unicode) in
  exists t g',
    place_move (U := plain_unicode) (lit " 2  3 ") start = (Ret t, g') /\
    is_result t = true /\
    undo_move (2, 3) g' = (Ret tt, start) /\
    (forall g'', undo_move (2, 3) g' = (Ret tt, g'') ->
       fst (get_string_grid g'') = fst (get_string_grid start) /\
       fst (get_turn_player g'') = fst (get_turn_player start)).
Proof.
  apply (@place_then_undo plain_unicode (lit " 2  3 ") 2 3 initial_game);
    [ exists [50%N], [51%N]; repeat split
    | exact three_by_three_initial_game | lia | lia | reflexivity ].
Defined.

(** ** Alternation of the players *)

Section Alternation.
Context {U : UnicodeData}.

(** The instances reached from [TicTacToe()] by calls of [place_move] that
    return, whatever they return. *)
Inductive played : game -> Prop :=
| played_new : played initial_game
| played_move coordinates g t g' :
    played g -> place_move coordinates g = (Ret t, g') -> played g'.

(** What [place_move] leaves behind: the instance as it was, or one more
    mark of the player to move on a cell that was blank. *)
Lemma place_move_state coordinates g t g' :
  three_by_three (grid g) ->
  place_move coordinates g = (Ret t, g') ->
  g' = g \/
  exists x y, 0 <= x <= 2 /\ 0 <= y <= 2 /\ content g (x, y) = Some blank /\
    g' = Game (grid_set (grid g) x y (mark_of (player g))) (negb (player g)).
Proof.
  intros W. rewrite place_move_unfold.
  destruct (split coordinates) as [|x [|y [|z l]]];
    try (intros H; inversion H; now left).
  destruct (negb (isdigit x) || negb (isdigit y));
    [intros H; inversion H; now left|].
  destruct (int x) as [vx|]; [|discriminate].
  destruct (int y) as [vy|]; [|discriminate].
  cbn [or_raise bind ret].
  destruct (in_range (vx - 1) (vy - 1)) eqn:I;
    [|intros H; inversion H; now left].
  apply in_range_iff in I. intros H.
  destruct (content g (vx - 1, vy - 1)) as [c|] eqn:C.
  - destruct (char_eqb_spec c blank) as [->|N].
    + right. exists (vx - 1), (vy - 1).
      split; [lia|split; [lia|split; [exact C|]]].
      rewrite place_at_run in H by (auto; lia).
      pose proof (read_only_game_state (vx - 1) (vy - 1)
        (Game (grid_set (grid g) (vx - 1) (vy - 1) (mark_of (player g)))
              (negb (player g)))) as R.
      rewrite H in R. exact R.
    + left. unfold place_at in H.
      rewrite (bind_run _ _ _ _ _ (content_cell _ _ _ _ C)) in H.
      destruct (char_eqb_spec c blank); [contradiction|].
      now inversion H.
  - exfalso. unfold content in C. cbn [fst snd] in C.
    unfold place_at, bind in H.
    destruct (cell (vx - 1) (vy - 1) g) as [[c| |] g1]; discriminate.
Qed.

Lemma cells_grid_set gr x y v :
  three_by_three gr -> 0 <= x <= 2 -> 0 <= y <= 2 ->
  Forall is_cell (List.concat gr) -> is_cell v ->
  Forall is_cell (List.concat (grid_set gr x y v)).
Proof.
  intros W Hx Hy F V. nine_cells gr W.
  three_cases x; three_cases y;
    repeat match goal with
    | |- context [List.concat ?t] =>
        let t' := eval cbv in (List.concat t) in
        progress change (List.concat t) with t'
    end;
    cbv [List.concat app] in F;
    rewrite !Forall_cons_iff in F; decompose [and] F;
    repeat (apply Forall_cons; [assumption|]); apply Forall_nil.
Qed.

(** The invariant of play. *)
Definition alternates (g : game) : Prop :=
  three_by_three (grid g) /\
  Forall is_cell (List.concat (grid g)) /\
  count mark_X (List.concat (grid g)) - count mark_O (List.concat (grid g))
    = if player g then 0 else 1.

Lemma alternates_initial_game : alternates initial_game.
Proof.
  split; [exact three_by_three_initial_game|].
  split; [repeat constructor; right; right; reflexivity|reflexivity].
Qed.

Lemma alternates_place_move coordinates g t g' :
  alternates g -> place_move coordinates g = (Ret t, g') -> alternates g'.
Proof.
  intros (W & F & C) H.
  destruct (place_move_state _ _ _ _ W H) as [->|(x & y & Hx & Hy & B & ->)];
    [exact (conj W (conj F C))|].
  destruct g as [gr p]. cbn [grid player] in *.
  split; [now apply three_by_three_grid_set|].
  split; [apply cells_grid_set; auto; destruct p; [left|right; left]; reflexivity|].
  cbn [grid player].
  rewrite !(count_grid_set gr p x y blank) by assumption.
  destruct p; cbn [mark_of negb]; change (char_eqb mark_X mark_X) with true;
    change (char_eqb mark_O mark_O) with true;
    change (char_eqb mark_X mark_O) with false;
    change (char_eqb mark_O mark_X) with false;
    change (char_eqb mark_X blank) with false;
    change (char_eqb mark_O blank) with false; lia.
Qed.

Lemma played_alternates g : played g -> alternates g.
Proof.
  induction 1 as [|coordinates g t g' _ IH H].
  - exact alternates_initial_game.
  - exact (alternates_place_move _ _ _ _ IH H).
Qed.

(** C5.  After every call of [place_move] in a play from the empty board,
    the number of 'X' less the number of 'O' on the board is 0 or 1, and
    it is 0 exactly when 'X' is to move. *)
Theorem marks_alternate (g : game) :
  played g ->
  let s := List.concat (grid g) in
  let d := count mark_X s - count mark_O s in
  (d = 0 \/ d = 1) /\ (d = 0 <-> player g = true).
Proof.
  intros P. destruct (played_alternates g P) as (_ & _ & C). cbv zeta.
  rewrite C. destruct (player g); split; auto; split; auto; discriminate.
Qed.

Lemma upper_cells s : Forall is_cell s -> upper s = s.
Proof.
  induction 1 as [|c s C _ IH]; [reflexivity|].
  unfold upper in *. simpl. rewrite IH.
  now destruct C as [ -> | [ -> | -> ] ].
Qed.

(** C9.  The board string of an instance reached by play from the empty
    board, given back to [TicTacToe] as a preset, builds that same
    instance, grid and player, and prints nothing. *)
Theorem string_grid_round_trip (g : game) :
  played g ->
  forall s, fst (get_string_grid g) = Ret s -> init (Some s) = (g, []).
Proof.
  intros P s E. destruct (played_alternates g P) as (W & F & C).
  destruct g as [gr p]. cbn [grid player] in *.
  unfold get_string_grid in E. cbn [bind get_grid ret fst grid] in E.
  inversion E; subst s; clear E.
  nine_cells gr W. cbv [List.concat app] in F, C |- *.
  unfold init. rewrite (upper_cells _ F).
  pose proof (proj2 (accepted_iff [a; b; c; d; e; f; g; h; i])
                (conj eq_refl F)) as ->.
  rewrite rows_of_nine. f_equal. f_equal.
  destruct p.
  - assert (Q : count mark_X [a; b; c; d; e; f; g; h; i]
              = count mark_O [a; b; c; d; e; f; g; h; i]) by lia.
    rewrite Q, Z.eqb_refl. reflexivity.
  - destruct (Z.eqb_spec (count mark_X [a; b; c; d; e; f; g; h; i])
                         (count mark_O [a; b; c; d; e; f; g; h; i])); [lia|reflexivity].
Qed.

End Alternation.

(** The instance after 'X' has played the centre. *)
Definition centre_played : game :=
  snd (place_move (U := plain_unicode) (lit "2 2") (initial_game (U := plain_unicode))).

Lemma played_centre : played (U := plain_unicode) centre_played.
Proof.
  apply (played_move (lit "2 2") (initial_game (U := plain_unicode)) not_finished);
    [apply played_new|reflexivity].
Qed.

Lemma marks_alternate_witness :
  let s := List.concat (grid centre_played) in
  let d := count mark_X s - count mark_O s in
  (d = 0 \/ d = 1) /\ (d = 0 <-> player centre_played = true).
Proof. exact (@marks_alternate plain_unicode centre_played played_centre). Defined.

Lemma string_grid_round_trip_witness :
  init (U := plain_unicode) (Some (lit "____X____")) = (centre_played, []).
Proof.
  exact (@string_grid_round_trip plain_unicode centre_played played_centre
           (lit "____X____") eq_refl).
Defined.

(** ** Blank cells and the medium strategy *)

(** The nine cells in row-major order, as 1-based (row, column) pairs. *)
Definition all_cells : list (Z * Z) :=
  [(1, 1); (1, 2); (1, 3); (2, 1); (2, 2); (2, 3); (3, 1); (3, 2); (3, 3)].

Definition is_blank_at (g : game) (m : Z * Z) : bool :=
  match content g (fst m - 1, snd m - 1) with
  | Some v => char_eqb v blank
  | None => false
  end.

(** The blank cells in row-major order. *)
Definition blank_cells (g : game) : list (Z * Z) :=
  flat_map (fun m => if is_blank_at g m then [m] else []) all_cells.

Lemma get_blank_coordinates_run g :
  three_by_three (grid g) ->
  get_blank_coordinates g = (Ret (blank_cells g), g).
Proof.
  intros W. destruct g as [gr p]. simpl in W. nine_cells gr W. reflexivity.
Qed.

Lemma blank_cells_in g m :
  In m (blank_cells g) <-> In m all_cells /\ is_blank_at g m = true.
Proof.
  unfold blank_cells. rewrite in_flat_map. split.
  - intros (x & I & H). destruct (is_blank_at g x) eqn:E; [|contradiction].
    destruct H as [<-|[]]. auto.
  - intros [I E]. exists m. rewrite E. split; [auto|now left].
Qed.

(** The cells of a line other than the given one. *)
Definition others (l : list (Z * Z)) (c : Z * Z) : list (Z * Z) :=
  filter (fun d => negb (same_cell c d)) l.

(** Playing the 1-based cell [m] would complete or block a line: the two
    other cells of some line through it hold one and the same mark. *)
Definition qualifies (g : game) (m : Z * Z) : Prop :=
  exists l v,
    In l (lines_through (fst m - 1) (snd m - 1)) /\ v <> blank /\
    Forall (fun c => content g c = Some v) (others l (fst m - 1, snd m - 1)).

Definition qualifiesb (g : game) (m : Z * Z) : bool :=
  existsb
    (fun l =>
       match map (content g) (others l (fst m - 1, snd m - 1)) with
       | [Some u; Some v] => char_eqb u v && negb (char_eqb v blank)
       | _ => false
       end)
    (lines_through (fst m - 1) (snd m - 1)).

(** [m] is the first element of [l] that satisfies [P]. *)
Definition first_such {A} (P : A -> Prop) (l : list A) (m : A) : Prop :=
  exists l1 l2, l = l1 ++ m :: l2 /\ P m /\ Forall (fun x => ~ P x) l1.

Lemma find_first_such {A} (P : A -> Prop) (q : A -> bool) (l : list A) m :
  (forall x, In x l -> (q x = true <-> P x)) ->
  first_such P l m -> find q l = Some m.
Proof.
  intros Q (l1 & l2 & -> & Pm & F).
  induction l1 as [|x l1 IH]; simpl.
  - assert (E : q m = true) by (apply Q; [now left|exact Pm]). now rewrite E.
  - inversion F as [|? ? Nx F1]; subst.
    destruct (q x) eqn:E.
    + exfalso. apply Nx. apply Q; [now left|exact E].
    + apply IH; [|exact F1]. intros y I. apply Q. now right.
Qed.

Lemma find_none_such {A} (P : A -> Prop) (q : A -> bool) (l : list A) :
  (forall x, In x l -> (q x = true <-> P x)) ->
  (forall x, In x l -> ~ P x) -> find q l = None.
Proof.
  intros Q N. induction l as [|x l IH]; [reflexivity|]. simpl.
  destruct (q x) eqn:E.
  - exfalso. apply (N x); [now left|]. apply Q; [now left|exact E].
  - apply IH; intros y I; [apply Q|apply N]; now right.
Qed.

Lemma others_pair m l :
  In m all_cells -> In l (lines_through (fst m - 1) (snd m - 1)) ->
  exists c1 c2, others l (fst m - 1, snd m - 1) = [c1; c2].
Proof.
  intros I L. unfold all_cells in I. simpl in I.
  repeat destruct I as [<-|I]; try contradiction;
    vm_compute in L; repeat destruct L as [<-|L]; try contradiction;
    eexists; eexists; reflexivity.
Qed.

Lemma pair_holds_iff g c1 c2 :
  match map (content g) [c1; c2] with
  | [Some u; Some v] => char_eqb u v && negb (char_eqb v blank)
  | _ => false
  end = true
  <-> exists v, v <> blank /\ Forall (fun c => content g c = Some v) [c1; c2].
Proof.
  simpl. split.
  - destruct (content g c1) as [u|] eqn:E1; [|discriminate].
    destruct (content g c2) as [v|] eqn:E2; [|discriminate].
    destruct (char_eqb_spec u v); [|discriminate].
    destruct (char_eqb_spec v blank); [discriminate|]. intros _. subst.
    exists v. repeat constructor; auto.
  - intros (v & N & F). rewrite !Forall_cons_iff in F.
    destruct F as (-> & -> & _). unfold char_eqb. rewrite N.eqb_refl.
    destruct (N.eqb_spec v blank); [contradiction|reflexivity].
Qed.

Lemma qualifies_iff g m :
  In m all_cells -> (qualifiesb g m = true <-> qualifies g m).
Proof.
  intros I. unfold qualifiesb, qualifies. rewrite existsb_exists. split.
  - intros (l & L & H).
    destruct (others_pair m l I L) as (c1 & c2 & E). rewrite E in H.
    apply pair_holds_iff in H as (v & N & F).
    exists l, v. rewrite E. auto.
  - intros (l & v & L & N & F). exists l. split; [exact L|].
    destruct (others_pair m l I L) as (c1 & c2 & E). rewrite E in *.
    apply pair_holds_iff. now exists v.
Qed.

(** The body of the loop of [get_relevant_coordinates]. *)
Definition relevant_check (coordinates : Z * Z) : M (option (Z * Z)) :=
  let row := fst coordinates - 1 in
  let column := snd coordinates - 1 in
  h <- eq_not_blank (n <- neighbour column ;; cell row (fst n))
                    (n <- neighbour column ;; cell row (snd n)) ;;
  if h then ret (Some coordinates) else
  v <- eq_not_blank (n <- neighbour row ;; cell (fst n) column)
                    (n <- neighbour row ;; cell (snd n) column) ;;
  if v then ret (Some coordinates) else
  d1 <- (if row =? column then
           eq_not_blank
             (n <- neighbour row ;; m <- neighbour column ;; cell (fst n) (fst m))
             (n <- neighbour row ;; m <- neighbour column ;; cell (snd n) (snd m))
         else ret false) ;;
  if d1 then ret (Some coordinates) else
  d2 <- (if row + column =? 2 then
           eq_not_blank
             (n <- neighbour row ;; m <- neighbour column ;; cell (fst n) (snd m))
             (n <- neighbour row ;; m <- neighbour column ;; cell (snd n) (fst m))
         else ret false) ;;
  if d2 then ret (Some coordinates) else ret None.

Lemma get_relevant_coordinates_unfold r :
  get_relevant_coordinates r =
  (blank_coordinates <- get_blank_coordinates ;;
   found <- for_return blank_coordinates relevant_check ;;
   match found with
   | Some coordinates => ret coordinates
   | None => or_raise IndexError (choice r blank_coordinates)
   end).
Proof. reflexivity. Qed.

Ltac run_cells :=
  repeat first
    [ run_step
    | match goal with
      | |- context [char_eqb ?a ?b] =>
          destruct (char_eqb_spec a b); subst; try congruence
      end ].

Lemma relevant_check_run g m :
  three_by_three (grid g) -> In m all_cells ->
  relevant_check m g = (Ret (if qualifiesb g m then Some m else None), g).
Proof.
  intros W I. destruct g as [gr p]. simpl in W. nine_cells gr W.
  unfold all_cells in I. simpl in I.
  repeat destruct I as [<-|I]; try contradiction;
  match goal with
  | |- _ = (Ret (if ?w then _ else _), _) =>
      let w' := eval cbv -[char_eqb blank] in w in change w with w'
  end;
  unfold relevant_check;
  cbn [fst snd Z.sub Z.add Z.opp Z.pos_sub Pos.pred_double Z.succ_double
       Z.double Z.eqb Pos.eqb Pos.add Pos.succ];
  run_cells; reflexivity.
Qed.

Lemma for_return_find {A} (l : list A) (body : A -> M (option A)) (q : A -> bool) g :
  (forall x, In x l -> body x g = (Ret (if q x then Some x else None), g)) ->
  for_return l body g = (Ret (find q l), g).
Proof.
  induction l as [|x l IH]; intros H; [reflexivity|].
  simpl. rewrite (bind_run _ _ _ _ _ (H x (or_introl eq_refl))).
  destruct (q x); [reflexivity|]. apply IH. intros y I. apply H. now right.
Qed.

Lemma get_random_coordinates_run r g :
  three_by_three (grid g) ->
  get_random_coordinates r g = or_raise IndexError (choice r (blank_cells g)) g.
Proof.
  intros W. unfold get_random_coordinates.
  now rewrite (bind_run _ _ _ _ _ (get_blank_coordinates_run g W)).
Qed.

Lemma get_relevant_coordinates_run r g :
  three_by_three (grid g) ->
  get_relevant_coordinates r g =
  match find (qualifiesb g) (blank_cells g) with
  | Some m => (Ret m, g)
  | None => get_random_coordinates r g
  end.
Proof.
  intros W. rewrite get_relevant_coordinates_unfold.
  rewrite (bind_run _ _ _ _ _ (get_blank_coordinates_run g W)).
  rewrite (bind_run _ _ g _ g (for_return_find _ _ (qualifiesb g) g
             (fun x I => relevant_check_run g x W (proj1 (proj1 (blank_cells_in g x) I))))).
  destruct (find (qualifiesb g) (blank_cells g)); [reflexivity|].
  now rewrite get_random_coordinates_run.
Qed.

Section Relevant.
Context {U : UnicodeData}.

(** C6.  On a three-by-three board, [get_relevant_coordinates] returns the
    first blank cell, in row-major order, such that the two other cells of
    a line through it hold one and the same mark, whichever; when no blank
    cell is such, it does what [get_random_coordinates] does; and on the
    preset "X_XO_O___", where 'X' is to move, it returns (1, 2). *)
Theorem get_relevant_coordinates_first (r : nat) (g : game) :
  three_by_three (grid g) ->
  (forall m, first_such (qualifies g) (blank_cells g) m ->
     get_relevant_coordinates r g = (Ret m, g)) /\
  ((forall m, In m (blank_cells g) -> ~ qualifies g m) ->
     get_relevant_coordinates r g = get_random_coordinates r g) /\
  (let preset := fst (init (Some (lit "X_XO_O___"))) in
   player preset = true /\
   get_relevant_coordinates r preset = (Ret (1, 2), preset)).
Proof.
  intros W.
  assert (Q : forall x, In x (blank_cells g) ->
                (qualifiesb g x = true <-> qualifies g x)).
  { intros x I. apply qualifies_iff. now apply blank_cells_in in I. }
  split; [|split].
  - intros m F. rewrite (get_relevant_coordinates_run r g W).
    now rewrite (find_first_such _ _ _ _ Q F).
  - intros N. rewrite (get_relevant_coordinates_run r g W).
    now rewrite (find_none_such _ _ _ Q N).
  - split; reflexivity.
Qed.

End Relevant.

(** A board on which the medium strategy blocks: the first blank cell of
    the first row completes nothing, the second one faces two 'O'. *)
Definition two_in_column : game :=
  Game [[blank; blank; mark_X]; [mark_X; mark_O; blank]; [blank; mark_O; blank]]
       true.

Lemma get_relevant_coordinates_first_witness :
  get_relevant_coordinates 0 two_in_column = (Ret (1, 2), two_in_column).
Proof.
  refine (proj1 (get_relevant_coordinates_first (U := plain_unicode) 0 two_in_column _)
            (1, 2) _).
  - split; [reflexivity|repeat constructor].
  - exists [(1, 1)], [(2, 3); (3, 1); (3, 3)]. split; [reflexivity|]. split.
    + apply qualifies_iff; [simpl; tauto|reflexivity].
    + constructor; [|constructor]. intros H.
      apply qualifies_iff in H; [discriminate|simpl; tauto].
Defined.

(** ** The search on the board string

    A second model of the search, for the proofs: the board is its
    nine-character string, a cell its position in it, and a move needs no
    undoing.  [score_run], [best_run] and [self_play_run] below show that
    [min_max_algorithm], [get_best_coordinates] and [play] return what
    [score], [best] and [self_play] return. *)

(** The instance whose board string is [s]. *)
Definition board (s : str) (p : bool) : game :=
  Game (map (fun k => slice (3 * k) (3 * k + 3) s) [0; 1; 2]%nat) p.

(** The coordinates of the cell at a position of the board string. *)
Definition coords (k : nat) : Z * Z := nth k all_cells (0, 0).

(** The positions of the blank cells, in order, from position [k] on. *)
Fixpoint blanks_from (k : nat) (s : str) : list nat :=
  match s with
  | [] => []
  | c :: s' =>
      if char_eqb c blank then k :: blanks_from (S k) s' else blanks_from (S k) s'
  end.

Definition blanks (s : str) : list nat := blanks_from 0 s.

Definition same3 (a b c : char) : bool := char_eqb a b && char_eqb b c.

(** Some line through position [k] holds three equal characters. *)
Definition line_through (s : str) (k : nat) : bool :=
  match s with
  | [a; b; c; d; e; f; g; h; i] =>
      match k with
      | 0 => same3 a d g || same3 a b c || same3 a e i
      | 1 => same3 b e h || same3 a b c
      | 2 => same3 c f i || same3 a b c || same3 c e g
      | 3 => same3 a d g || same3 d e f
      | 4 => same3 b e h || same3 d e f || same3 a e i || same3 c e g
      | 5 => same3 c f i || same3 d e f
      | 6 => same3 a d g || same3 g h i || same3 c e g
      | 7 => same3 b e h || same3 g h i
      | 8 => same3 c f i || same3 g h i || same3 a e i
      | _ => false
      end%nat
  | _ => false
  end.

(** The tag of the position [s] reached by the move of [p] at [k]. *)
Definition result (s : str) (p : bool) (k : nat) : tag :=
  if line_through s k then tag_of p
  else if existsb (char_eqb blank) s then not_finished else draw.

(** [for x in l], every call returning. *)
Fixpoint collect {A B} (f : A -> option B) (l : list A) : option (list B) :=
  match l with
  | [] => Some []
  | x :: l' =>
      match f x with
      | Some b => match collect f l' with Some bs => Some (b :: bs) | None => None end
      | None => None
      end
  end.

Fixpoint score (depth : nat) (s : str) (p : bool) (move_result computer_player : tag)
    (maximizing : bool) : option Z :=
  match depth with
  | O => None
  | S depth' =>
      if tag_eqb move_result draw then Some 0
      else if negb (tag_eqb move_result not_finished) then
        Some (if tag_eqb computer_player move_result then 1 else -1)
      else
        match collect (fun k =>
                let s' := update s k (mark_of p) in
                score depth' s' (negb p) (result s' p k) computer_player
                      (negb maximizing)) (blanks s) with
        | Some scores => if maximizing then max scores else min scores
        | None => None
        end
  end.

Fixpoint best_from (depth : nat) (s : str) (p : bool) (l : list nat)
    (best : option Z * option (Z * Z)) : option (option Z * option (Z * Z)) :=
  match l with
  | [] => Some best
  | k :: l' =>
      let s' := update s k (mark_of p) in
      match score depth s' (negb p) (result s' p k) (tag_of p) false with
      | Some v =>
          best_from depth s p l'
            (if exceeds v (fst best) then (Some v, Some (coords k)) else best)
      | None => None
      end
  end.

Definition best (depth : nat) (s : str) (p : bool) : option (option (Z * Z)) :=
  match best_from depth s p (blanks s) (None, None) with
  | Some b => Some (snd b)
  | None => None
  end.

(** The position of the cell with the given coordinates. *)
Definition position_of (m : Z * Z) : nat :=
  Z.to_nat (3 * (fst m - 1) + (snd m - 1)).

(** The game of the hard strategy against itself. *)
Fixpoint self_play (fuel depth : nat) (s : str) (p : bool) : option tag :=
  match fuel with
  | O => None
  | S fuel' =>
      match best depth s p with
      | Some (Some m) =>
          let k := position_of m in
          let s' := update s k (mark_of p) in
          match result s' p k with
          | not_finished => self_play fuel' depth s' (negb p)
          | t => Some t
          end
      | _ => None
      end
  end.

Definition nine_blanks : str := List.concat empty_grid.

(** *** The two models of the board *)

Lemma nine_chars (s : str) :
  List.length s = 9%nat -> exists a b c d e f g h i, s = [a; b; c; d; e; f; g; h; i].
Proof.
  intros L.
  destruct s as [|a [|b [|c [|d [|e [|f [|g [|h [|i [|j s]]]]]]]]]];
    try discriminate L.
  now exists a, b, c, d, e, f, g, h, i.
Qed.

Ltac nine_of s L :=
  let a := fresh "a" in let b := fresh "b" in let c := fresh "c" in
  let d := fresh "d" in let e := fresh "e" in let f := fresh "f" in
  let g := fresh "g" in let h := fresh "h" in let i := fresh "i" in
  destruct (nine_chars s L) as (a & b & c & d & e & f & g & h & i & ->);
  clear L.

Lemma board_of_grid g :
  three_by_three (grid g) -> g = board (List.concat (grid g)) (player g).
Proof.
  intros W. destruct g as [gr p]. simpl in W. nine_cells gr W. reflexivity.
Qed.

Lemma length_concat_grid gr :
  three_by_three gr -> List.length (List.concat gr) = 9%nat.
Proof. intros W. nine_cells gr W. reflexivity. Qed.

Lemma three_by_three_board s p :
  List.length s = 9%nat -> three_by_three (grid (board s p)).
Proof.
  intros L. nine_of s L. split; [reflexivity|repeat constructor].
Qed.

Lemma length_update {A} (l : list A) k v :
  List.length (update l k v) = List.length l.
Proof.
  revert k. induction l as [|x l IH]; intros [|k]; simpl; auto.
Qed.

Lemma blanks_from_in n s k :
  In k (blanks_from n s) <->
  (n <= k < n + List.length s)%nat /\ nth (k - n) s 0%N = blank.
Proof.
  revert n. induction s as [|c s IH]; intros n; simpl.
  - split; [contradiction|lia].
  - destruct (char_eqb_spec c blank) as [->|N].
    + simpl. rewrite IH. split.
      * intros [<-|[R E]].
        -- rewrite Nat.sub_diag. split; [lia|reflexivity].
        -- split; [lia|]. replace (k - n)%nat with (S (k - S n)) by lia. exact E.
      * intros [R E]. destruct (Nat.eq_dec n k) as [->|D]; [now left|right].
        split; [lia|]. replace (k - n)%nat with (S (k - S n)) in E by lia. exact E.
    + rewrite IH. split.
      * intros [R E]. split; [lia|].
        replace (k - n)%nat with (S (k - S n)) by lia. exact E.
      * intros [R E]. destruct (Nat.eq_dec n k) as [->|D].
        -- rewrite Nat.sub_diag in E. contradiction.
        -- split; [lia|]. replace (k - n)%nat with (S (k - S n)) in E by lia. exact E.
Qed.

Lemma blanks_in s k :
  In k (blanks s) <-> (k < List.length s)%nat /\ nth k s 0%N = blank.
Proof.
  unfold blanks. rewrite blanks_from_in, Nat.sub_0_r. intuition lia.
Qed.

Lemma blank_cells_board s p :
  List.length s = 9%nat -> blank_cells (board s p) = map coords (blanks s).
Proof.
  intros L. nine_of s L.
  cbv -[char_eqb blank]. cases_on_cells; reflexivity.
Qed.

Lemma count_update c s k v :
  (k < List.length s)%nat ->
  count c (update s k v) =
  count c s + (if char_eqb c v then 1 else 0)
            - (if char_eqb c (nth k s 0%N) then 1 else 0).
Proof.
  revert k. induction s as [|x s IH]; intros k L; [simpl in L; lia|].
  destruct k as [|k]; simpl update; simpl nth; rewrite !count_cons.
  - ring.
  - rewrite IH by (simpl in L; lia). ring.
Qed.

Lemma existsb_count c s :
  existsb (char_eqb c) s = negb (count c s =? 0).
Proof.
  induction s as [|x s IH]; [reflexivity|].
  rewrite count_cons. cbn [existsb]. rewrite IH. pose proof (count_nonneg c s).
  destruct (char_eqb c x); cbn [orb].
  - destruct (Z.eqb_spec (1 + count c s) 0); [lia|reflexivity].
  - now rewrite Z.add_0_l.
Qed.

Lemma blanks_nil_iff s : blanks s = [] <-> count blank s = 0.
Proof.
  rewrite count_zero_iff. split.
  - intros E I. apply In_nth with (d := 0%N) in I as (k & L & N).
    assert (B : In k (blanks s)) by (apply blanks_in; auto).
    rewrite E in B. contradiction.
  - intros N. destruct (blanks s) as [|k l] eqn:E; [reflexivity|].
    exfalso. assert (B : In k (blanks s)) by (rewrite E; now left).
    apply blanks_in in B as [L B]. apply N. rewrite <- B. now apply nth_In.
Qed.

(** *** The methods on the board of a string *)

Lemma get_blank_coordinates_board s p :
  List.length s = 9%nat ->
  get_blank_coordinates (board s p) = (Ret (map coords (blanks s)), board s p).
Proof.
  intros L. rewrite get_blank_coordinates_run by now apply three_by_three_board.
  now rewrite blank_cells_board.
Qed.

Lemma for_each_map {A B C} (h : A -> B) (l : list A) (body : B -> M C) :
  for_each (map h l) body = for_each l (fun x => body (h x)).
Proof. induction l as [|x l IH]; simpl; [reflexivity|now rewrite IH]. Qed.

Lemma for_fold_map {A B C} (h : A -> B) (l : list A) (acc : C) (body : C -> B -> M C) g :
  for_fold (map h l) acc body g = for_fold l acc (fun a x => body a (h x)) g.
Proof.
  revert acc g. induction l as [|x l IH]; intros acc g; simpl; [reflexivity|].
  unfold bind. destruct (body acc (h x) g) as [[a| |] g']; auto.
Qed.

Lemma for_each_collect {A} (body : A -> M Z) (f : A -> option Z) l g vs :
  (forall x v, In x l -> f x = Some v -> body x g = (Ret v, g)) ->
  collect f l = Some vs -> for_each l body g = (Ret vs, g).
Proof.
  revert vs. induction l as [|x l IH]; intros vs H C; simpl in *.
  - now inversion C.
  - destruct (f x) as [v|] eqn:E; [|discriminate].
    destruct (collect f l) as [bs|] eqn:E'; [|discriminate].
    inversion C; subst; clear C.
    rewrite (bind_run _ _ _ _ _ (H x v (or_introl eq_refl) E)).
    rewrite (bind_run _ _ _ _ _ (IH bs (fun y w I => H y w (or_intror I)) eq_refl)).
    reflexivity.
Qed.

Section Refinement.
Context {U : UnicodeData}.

(** [place_move], past the reading of the text, on a blank cell. *)
Lemma place_at_board s p k :
  List.length s = 9%nat -> In k (blanks s) ->
  place_at (fst (coords k) - 1) (snd (coords k) - 1) (board s p) =
    (Ret (result (update s k (mark_of p)) p k),
     board (update s k (mark_of p)) (negb p)).
Proof.
  intros L I. apply blanks_in in I as [K B]. nine_of s L. simpl in K.
  do 9 (destruct k as [|k];
    [ simpl in B; subst;
      match goal with
      | |- context [coords ?n] =>
          let m := eval cbv in (coords n) in change (coords n) with m
      end;
      cbn [fst snd Z.sub Z.add Z.opp Z.pos_sub Pos.pred_double Z.succ_double
           Z.double];
      rewrite place_at_run;
        [|apply three_by_three_board; reflexivity|lia|lia|reflexivity];
      erewrite game_state_eq;
        [|apply three_by_three_grid_set;
          [apply three_by_three_board; reflexivity|lia|lia]
         |lia|lia|reflexivity|destruct p; discriminate];
      apply f_equal2; [apply f_equal|destruct p; reflexivity];
      unfold result; rewrite existsb_count;
      destruct p; cbv -[char_eqb count]; cases_on_cells; reflexivity
    | ]).
  lia.
Qed.

Lemma coords_in_range k :
  (k < 9)%nat -> 1 <= fst (coords k) <= 3 /\ 1 <= snd (coords k) <= 3.
Proof.
  intros K. do 9 (destruct k as [|k]; [cbv; intuition discriminate|]). lia.
Qed.

(** A move on a blank cell, and its undoing. *)
Lemma move_run s p k :
  List.length s = 9%nat -> In k (blanks s) ->
  place_move (format (coords k)) (board s p) =
    (Ret (result (update s k (mark_of p)) p k),
     board (update s k (mark_of p)) (negb p)) /\
  undo_move (coords k) (board (update s k (mark_of p)) (negb p)) =
    (Ret tt, board s p).
Proof.
  intros L I.
  assert (K : (k < 9)%nat) by (apply blanks_in in I; lia).
  destruct (coords_in_range k K) as [R C]. split.
  - destruct (coords k) as [r c] eqn:E. cbn [fst snd] in R, C.
    rewrite (place_move_denoted _ r c (format_denotes r c R C)).
    assert (Q : in_range (r - 1) (c - 1) = true) by (apply in_range_iff; lia).
    rewrite Q. pose proof (place_at_board s p k L I) as P.
    rewrite E in P. exact P.
  - apply blanks_in in I as [_ B].
    destruct (coords k) as [r c] eqn:E. cbn [fst snd] in R, C.
    rewrite undo_move_run;
      [|apply three_by_three_board; now rewrite length_update|lia|lia].
    clear R C. nine_of s L.
    do 9 (destruct k as [|k];
      [ simpl in B; subst; cbv in E; inversion E; subst;
        destruct p; reflexivity | ]).
    lia.
Qed.

Lemma min_max_algorithm_unfold depth move_result computer_player maximizing :
  min_max_algorithm (S depth) move_result computer_player maximizing =
  if tag_eqb move_result draw then ret 0
  else if negb (tag_eqb move_result not_finished) then
    ret (if tag_eqb computer_player move_result then 1 else -1)
  else
    blank_coordinates <- get_blank_coordinates ;;
    scores <- for_each blank_coordinates (fun coordinates =>
      move_result <- place_move (format coordinates) ;;
      s <- min_max_algorithm depth move_result computer_player (negb maximizing) ;;
      undo_move coordinates ;;;
      ret s) ;;
    or_raise ValueError (if maximizing then max scores else min scores).
Proof. reflexivity. Qed.

(** The search of the source returns what the search on the string
    returns, and leaves the board as it found it. *)
Lemma score_run depth :
  forall s p move_result computer_player maximizing v,
  List.length s = 9%nat ->
  score depth s p move_result computer_player maximizing = Some v ->
  min_max_algorithm depth move_result computer_player maximizing (board s p)
  = (Ret v, board s p).
Proof.
  induction depth as [|depth IH]; intros s p r c mx v L H; [discriminate|].
  rewrite min_max_algorithm_unfold. simpl in H.
  destruct (tag_eqb r draw); [now inversion H|].
  destruct (negb (tag_eqb r not_finished)); [now inversion H|].
  destruct (collect _ (blanks s)) as [scores|] eqn:C; [|discriminate].
  rewrite (bind_run _ _ _ _ _ (get_blank_coordinates_board s p L)).
  rewrite for_each_map.
  erewrite (bind_run (for_each _ _)).
  2:{ apply (for_each_collect _ _ _ _ _) with (2 := C).
      intros k w I E. cbv beta in E.
      destruct (move_run s p k L I) as [P Un].
      rewrite (bind_run _ _ _ _ _ P).
      assert (LU : List.length (update s k (mark_of p)) = 9%nat)
        by now rewrite length_update.
      rewrite (bind_run _ _ _ _ _ (IH _ _ _ _ _ _ LU E)).
      now rewrite (bind_run _ _ _ _ _ Un). }
  now rewrite H.
Qed.

End Refinement.

Section BestRefinement.
Context {U : UnicodeData}.

Lemma get_best_coordinates_unfold depth g :
  get_best_coordinates depth g =
  (blank_coordinates <- get_blank_coordinates ;;
   best <- for_fold blank_coordinates (None, None)
     (fun (best : option Z * option (Z * Z)) coordinates =>
       move_result <- place_move (format coordinates) ;;
       score <- min_max_algorithm depth move_result (tag_of (player g)) false ;;
       undo_move coordinates ;;;
       if exceeds score (fst best) then ret (Some score, Some coordinates)
       else ret best) ;;
   ret (snd best)) g.
Proof. reflexivity. Qed.

Lemma best_from_run depth s p l :
  List.length s = 9%nat -> (forall k, In k l -> In k (blanks s)) ->
  forall best r,
  best_from depth s p l best = Some r ->
  for_fold l best
    (fun (best : option Z * option (Z * Z)) k =>
       move_result <- place_move (format (coords k)) ;;
       score <- min_max_algorithm depth move_result (tag_of p) false ;;
       undo_move (coords k) ;;;
       if exceeds score (fst best) then ret (Some score, Some (coords k))
       else ret best) (board s p)
  = (Ret r, board s p).
Proof.
  intros L. induction l as [|k l IH]; intros I best r H; simpl in *.
  - now inversion H.
  - destruct (score depth _ _ _ _ _) as [v|] eqn:E; [|discriminate].
    destruct (move_run s p k L (I k (or_introl eq_refl))) as [P Un].
    assert (LU : List.length (update s k (mark_of p)) = 9%nat)
      by now rewrite length_update.
    rewrite (bind_run (bind _ _) _ (board s p)
               (if exceeds v (fst best) then (Some v, Some (coords k)) else best)
               (board s p)).
    + apply IH; auto.
    + rewrite (bind_run _ _ _ _ _ P).
      rewrite (bind_run _ _ _ _ _ (score_run _ _ _ _ _ _ _ LU E)).
      rewrite (bind_run _ _ _ _ _ Un).
      now destruct (exceeds v (fst best)).
Qed.

(** [get_best_coordinates] returns what the search on the string returns
    and gives the board back as it found it. *)
Lemma best_run depth s p r :
  List.length s = 9%nat -> best depth s p = Some r ->
  get_best_coordinates depth (board s p) = (Ret r, board s p).
Proof.
  intros L H. unfold best in H.
  destruct (best_from depth s p (blanks s) (None, None)) as [b|] eqn:E;
    [|discriminate].
  inversion H; subst; clear H. rewrite get_best_coordinates_unfold.
  rewrite (bind_run _ _ _ _ _ (get_blank_coordinates_board s p L)).
  cbv beta. erewrite (bind_run (for_fold _ _ _)); [reflexivity|].
  rewrite for_fold_map. cbn [player board].
  exact (best_from_run depth s p _ L (fun k I => I) _ _ E).
Qed.

End BestRefinement.

(** *** More depth changes nothing *)

Lemma collect_ext {A B} (f f' : A -> option B) l vs :
  (forall x v, In x l -> f x = Some v -> f' x = Some v) ->
  collect f l = Some vs -> collect f' l = Some vs.
Proof.
  revert vs. induction l as [|x l IH]; intros vs H C; simpl in *; [exact C|].
  destruct (f x) as [v|] eqn:E; [|discriminate].
  destruct (collect f l) as [bs|] eqn:E'; [|discriminate].
  rewrite (H x v (or_introl eq_refl) E).
  now rewrite (IH bs (fun y w I => H y w (or_intror I)) eq_refl).
Qed.

Lemma score_deeper depth :
  forall depth' s p r c mx v, (depth <= depth')%nat ->
  score depth s p r c mx = Some v -> score depth' s p r c mx = Some v.
Proof.
  induction depth as [|depth IH]; intros depth' s p r c mx v D H; [discriminate|].
  destruct depth' as [|depth']; [lia|]. simpl in *.
  destruct (tag_eqb r draw); [exact H|].
  destruct (negb (tag_eqb r not_finished)); [exact H|].
  destruct (collect _ (blanks s)) as [scores|] eqn:C; [|discriminate].
  erewrite collect_ext; [exact H| |exact C].
  intros k w _ E. apply (IH depth'); [lia|exact E].
Qed.

Lemma best_from_deeper depth depth' s p l :
  (depth <= depth')%nat -> forall b r,
  best_from depth s p l b = Some r -> best_from depth' s p l b = Some r.
Proof.
  intros D. induction l as [|k l IH]; intros b r H; simpl in *; [exact H|].
  destruct (score depth _ _ _ _ _) as [v|] eqn:E; [|discriminate].
  rewrite (score_deeper _ _ _ _ _ _ _ _ D E). now apply IH.
Qed.

Lemma best_deeper depth depth' s p r :
  (depth <= depth')%nat -> best depth s p = Some r -> best depth' s p = Some r.
Proof.
  intros D. unfold best.
  destruct (best_from depth s p (blanks s) (None, None)) as [b|] eqn:E;
    [|discriminate].
  now rewrite (best_from_deeper _ _ _ _ _ D _ _ E).
Qed.

Lemma self_play_longer fuel :
  forall fuel' depth depth' s p t,
  (fuel <= fuel')%nat -> (depth <= depth')%nat ->
  self_play fuel depth s p = Some t -> self_play fuel' depth' s p = Some t.
Proof.
  induction fuel as [|fuel IH]; intros fuel' depth depth' s p t F D H;
    [discriminate|].
  destruct fuel' as [|fuel']; [lia|]. simpl in *.
  destruct (best depth s p) as [[m|]|] eqn:E; try discriminate.
  rewrite (best_deeper _ _ _ _ _ D E).
  destruct (result _ p _); try exact H.
  apply (IH fuel' depth); auto; lia.
Qed.

(** *** The game loop with the hard strategy on both sides *)

Lemma best_from_in depth s p l :
  forall b r, best_from depth s p l b = Some r ->
  snd r = snd b \/ exists k, In k l /\ snd r = Some (coords k).
Proof.
  induction l as [|k l IH]; intros b r H; simpl in *.
  - inversion H. now left.
  - destruct (score depth _ _ _ _ _) as [v|]; [|discriminate].
    destruct (IH _ _ H) as [E|(k' & I & E)].
    + destruct (exceeds v (fst b)); [right; exists k|left]; auto.
    + right. exists k'. auto.
Qed.

Lemma best_in depth s p m :
  best depth s p = Some (Some m) -> exists k, In k (blanks s) /\ m = coords k.
Proof.
  unfold best.
  destruct (best_from depth s p (blanks s) (None, None)) as [b|] eqn:E;
    [|discriminate].
  intros H. inversion H as [H1]; clear H.
  destruct (best_from_in _ _ _ _ _ _ E) as [Q|(k & I & Q)];
    rewrite H1 in Q; [discriminate|].
  exists k. split; [exact I|congruence].
Qed.

Lemma position_of_coords k : (k < 9)%nat -> position_of (coords k) = k.
Proof. intros K. do 9 (destruct k as [|k]; [reflexivity|]). lia. Qed.

Lemma result_cases s p k :
  result s p k = tag_of p \/ result s p k = draw \/ result s p k = not_finished.
Proof.
  unfold result. destruct (line_through s k); auto.
  destruct (existsb _ s); auto.
Qed.

Section PlayRefinement.
Context {U : UnicodeData}.

Lemma play_unfold fuel depth x_player o_player input draws k :
  play (S fuel) depth x_player o_player input draws k =
  (turn_player <- get_turn_player ;;
   move_result <-
     (if (str_eqb x_player (lit "user") && tag_eqb turn_player tag_X) ||
         (str_eqb o_player (lit "user") && tag_eqb turn_player tag_O)
      then place_move (input k)
      else
        let auto_move_difficulty :=
          if tag_eqb turn_player tag_X then x_player else o_player in
        coordinates <- get_coordinates depth (draws k) auto_move_difficulty ;;
        place_move coordinates) ;;
   match move_result with
   | draw | tag_X | tag_O => ret move_result
   | _ => play fuel depth x_player o_player input draws (S k)
   end).
Proof. reflexivity. Qed.

Lemma get_coordinates_hard depth r :
  get_coordinates depth r (lit "hard") =
  (best_coordinates <- get_best_coordinates depth ;;
   best_coordinates <- or_raise TypeError best_coordinates ;;
   ret (format best_coordinates)).
Proof. reflexivity. Qed.

Lemma self_play_run fuel :
  forall depth s p t input draws k,
  List.length s = 9%nat -> self_play fuel depth s p = Some t ->
  fst (play fuel depth (lit "hard") (lit "hard") input draws k (board s p)) = Ret t.
Proof.
  induction fuel as [|fuel IH]; intros depth s p t input draws k L H;
    [discriminate|].
  simpl in H. destruct (best depth s p) as [[m|]|] eqn:B; try discriminate.
  destruct (best_in _ _ _ _ B) as (k0 & I & ->).
  assert (K : (k0 < 9)%nat) by (apply blanks_in in I; lia).
  rewrite (position_of_coords k0 K) in H.
  rewrite play_unfold.
  rewrite (bind_run get_turn_player _ (board s p) (tag_of p) (board s p) eq_refl).
  change (str_eqb (lit "hard") (lit "user")) with false. cbn [andb orb].
  cbv zeta.
  assert (G : get_coordinates depth (draws k)
                (if tag_eqb (tag_of p) tag_X then lit "hard" else lit "hard")
                (board s p) = (Ret (format (coords k0)), board s p)).
  { destruct (tag_eqb (tag_of p) tag_X); rewrite get_coordinates_hard;
      now rewrite (bind_run _ _ _ _ _ (best_run _ _ _ _ L B)). }
  destruct (move_run s p k0 L I) as [P _].
  erewrite (bind_run (bind _ _)).
  2:{ rewrite (bind_run _ _ _ _ _ G). exact P. }
  assert (LU : List.length (update s k0 (mark_of p)) = 9%nat)
    by now rewrite length_update.
  destruct (result_cases (update s k0 (mark_of p)) p k0) as [E|[E|E]];
    rewrite E in *.
  - destruct p; now inversion H.
  - now inversion H.
  - now apply IH.
Qed.

End PlayRefinement.

(** ** The game and its forced wins *)

Section Game.
Context {U : UnicodeData}.

(** A move: a call of [place_move] that is not rejected.  It answers with
    the tag [t] of the position reached and leaves the instance [g']. *)
Definition move (g : game) (t : tag) (g' : game) : Prop :=
  exists coordinates,
    place_move coordinates g = (Ret t, g') /\ is_result t = true.

(** Player [q] wins from [g] whatever the opponent does: on the own turn
    some move wins at once or leads to a position won by force, on the
    opponent's turn every move does not end the game and leads to
    such a position. *)
Inductive forces_win (q : bool) : game -> Prop :=
| fw_win g g' :
    player g = q -> move g (tag_of q) g' -> forces_win q g
| fw_move g g' :
    player g = q -> move g not_finished g' -> forces_win q g' ->
    forces_win q g
| fw_reply g :
    player g = negb q -> (exists t g', move g t g') ->
    (forall t g', move g t g' -> t = not_finished) ->
    (forall t g', move g t g' -> forces_win q g') ->
    forces_win q g.

(** After a move that answered [t] and left [g'], player [q] has won or
    wins by force. *)
Definition wins (q : bool) (t : tag) (g' : game) : Prop :=
  t = tag_of q \/ (t = not_finished /\ forces_win q g').

Lemma tag_of_negb q : tag_of q <> tag_of (negb q).
Proof. now destruct q. Qed.

Lemma forces_win_exclusive q g :
  forces_win q g -> forces_win (negb q) g -> False.
Proof.
  induction 1 as [g g' P M|g g' P M _ IH|g P E N _ IH]; intros H;
    inversion H as [h h' P' M'|h h' P' M' F'|h P' E' N' F']; subst.
  - destruct (player g); discriminate.
  - destruct (player g); discriminate.
  - apply N' in M. now destruct (player g).
  - destruct (player g); discriminate.
  - destruct (player g); discriminate.
  - exact (IH (F' _ _ M)).
  - apply N in M'. now destruct q.
  - exact (IH _ _ M' F').
  - rewrite negb_involutive in P'. rewrite P' in P. now destruct q.
Qed.

Lemma wins_exclusive q t g : wins q t g -> wins (negb q) t g -> False.
Proof.
  intros [->|[-> F]] [E|[E F']].
  - exact (tag_of_negb q E).
  - now destruct q.
  - now destruct q.
  - exact (forces_win_exclusive q g F F').
Qed.

Lemma place_at_blank_cell s p x y t g' :
  List.length s = 9%nat -> 0 <= x <= 2 -> 0 <= y <= 2 ->
  place_at x y (board s p) = (Ret t, g') -> is_result t = true ->
  exists k, In k (blanks s) /\ coords k = (x + 1, y + 1).
Proof.
  intros L Hx Hy H R. nine_of s L.
  three_cases x; three_cases y;
    unfold place_at in H;
    erewrite (bind_run (cell _ _)) in H by reflexivity;
    match type of H with
    | context [char_eqb ?v blank] =>
        destruct (char_eqb_spec v blank) as [->|];
          [|inversion H; subst; discriminate]
    end;
    match goal with
    | |- exists k, _ /\ _ = (?x + 1, ?y + 1) =>
        let k := eval cbv in (Z.to_nat (3 * x + y)) in
        exists k; split; [apply blanks_in; split; [simpl; lia|reflexivity]
                         |reflexivity]
    end.
Qed.

(** The moves on the board of a string. *)
Lemma move_board s p t g' :
  List.length s = 9%nat ->
  (move (board s p) t g' <->
   exists k, In k (blanks s) /\
     t = result (update s k (mark_of p)) p k /\
     g' = board (update s k (mark_of p)) (negb p)).
Proof.
  intros L. split.
  - intros (coordinates & H & R). rewrite place_move_unfold in H.
    destruct (split coordinates) as [|tx [|ty [|tz l]]];
      try (inversion H; subst; discriminate).
    destruct (negb (isdigit tx) || negb (isdigit ty));
      [inversion H; subst; discriminate|].
    destruct (int tx) as [vx|]; [|discriminate].
    destruct (int ty) as [vy|]; [|discriminate].
    cbn [or_raise bind ret] in H.
    destruct (in_range (vx - 1) (vy - 1)) eqn:Q;
      [|inversion H; subst; discriminate].
    apply in_range_iff in Q. destruct Q as [Hx Hy].
    destruct (place_at_blank_cell s p _ _ t g' L Hx Hy H R) as (k & I & E).
    exists k. split; [exact I|].
    pose proof (place_at_board s p k L I) as P. rewrite E in P.
    cbn [fst snd] in P.
    replace (vx - 1 + 1 - 1) with (vx - 1) in P by lia.
    replace (vy - 1 + 1 - 1) with (vy - 1) in P by lia.
    rewrite P in H. now inversion H.
  - intros (k & I & -> & ->). exists (format (coords k)). split.
    + apply (move_run s p k L I).
    + destruct (result_cases (update s k (mark_of p)) p k) as [E|[E|E]];
        rewrite E; [now destruct p|reflexivity|reflexivity].
Qed.

End Game.

(** ** The value the search computes *)

Lemma fold_max_spec l : forall x,
  let v := fold_left Z.max l x in
  (v = x \/ In v l) /\ x <= v /\ forall w, In w l -> w <= v.
Proof.
  induction l as [|y l IH]; intros x; simpl.
  - split; [now left|]. split; [lia|contradiction].
  - destruct (IH (Z.max x y)) as ([E|I] & Le & All).
    + split; [|split].
      * destruct (Z.max_spec x y) as [[_ M]|[_ M]]; rewrite E, M; auto.
      * lia.
      * intros w [<-|I]; [lia|auto].
    + split; [auto|]. split; [lia|]. intros w [<-|I']; [lia|auto].
Qed.

Lemma fold_min_spec l : forall x,
  let v := fold_left Z.min l x in
  (v = x \/ In v l) /\ v <= x /\ forall w, In w l -> v <= w.
Proof.
  induction l as [|y l IH]; intros x; simpl.
  - split; [now left|]. split; [lia|contradiction].
  - destruct (IH (Z.min x y)) as ([E|I] & Le & All).
    + split; [|split].
      * destruct (Z.min_spec x y) as [[_ M]|[_ M]]; rewrite E, M; auto.
      * lia.
      * intros w [<-|I]; [lia|auto].
    + split; [auto|]. split; [lia|]. intros w [<-|I']; [lia|auto].
Qed.

Lemma max_spec vs :
  vs <> [] -> exists v, max vs = Some v /\ In v vs /\ forall w, In w vs -> w <= v.
Proof.
  destruct vs as [|x l]; [congruence|]. intros _.
  destruct (fold_max_spec l x) as (I & Le & All).
  exists (fold_left Z.max l x). split; [reflexivity|]. split.
  - destruct I as [->|I]; [now left|now right].
  - intros w [<-|Iw]; auto.
Qed.

Lemma min_spec vs :
  vs <> [] -> exists v, min vs = Some v /\ In v vs /\ forall w, In w vs -> v <= w.
Proof.
  destruct vs as [|x l]; [congruence|]. intros _.
  destruct (fold_min_spec l x) as (I & Le & All).
  exists (fold_left Z.min l x). split; [reflexivity|]. split.
  - destruct I as [->|I]; [now left|now right].
  - intros w [<-|Iw]; auto.
Qed.

Lemma collect_total {A B} (f : A -> option B) (P : A -> B -> Prop) l :
  (forall x, In x l -> exists v, f x = Some v /\ P x v) ->
  exists vs, collect f l = Some vs /\ Forall2 P l vs.
Proof.
  induction l as [|x l IH]; intros H; simpl.
  - exists []. split; [reflexivity|constructor].
  - destruct (H x (or_introl eq_refl)) as (v & E & Pv).
    destruct (IH (fun y I => H y (or_intror I))) as (vs & C & F).
    exists (v :: vs). rewrite E, C. split; [reflexivity|now constructor].
Qed.

Lemma Forall2_left {A B} (P : A -> B -> Prop) l vs x :
  Forall2 P l vs -> In x l -> exists v, In v vs /\ P x v.
Proof.
  induction 1 as [|y w l vs Pyw _ IH]; intros I; [contradiction|].
  destruct I as [<-|I].
  - exists w. split; [now left|exact Pyw].
  - destruct (IH I) as (v & Iv & Pv). exists v. split; [now right|exact Pv].
Qed.

Lemma Forall2_right {A B} (P : A -> B -> Prop) l vs v :
  Forall2 P l vs -> In v vs -> exists x, In x l /\ P x v.
Proof.
  induction 1 as [|y w l vs Pyw _ IH]; intros I; [contradiction|].
  destruct I as [<-|I].
  - exists y. split; [now left|exact Pyw].
  - destruct (IH I) as (x & Ix & Px). exists x. split; [now right|exact Px].
Qed.

Lemma Forall2_nil_iff {A B} (P : A -> B -> Prop) l vs :
  Forall2 P l vs -> l <> [] -> vs <> [].
Proof. destruct 1; congruence. Qed.

Lemma count_le_length c s : count c s <= Z.of_nat (List.length s).
Proof.
  induction s as [|x s IH]; [reflexivity|].
  rewrite count_cons. simpl List.length. destruct (char_eqb c x); lia.
Qed.

Section Value.
Context {U : UnicodeData}.

(** The score [v], seen by player [q], of the position [g] reached by a
    move that answered [t]. *)
Definition value_ok (q : bool) (t : tag) (g : game) (v : Z) : Prop :=
  (v = 1 /\ wins q t g) \/
  (v = -1 /\ wins (negb q) t g) \/
  (v = 0 /\ ~ wins q t g /\ ~ wins (negb q) t g).

Lemma value_ok_won q t g v : value_ok q t g v -> wins q t g -> v = 1.
Proof.
  intros [[-> _]|[[_ W']|[_ [N _]]]] W; auto.
  - destruct (wins_exclusive q t g W W').
  - contradiction.
Qed.

Lemma value_ok_lost q t g v : value_ok q t g v -> wins (negb q) t g -> v = -1.
Proof.
  intros [[_ W']|[[-> _]|[_ [_ N]]]] W; auto.
  - destruct (wins_exclusive q t g W' W).
  - contradiction.
Qed.

Lemma value_ok_range q t g v : value_ok q t g v -> -1 <= v <= 1.
Proof. intros [[-> _]|[[-> _]|[-> _]]]; lia. Qed.

(** The children of the position [s] with [p] to move. *)
Definition after (s : str) (p : bool) (k : nat) : str := update s k (mark_of p).

Lemma mover_wins s p k :
  List.length s = 9%nat -> In k (blanks s) ->
  wins p (result (after s p k) p k) (board (after s p k) (negb p)) ->
  forces_win p (board s p).
Proof.
  intros L I W.
  assert (M : move (board s p) (result (after s p k) p k)
                (board (after s p k) (negb p)))
    by (apply move_board; [exact L|exists k; auto]).
  destruct W as [E|[E F]]; rewrite E in M.
  - now apply fw_win with (g' := board (after s p k) (negb p)).
  - now apply fw_move with (g' := board (after s p k) (negb p)).
Qed.

Lemma mover_loses s p :
  List.length s = 9%nat -> blanks s <> [] ->
  (forall k, In k (blanks s) ->
     wins (negb p) (result (after s p k) p k) (board (after s p k) (negb p))) ->
  forces_win (negb p) (board s p).
Proof.
  intros L N W.
  assert (R : forall t g', move (board s p) t g' ->
                t = not_finished /\ forces_win (negb p) g').
  { intros t g' M. apply move_board in M as (k & I & -> & ->); [|exact L].
    destruct (W k I) as [E|[E F]]; [|now split].
    unfold after in E.
    destruct (result_cases (update s k (mark_of p)) p k) as [Q|[Q|Q]];
      rewrite Q in E; now destruct p. }
  apply fw_reply.
  - cbn. now rewrite negb_involutive.
  - destruct (blanks s) as [|k l] eqn:B; [congruence|].
    exists (result (after s p k) p k), (board (after s p k) (negb p)).
    apply move_board; [exact L|]. exists k. rewrite B. split; [now left|auto].
  - intros t g' M. apply (R t g' M).
  - intros t g' M. apply (R t g' M).
Qed.

Lemma mover_wins_inv s p :
  List.length s = 9%nat -> forces_win p (board s p) ->
  exists k, In k (blanks s) /\
    wins p (result (after s p k) p k) (board (after s p k) (negb p)).
Proof.
  intros L F. inversion F as [h h' P M|h h' P M F'|h P E N F']; subst.
  - apply move_board in M as (k & I & E & ->); [|exact L].
    exists k. split; [exact I|]. left. unfold after. now rewrite <- E.
  - apply move_board in M as (k & I & E & ->); [|exact L].
    exists k. split; [exact I|]. right. unfold after. now rewrite <- E.
  - cbn in P. now destruct p.
Qed.

Lemma mover_loses_inv s p k :
  List.length s = 9%nat -> forces_win (negb p) (board s p) ->
  In k (blanks s) ->
  wins (negb p) (result (after s p k) p k) (board (after s p k) (negb p)).
Proof.
  intros L F I.
  assert (M : move (board s p) (result (after s p k) p k)
                (board (after s p k) (negb p)))
    by (apply move_board; [exact L|exists k; auto]).
  inversion F as [h h' P M'|h h' P M' F'|h P E N F']; subst.
  - cbn in P. now destruct p.
  - cbn in P. now destruct p.
  - right. split; [exact (N _ _ M)|exact (F' _ _ M)].
Qed.

End Value.

Lemma after_facts s p k :
  List.length s = 9%nat -> In k (blanks s) ->
  List.length (after s p k) = 9%nat /\
  count blank (after s p k) = count blank s - 1 /\
  is_result (result (after s p k) p k) = true /\
  (result (after s p k) p k = not_finished -> count blank (after s p k) <> 0).
Proof.
  intros L I. apply blanks_in in I as [K B]. unfold after.
  split; [now rewrite length_update|]. split; [|split].
  - rewrite count_update by exact K. rewrite B.
    change (char_eqb blank blank) with true.
    replace (char_eqb blank (mark_of p)) with false by now destruct p. lia.
  - destruct (result_cases (update s k (mark_of p)) p k) as [E|[E|E]];
      rewrite E; [now destruct p|reflexivity|reflexivity].
  - unfold result. destruct (line_through _ k); [now destruct p|].
    rewrite existsb_count.
    destruct (Z.eqb_spec (count blank (update s k (mark_of p))) 0);
      [discriminate|auto].
Qed.

Section Search.
Context {U : UnicodeData}.

(** With enough depth the search returns, and what it returns is the
    value of the position for [computer_player]: 1 when that player has
    won or wins by force, -1 when the opponent does, 0 otherwise. *)
Lemma score_spec depth :
  forall s p r q,
  List.length s = 9%nat -> count blank s < Z.of_nat depth ->
  is_result r = true -> (r = not_finished -> count blank s <> 0) ->
  exists v, score depth s p r (tag_of q) (Bool.eqb p q) = Some v /\
            value_ok q r (board s p) v.
Proof.
  induction depth as [|depth IH]; intros s p r q L C R N.
  { pose proof (count_nonneg blank s). simpl in C. lia. }
  cbn [score].
  destruct r; try discriminate R; cbn [tag_eqb negb].
  - (* 'X' has won *)
    destruct q; cbn [tag_of tag_eqb]; eexists; (split; [reflexivity|]).
    + left. split; [reflexivity|now left].
    + right; left. split; [reflexivity|now left].
  - destruct q; cbn [tag_of tag_eqb]; eexists; (split; [reflexivity|]).
    + right; left. split; [reflexivity|now left].
    + left. split; [reflexivity|now left].
  - exists 0. split; [reflexivity|]. right; right. split; [reflexivity|].
    split; intros [E|[E _]]; try discriminate; now destruct q.
  - (* the game goes on *)
    specialize (N eq_refl).
    assert (NB : blanks s <> []) by (intros E; now apply blanks_nil_iff in E).
    destruct (collect_total
      (fun k => score depth (update s k (mark_of p)) (negb p)
                  (result (update s k (mark_of p)) p k) (tag_of q)
                  (negb (Bool.eqb p q)))
      (fun k v => value_ok q (result (after s p k) p k)
                    (board (after s p k) (negb p)) v)
      (blanks s)) as (vs & CV & F).
    { intros k I. destruct (after_facts s p k L I) as (L' & C' & R' & N').
      replace (negb (Bool.eqb p q)) with (Bool.eqb (negb p) q)
        by (now destruct p, q).
      apply IH; auto. rewrite C'. lia. }
    rewrite CV.
    assert (NV : vs <> []) by exact (Forall2_nil_iff _ _ _ F NB).
    assert (Range : forall w, In w vs -> -1 <= w <= 1).
    { intros w Iw. destruct (Forall2_right _ _ _ _ F Iw) as (k & _ & V).
      exact (value_ok_range _ _ _ _ V). }
    destruct (Bool.eqb p q) eqn:PQ.
    + (* the searching player is to move: the highest score *)
      apply eqb_prop in PQ. subst q.
      destruct (max_spec vs NV) as (v & -> & Iv & Top).
      exists v. split; [reflexivity|].
      destruct (Forall2_right _ _ _ _ F Iv) as (k0 & I0 & V0).
      destruct V0 as [[-> W]|[[-> W]|[-> [W1 W2]]]].
      * left. split; [reflexivity|]. right. split; [reflexivity|].
        exact (mover_wins s p k0 L I0 W).
      * right; left. split; [reflexivity|]. right. split; [reflexivity|].
        apply (mover_loses s p L NB). intros k I.
        destruct (Forall2_left _ _ _ _ F I) as (w & Iw & V).
        assert (w = -1) by (specialize (Top w Iw); specialize (Range w Iw); lia).
        subst w. destruct V as [[? _]|[[_ ?]|[? _]]]; auto; discriminate.
      * right; right. split; [reflexivity|]. split.
        -- intros [E|[_ Fw]]; [now destruct p|].
           destruct (mover_wins_inv s p L Fw) as (k & I & W).
           destruct (Forall2_left _ _ _ _ F I) as (w & Iw & V).
           rewrite (value_ok_won _ _ _ _ V W) in Iw.
           specialize (Top 1 Iw). lia.
        -- intros [E|[_ Fw]]; [now destruct p|].
           exact (W2 (mover_loses_inv s p k0 L Fw I0)).
    + (* the opponent is to move: the lowest score *)
      assert (Q : q = negb p) by (destruct p, q; try reflexivity; discriminate).
      clear PQ. subst q.
      destruct (min_spec vs NV) as (v & -> & Iv & Bot).
      exists v. split; [reflexivity|].
      destruct (Forall2_right _ _ _ _ F Iv) as (k0 & I0 & V0).
      destruct V0 as [[-> W]|[[-> W]|[-> [W1 W2]]]].
      * left. split; [reflexivity|]. right. split; [reflexivity|].
        apply (mover_loses s p L NB). intros k I.
        destruct (Forall2_left _ _ _ _ F I) as (w & Iw & V).
        assert (w = 1) by (specialize (Bot w Iw); specialize (Range w Iw); lia).
        subst w. destruct V as [[_ ?]|[[? _]|[? _]]]; auto; discriminate.
      * right; left. split; [reflexivity|]. right. split; [reflexivity|].
        rewrite negb_involutive in *. exact (mover_wins s p k0 L I0 W).
      * right; right. split; [reflexivity|]. rewrite negb_involutive. split.
        -- intros [E|[_ Fw]]; [now destruct p|].
           exact (W1 (mover_loses_inv s p k0 L Fw I0)).
        -- intros [E|[_ Fw]]; [now destruct p|].
           destruct (mover_wins_inv s p L Fw) as (k & I & W).
           destruct (Forall2_left _ _ _ _ F I) as (w & Iw & V).
           rewrite (value_ok_lost _ _ _ _ V) in Iw
             by (now rewrite negb_involutive).
           specialize (Bot (-1) Iw). lia.
Qed.

End Search.

(** ** The move of the hard strategy *)

Section Best.
Context {U : UnicodeData}.

(** The score of the move at [k], as [get_best_coordinates] computes it. *)
Definition child_score (depth : nat) (s : str) (p : bool) (k : nat) : option Z :=
  score depth (update s k (mark_of p)) (negb p)
        (result (update s k (mark_of p)) p k) (tag_of p) false.

Definition child_value (depth : nat) (s : str) (p : bool) (k : nat) : Z :=
  match child_score depth s p k with
  | Some v => v
  | None => 0
  end.

Lemma child_score_spec depth s p k :
  List.length s = 9%nat -> count blank s <= Z.of_nat depth -> In k (blanks s) ->
  child_score depth s p k = Some (child_value depth s p k) /\
  value_ok p (result (after s p k) p k) (board (after s p k) (negb p))
    (child_value depth s p k).
Proof.
  intros L C I. destruct (after_facts s p k L I) as (L' & C' & R' & N').
  destruct (score_spec depth (after s p k) (negb p) (result (after s p k) p k) p
              L' ltac:(lia) R' N') as (v & E & V).
  replace (Bool.eqb (negb p) p) with false in E by now destruct p.
  unfold child_value, child_score. unfold after in E. rewrite E. now split.
Qed.

(** What the loop of [get_best_coordinates] holds after the cells [seen]:
    nothing, or the first of the cells of highest score. *)
Definition best_so_far (depth : nat) (s : str) (p : bool) (seen : list nat)
    (b : option Z * option (Z * Z)) : Prop :=
  (seen = [] /\ b = (None, None)) \/
  exists k, In k seen /\
    b = (Some (child_value depth s p k), Some (coords k)) /\
    forall k', In k' seen -> child_value depth s p k' <= child_value depth s p k.

Lemma best_from_spec depth s p l :
  (forall k, In k l -> child_score depth s p k = Some (child_value depth s p k)) ->
  forall seen b, best_so_far depth s p seen b ->
  exists r, best_from depth s p l b = Some r /\
            best_so_far depth s p (seen ++ l) r.
Proof.
  induction l as [|k l IH]; intros H seen b G.
  - exists b. rewrite app_nil_r. now split.
  - cbn [best_from]. fold (child_score depth s p k).
    rewrite (H k (or_introl eq_refl)).
    replace (seen ++ k :: l) with ((seen ++ [k]) ++ l)
      by (now rewrite <- app_assoc).
    apply IH; [intros k' I; apply H; now right|].
    destruct G as [[-> ->]|(k1 & I1 & -> & Top)].
    + right. exists k. cbn. split; [now left|]. split; [reflexivity|].
      intros k' [<-|[]]. lia.
    + cbn [fst exceeds].
      destruct (Z.gtb_spec (child_value depth s p k) (child_value depth s p k1)).
      * right. exists k. split; [apply in_or_app; right; now left|].
        split; [reflexivity|]. intros k' I'.
        apply in_app_or in I' as [I'|[<-|[]]]; [specialize (Top k' I')|]; lia.
      * right. exists k1. split; [apply in_or_app; now left|].
        split; [reflexivity|]. intros k' I'.
        apply in_app_or in I' as [I'|[<-|[]]]; [exact (Top k' I')|lia].
Qed.

(** On a board with a blank cell the search picks a cell, and the cell it
    picks is a best one. *)
Lemma best_spec depth s p :
  List.length s = 9%nat -> blanks s <> [] -> count blank s <= Z.of_nat depth ->
  exists k, In k (blanks s) /\ best depth s p = Some (Some (coords k)) /\
    ((exists t2 g2, move (board s p) t2 g2 /\ ~ wins (negb p) t2 g2) ->
     ~ wins (negb p) (result (after s p k) p k) (board (after s p k) (negb p))) /\
    (forces_win p (board s p) ->
     wins p (result (after s p k) p k) (board (after s p k) (negb p))).
Proof.
  intros L N C.
  destruct (best_from_spec depth s p (blanks s)
              (fun k I => proj1 (child_score_spec depth s p k L C I))
              [] (None, None) (or_introl (conj eq_refl eq_refl)))
    as (r & E & G).
  cbn [app] in G. destruct G as [[Q _]|(k & I & -> & Top)]; [congruence|].
  exists k. split; [exact I|]. split; [unfold best; now rewrite E|].
  destruct (child_score_spec depth s p k L C I) as [_ V]. split.
  - intros (t2 & g2 & M & NW) W.
    apply move_board in M as (k2 & I2 & -> & ->); [|exact L].
    destruct (child_score_spec depth s p k2 L C I2) as [_ V2].
    pose proof (value_ok_lost _ _ _ _ V W) as E1.
    specialize (Top k2 I2). rewrite E1 in Top.
    pose proof (value_ok_range _ _ _ _ V2) as R2.
    assert (E2 : child_value depth s p k2 = -1) by lia.
    rewrite E2 in V2. apply NW.
    destruct V2 as [[? _]|[[_ ?]|[? _]]]; auto; discriminate.
  - intros Fw. destruct (mover_wins_inv s p L Fw) as (k2 & I2 & W2).
    destruct (child_score_spec depth s p k2 L C I2) as [_ V2].
    pose proof (value_ok_won _ _ _ _ V2 W2) as E2.
    specialize (Top k2 I2). rewrite E2 in Top.
    pose proof (value_ok_range _ _ _ _ V) as R.
    assert (E1 : child_value depth s p k = 1) by lia.
    rewrite E1 in V. destruct V as [[_ ?]|[[? _]|[? _]]]; auto; discriminate.
Qed.

(** A three-by-three board with a blank cell is the board of its string. *)
Lemma board_with_blank g :
  three_by_three (grid g) -> has_blank g ->
  exists s, List.length s = 9%nat /\ g = board s (player g) /\ blanks s <> [].
Proof.
  intros W B. exists (List.concat (grid g)).
  split; [now apply length_concat_grid|]. split; [now apply board_of_grid|].
  intros E. apply blanks_nil_iff in E. now apply count_nonzero_iff in B.
Qed.

(** The game of the hard strategy against itself, on the board string. *)
Lemma self_play_draw : self_play 9 9 nine_blanks true = Some draw.
Proof. vm_compute. reflexivity. Qed.

(** On a three-by-three board with a blank cell, the hard strategy
    returns a cell, gives the board back, and the cell it returns is a
    best one. *)
Lemma best_move_on_board g depth :
  three_by_three (grid g) -> has_blank g -> (9 <= depth)%nat ->
  exists m t g',
    get_best_coordinates depth g = (Ret (Some m), g) /\
    place_move (format m) g = (Ret t, g') /\ is_result t = true /\
    ((exists t2 g2, move g t2 g2 /\ ~ wins (negb (player g)) t2 g2) ->
     ~ wins (negb (player g)) t g') /\
    (forces_win (player g) g -> wins (player g) t g').
Proof.
  intros Wg Bg D. destruct (board_with_blank g Wg Bg) as (s & L & E & N).
  set (p := player g) in *. clearbody p. subst g.
  assert (C : count blank s <= Z.of_nat depth).
  { pose proof (count_le_length blank s). lia. }
  destruct (best_spec depth s p L N C) as (k & I & B & NL & W).
  destruct (move_run s p k L I) as [P _].
  destruct (after_facts s p k L I) as (_ & _ & R & _).
  exists (coords k), (result (after s p k) p k), (board (after s p k) (negb p)).
  split; [exact (best_run _ _ _ _ L B)|]. split; [exact P|].
  split; [exact R|]. split; [exact NL|exact W].
Qed.

(** C1.  On every board reached by play from the empty board that has a
    blank cell, and with a depth that covers the nine cells,
    [get_best_coordinates] returns a cell and leaves the board as it was;
    the move on that cell is not rejected; if some move exists after which
    the opponent neither has won nor wins by force, the move returned is
    such a move; and if the player to move wins by force, then after the
    move returned that player has won or still wins by force.  And the
    game loop with the hard strategy on both sides, from the empty board,
    ends in a draw. *)
Theorem best_move_optimal :
  (forall g depth, played g -> has_blank g -> (9 <= depth)%nat ->
     exists m t g',
       get_best_coordinates depth g = (Ret (Some m), g) /\
       place_move (format m) g = (Ret t, g') /\ is_result t = true /\
       ((exists t2 g2, move g t2 g2 /\ ~ wins (negb (player g)) t2 g2) ->
        ~ wins (negb (player g)) t g') /\
       (forces_win (player g) g -> wins (player g) t g')) /\
  (forall fuel depth input draws k, (9 <= fuel)%nat -> (9 <= depth)%nat ->
     fst (play fuel depth (lit "hard") (lit "hard") input draws k initial_game)
     = Ret draw).
Proof.
  split.
  - intros g depth P. apply best_move_on_board.
    exact (proj1 (played_alternates g P)).
  - intros fuel depth input draws k F D.
    change initial_game with (board nine_blanks true).
    apply self_play_run; [reflexivity|].
    exact (self_play_longer 9 fuel 9 depth _ _ _ F D self_play_draw).
Qed.

End Best.

Section BestWitness.
#[local] Existing Instance plain_unicode.

Lemma best_move_optimal_witness :
  exists m t g',
    get_best_coordinates 9 initial_game = (Ret (Some m), initial_game) /\
    place_move (format m) initial_game = (Ret t, g') /\ is_result t = true /\
    ((exists t2 g2, move initial_game t2 g2 /\ ~ wins (negb (player initial_game)) t2 g2) ->
     ~ wins (negb (player initial_game)) t g') /\
    (forces_win (player initial_game) initial_game -> wins (player initial_game) t g').
Proof.
  exact (proj1 (@best_move_optimal plain_unicode) initial_game 9%nat played_new
           (or_introl eq_refl) (le_n 9)).
Defined.

End BestWitness.

(** ** The choice of the strategy *)

Lemma str_eqb_eq a b : str_eqb a b = true <-> a = b.
Proof.
  revert b. induction a as [|x a IH]; intros [|y b]; simpl;
    try (split; [discriminate|discriminate]); [tauto|].
  rewrite andb_true_iff, IH. unfold char_eqb. rewrite N.eqb_eq.
  split; [intros [-> ->]; reflexivity|intros E; inversion E; auto].
Qed.

Section Difficulty.
Context {U : UnicodeData}.

(** C10.  For every difficulty other than 'easy' and 'medium', in the
    documented set or not, [get_coordinates] is the hard strategy: it
    formats what [get_best_coordinates] returns, and on a board reached by
    play that has a blank cell it returns the text of that cell; no
    difficulty is rejected. *)
Theorem get_coordinates_defaults_to_hard (depth r : nat) (difficulty : str) :
  difficulty <> lit "easy" -> difficulty <> lit "medium" ->
  get_coordinates depth r difficulty =
    (best_coordinates <- get_best_coordinates depth ;;
     best_coordinates <- or_raise TypeError best_coordinates ;;
     ret (format best_coordinates)) /\
  get_coordinates depth r difficulty = get_coordinates depth r (lit "hard") /\
  (forall g, played g -> has_blank g -> (9 <= depth)%nat ->
     exists m, get_best_coordinates depth g = (Ret (Some m), g) /\
               get_coordinates depth r difficulty g = (Ret (format m), g)).
Proof.
  intros E M.
  assert (Q : get_coordinates depth r difficulty =
    (best_coordinates <- get_best_coordinates depth ;;
     best_coordinates <- or_raise TypeError best_coordinates ;;
     ret (format best_coordinates))).
  { unfold get_coordinates.
    destruct (str_eqb difficulty (lit "easy")) eqn:E1;
      [apply str_eqb_eq in E1; contradiction|].
    destruct (str_eqb difficulty (lit "medium")) eqn:E2;
      [apply str_eqb_eq in E2; contradiction|].
    reflexivity. }
  split; [exact Q|]. split; [rewrite Q; reflexivity|].
  intros g P Bg D.
  destruct (best_move_on_board g depth (proj1 (played_alternates g P)) Bg D)
    as (m & _ & _ & B & _).
  exists m. split; [exact B|]. rewrite Q.
  now rewrite (bind_run _ _ _ _ _ B).
Qed.

End Difficulty.

Lemma get_coordinates_defaults_to_hard_witness :
  get_coordinates (U := plain_unicode) 9 0 (lit "impossible") =
  get_coordinates (U := plain_unicode) 9 0 (lit "hard").
Proof.
  refine (proj1 (proj2 (@get_coordinates_defaults_to_hard plain_unicode 9 0
                          (lit "impossible") _ _))); discriminate.
Defined.

(** * Further properties of the program *)

From Stdlib Require Import Sorted.

(** ** What an accepted move changes *)

Lemma content_grid_set_other gr p q x y x' y' v :
  three_by_three gr -> 0 <= x <= 2 -> 0 <= y <= 2 ->
  0 <= x' <= 2 -> 0 <= y' <= 2 -> (x', y') <> (x, y) ->
  content (Game (grid_set gr x y v) p) (x', y') = content (Game gr q) (x', y').
Proof.
  intros W Hx Hy Hx' Hy' N. nine_cells gr W.
  three_cases x; three_cases y; three_cases x'; three_cases y';
    try reflexivity; now elim N.
Qed.

Section Accepted.
Context {U : UnicodeData}.

(** X1.  On a three-by-three board, a call of [place_move] whose text
    denotes a blank cell is accepted: it writes the mark of the player to
    move in that cell, leaves the eight other cells as they were, keeps
    the board three by three, takes one blank off the board string and
    gives the turn to the other player. *)
Theorem place_move_accepted (coordinates : str) (r c : Z) (g : game) :
  denotes coordinates r c ->
  three_by_three (grid g) -> 1 <= r <= 3 -> 1 <= c <= 3 ->
  content g (r - 1, c - 1) = Some blank ->
  exists t g',
    place_move coordinates g = (Ret t, g') /\ is_result t = true /\
    player g' = negb (player g) /\
    three_by_three (grid g') /\
    content g' (r - 1, c - 1) = Some (mark_of (player g)) /\
    (forall x y, 0 <= x <= 2 -> 0 <= y <= 2 -> (x, y) <> (r - 1, c - 1) ->
       content g' (x, y) = content g (x, y)) /\
    count blank (List.concat (grid g')) = count blank (List.concat (grid g)) - 1.
Proof.
  intros D W Hr Hc B.
  destruct (place_move_on_blank _ _ _ _ D W Hr Hc B) as (t & E & T).
  eexists; eexists. split; [exact E|].
  split; [destruct T as [ -> | [ -> | -> ] ]; try reflexivity; now destruct (player g)|].
  cbn [player grid]. split; [reflexivity|].
  split; [apply three_by_three_grid_set; auto; lia|].
  split; [apply content_grid_set; auto; lia|].
  split.
  - intros x y Hx Hy N. destruct g as [gr p]. cbn [grid player] in *.
    apply content_grid_set_other; auto; lia.
  - destruct g as [gr p]. cbn [grid player] in *.
    rewrite (count_grid_set gr p (r - 1) (c - 1) blank) by (auto; lia).
    change (char_eqb blank blank) with true.
    replace (char_eqb blank (mark_of p)) with false by now destruct p. lia.
Qed.

End Accepted.

Lemma place_move_accepted_witness :
  let g := initial_game (U := plain_unicode) in
  exists t g',
    place_move (U := plain_unicode) (lit "3 1") g = (Ret t, g') /\
    is_result t = true /\
    player g' = negb (player g) /\
    three_by_three (grid g') /\
    content g' (3 - 1, 1 - 1) = Some (mark_of (player g)) /\
    (forall x y, 0 <= x <= 2 -> 0 <= y <= 2 -> (x, y) <> (3 - 1, 1 - 1) ->
       content g' (x, y) = content g (x, y)) /\
    count blank (List.concat (grid g')) = count blank (List.concat (grid g)) - 1.
Proof.
  apply (@place_move_accepted plain_unicode (lit "3 1") 3 1 initial_game);
    [ exists [51%N], [49%N]; repeat split
    | exact three_by_three_initial_game | lia | lia | reflexivity ].
Defined.

(** ** The list of the blank cells *)

(** The 1-based cell [m] is on the board and blank. *)
Definition blank_cell (g : game) (m : Z * Z) : Prop :=
  1 <= fst m <= 3 /\ 1 <= snd m <= 3 /\
  content g (fst m - 1, snd m - 1) = Some blank.

(** Row-major order of the cells. *)
Definition before (a b : Z * Z) : Prop := 3 * fst a + snd a < 3 * fst b + snd b.

Lemma all_cells_in m :
  In m all_cells <-> 1 <= fst m <= 3 /\ 1 <= snd m <= 3.
Proof.
  destruct m as [r c]. cbn [fst snd]. split.
  - unfold all_cells. simpl. intros H.
    repeat destruct H as [H|H]; try contradiction; inversion H; lia.
  - intros [Hr Hc].
    assert (R : r = 1 \/ r = 2 \/ r = 3) by lia.
    assert (C : c = 1 \/ c = 2 \/ c = 3) by lia.
    destruct R as [ -> | [ -> | -> ] ], C as [ -> | [ -> | -> ] ];
      unfold all_cells; simpl; tauto.
Qed.

Lemma is_blank_at_iff g m :
  is_blank_at g m = true <-> content g (fst m - 1, snd m - 1) = Some blank.
Proof.
  unfold is_blank_at. destruct (content g (fst m - 1, snd m - 1)) as [v|].
  - destruct (char_eqb_spec v blank); split; congruence.
  - split; discriminate.
Qed.

Lemma blank_cells_iff g m : In m (blank_cells g) <-> blank_cell g m.
Proof.
  rewrite blank_cells_in, all_cells_in, is_blank_at_iff. unfold blank_cell. tauto.
Qed.

Lemma blank_cells_filter g :
  blank_cells g = filter (is_blank_at g) all_cells.
Proof.
  unfold blank_cells. induction all_cells as [|m l IH]; [reflexivity|].
  simpl. rewrite IH. now destruct (is_blank_at g m).
Qed.

Lemma sorted_filter {A} (R : A -> A -> Prop) (f : A -> bool) l :
  StronglySorted R l -> StronglySorted R (filter f l).
Proof.
  induction 1 as [|x l S IH F]; simpl; [constructor|].
  destruct (f x); [|exact IH]. constructor; [exact IH|].
  apply Forall_forall. intros y I. apply filter_In in I as [I _].
  rewrite Forall_forall in F. now apply F.
Qed.

Lemma all_cells_sorted : StronglySorted before all_cells.
Proof.
  unfold all_cells, before.
  repeat (constructor; [|repeat constructor; cbn; lia]). constructor.
Qed.

Lemma length_blanks_from n s :
  Z.of_nat (List.length (blanks_from n s)) = count blank s.
Proof.
  revert n. induction s as [|x s IH]; intros n; [reflexivity|].
  rewrite count_cons. cbn [blanks_from].
  replace (char_eqb blank x) with (char_eqb x blank) by apply N.eqb_sym.
  destruct (char_eqb x blank); cbn [List.length]; rewrite <- (IH (S n)); lia.
Qed.

(** X2.  On a three-by-three board [get_blank_coordinates] returns, and
    leaves the board alone, the 1-based coordinates of exactly the blank
    cells, each once, in row-major order; there are as many as the board
    string has blanks. *)
Theorem get_blank_coordinates_lists_blanks (g : game) :
  three_by_three (grid g) ->
  exists l,
    get_blank_coordinates g = (Ret l, g) /\
    (forall m, In m l <-> blank_cell g m) /\
    StronglySorted before l /\
    Z.of_nat (List.length l) = count blank (List.concat (grid g)).
Proof.
  intros W. exists (blank_cells g).
  split; [now apply get_blank_coordinates_run|].
  split; [apply blank_cells_iff|].
  split; [rewrite blank_cells_filter; apply sorted_filter, all_cells_sorted|].
  rewrite (board_of_grid g W) at 1.
  rewrite blank_cells_board by now apply length_concat_grid.
  rewrite length_map. apply length_blanks_from.
Qed.

Lemma get_blank_coordinates_lists_blanks_witness :
  exists l,
    get_blank_coordinates two_in_column = (Ret l, two_in_column) /\
    (forall m, In m l <-> blank_cell two_in_column m) /\
    StronglySorted before l /\
    Z.of_nat (List.length l) = count blank (List.concat (grid two_in_column)).
Proof.
  apply (get_blank_coordinates_lists_blanks two_in_column).
  split; [reflexivity|repeat constructor].
Defined.

(** ** The easy and the medium strategy *)

Lemma blank_cells_nil_iff g :
  three_by_three (grid g) -> (blank_cells g = [] <-> ~ has_blank g).
Proof.
  intros W. rewrite (board_of_grid g W) at 1.
  rewrite blank_cells_board by now apply length_concat_grid.
  unfold has_blank. rewrite <- count_zero_iff, <- blanks_nil_iff.
  split; intros H; [now apply map_eq_nil in H|now rewrite H].
Qed.

Lemma choice_in {A} (r : nat) (l : list A) :
  l <> [] -> exists m, choice r l = Some m /\ In m l.
Proof.
  intros N. destruct l as [|x l]; [congruence|]. unfold choice.
  destruct (nth_error (x :: l) (r mod List.length (x :: l))) as [m|] eqn:E.
  - exists m. split; [reflexivity|]. now apply nth_error_In in E.
  - apply nth_error_None in E.
    pose proof (Nat.mod_upper_bound r (List.length (x :: l))) as B.
    simpl in *. lia.
Qed.

Lemma choice_onto {A} (l : list A) m :
  In m l -> exists r, choice r l = Some m.
Proof.
  intros I. apply In_nth_error in I as (n & E). exists n.
  assert (B : (n < List.length l)%nat) by (apply nth_error_Some; congruence).
  destruct l as [|x l]; [simpl in B; lia|]. unfold choice.
  now rewrite Nat.mod_small.
Qed.

Lemma get_random_coordinates_some r g :
  three_by_three (grid g) -> has_blank g ->
  exists m, get_random_coordinates r g = (Ret m, g) /\ blank_cell g m.
Proof.
  intros W B. rewrite get_random_coordinates_run by exact W.
  destruct (choice_in r (blank_cells g)) as (m & E & I).
  { intros N. now apply (blank_cells_nil_iff g W) in N. }
  exists m. rewrite E. split; [reflexivity|now apply blank_cells_iff].
Qed.

Lemma get_random_coordinates_none r g :
  three_by_three (grid g) -> ~ has_blank g ->
  get_random_coordinates r g = (Raise IndexError, g).
Proof.
  intros W N. rewrite get_random_coordinates_run by exact W.
  apply (blank_cells_nil_iff g W) in N. now rewrite N.
Qed.

Lemma get_relevant_coordinates_some r g :
  three_by_three (grid g) -> has_blank g ->
  exists m, get_relevant_coordinates r g = (Ret m, g) /\ blank_cell g m.
Proof.
  intros W B. rewrite get_relevant_coordinates_run by exact W.
  destruct (find (qualifiesb g) (blank_cells g)) as [m|] eqn:E.
  - exists m. split; [reflexivity|].
    apply find_some in E as [I _]. now apply blank_cells_iff.
  - now apply get_random_coordinates_some.
Qed.

Lemma get_relevant_coordinates_none r g :
  three_by_three (grid g) -> ~ has_blank g ->
  get_relevant_coordinates r g = (Raise IndexError, g).
Proof.
  intros W N. rewrite get_relevant_coordinates_run by exact W.
  rewrite (proj2 (blank_cells_nil_iff g W) N). cbn [find].
  now apply get_random_coordinates_none.
Qed.

(** X3.  On a three-by-three board with a blank cell
    [get_random_coordinates] returns a blank cell for every draw of the
    generator and leaves the board alone, every blank cell is returned for
    some draw, and on a full board the call raises [IndexError]. *)
Theorem get_random_coordinates_blank (g : game) :
  three_by_three (grid g) ->
  (has_blank g ->
   forall r, exists m, get_random_coordinates r g = (Ret m, g) /\ blank_cell g m) /\
  (forall m, blank_cell g m -> exists r, get_random_coordinates r g = (Ret m, g)) /\
  (~ has_blank g -> forall r, get_random_coordinates r g = (Raise IndexError, g)).
Proof.
  intros W. split; [|split].
  - intros B r. now apply get_random_coordinates_some.
  - intros m B. apply blank_cells_iff in B.
    destruct (choice_onto _ _ B) as (r & E). exists r.
    rewrite get_random_coordinates_run by exact W. now rewrite E.
  - intros N r. now apply get_random_coordinates_none.
Qed.

Lemma get_random_coordinates_blank_witness :
  (has_blank two_in_column ->
   forall r, exists m,
     get_random_coordinates r two_in_column = (Ret m, two_in_column) /\
     blank_cell two_in_column m) /\
  (forall m, blank_cell two_in_column m ->
     exists r, get_random_coordinates r two_in_column = (Ret m, two_in_column)) /\
  (~ has_blank two_in_column ->
   forall r, get_random_coordinates r two_in_column = (Raise IndexError, two_in_column)).
Proof.
  apply (get_random_coordinates_blank two_in_column).
  split; [reflexivity|repeat constructor].
Defined.

(** X4.  On a three-by-three board with a blank cell
    [get_relevant_coordinates] returns a blank cell and leaves the board
    alone; when some blank cell has a line whose two other cells hold the
    same mark, the cell returned is such a cell and does not depend on the
    draw of the generator; on a full board the call raises
    [IndexError]. *)
Theorem get_relevant_coordinates_blank (g : game) :
  three_by_three (grid g) ->
  (has_blank g ->
   forall r, exists m, get_relevant_coordinates r g = (Ret m, g) /\ blank_cell g m) /\
  ((exists m, blank_cell g m /\ qualifies g m) ->
   exists m, blank_cell g m /\ qualifies g m /\
     forall r, get_relevant_coordinates r g = (Ret m, g)) /\
  (~ has_blank g -> forall r, get_relevant_coordinates r g = (Raise IndexError, g)).
Proof.
  intros W.
  assert (Q : forall x, In x (blank_cells g) ->
                (qualifiesb g x = true <-> qualifies g x)).
  { intros x I. apply qualifies_iff. now apply blank_cells_in in I. }
  split; [|split].
  - intros B r. now apply get_relevant_coordinates_some.
  - intros (m0 & B0 & Q0).
    destruct (find (qualifiesb g) (blank_cells g)) as [m|] eqn:E.
    + exists m. pose proof (find_some _ _ E) as [I F].
      split; [now apply blank_cells_iff|]. split; [now apply Q|].
      intros r. rewrite get_relevant_coordinates_run by exact W. now rewrite E.
    + exfalso. apply blank_cells_iff in B0.
      pose proof (find_none _ _ E m0 B0) as F.
      apply Q in Q0; [|exact B0]. congruence.
  - intros N r. now apply get_relevant_coordinates_none.
Qed.

Lemma get_relevant_coordinates_blank_witness :
  (has_blank two_in_column ->
   forall r, exists m,
     get_relevant_coordinates r two_in_column = (Ret m, two_in_column) /\
     blank_cell two_in_column m) /\
  ((exists m, blank_cell two_in_column m /\ qualifies two_in_column m) ->
   exists m, blank_cell two_in_column m /\ qualifies two_in_column m /\
     forall r, get_relevant_coordinates r two_in_column = (Ret m, two_in_column)) /\
  (~ has_blank two_in_column ->
   forall r, get_relevant_coordinates r two_in_column = (Raise IndexError, two_in_column)).
Proof.
  apply (get_relevant_coordinates_blank two_in_column).
  split; [reflexivity|repeat constructor].
Defined.

(** ** The text of an automatic move *)

Section Automatic.
Context {U : UnicodeData}.

Lemma blank_cell_accepted g m :
  three_by_three (grid g) -> blank_cell g m ->
  exists t g', place_move (format m) g = (Ret t, g') /\ is_result t = true.
Proof.
  intros W (Hr & Hc & B). destruct m as [r c]. cbn [fst snd] in *.
  destruct (place_move_on_blank _ r c g (format_denotes r c Hr Hc) W Hr Hc B)
    as (t & E & T).
  eexists; eexists. split; [exact E|].
  destruct T as [ -> | [ -> | -> ] ]; try reflexivity. now destruct (player g).
Qed.

Lemma get_coordinates_some depth r difficulty g :
  three_by_three (grid g) -> has_blank g -> (9 <= depth)%nat ->
  exists m, get_coordinates depth r difficulty g = (Ret (format m), g) /\
            blank_cell g m.
Proof.
  intros W B D. unfold get_coordinates.
  destruct (str_eqb difficulty (lit "easy")).
  - destruct (get_random_coordinates_some r g W B) as (m & E & Bm).
    exists m. rewrite (bind_run _ _ _ _ _ E). auto.
  - destruct (str_eqb difficulty (lit "medium")).
    + destruct (get_relevant_coordinates_some r g W B) as (m & E & Bm).
      exists m. rewrite (bind_run _ _ _ _ _ E). auto.
    + destruct (board_with_blank g W B) as (s & L & E & N).
      assert (C : count blank s <= Z.of_nat depth).
      { pose proof (count_le_length blank s). lia. }
      destruct (best_spec depth s (player g) L N C) as (k & I & Bk & _).
      pose proof (best_run depth s (player g) _ L Bk) as G. rewrite <- E in G.
      exists (coords k). rewrite (bind_run _ _ _ _ _ G). split; [reflexivity|].
      apply blank_cells_iff. rewrite E, blank_cells_board by exact L.
      now apply in_map.
Qed.

Lemma get_best_coordinates_none depth g :
  three_by_three (grid g) -> ~ has_blank g ->
  get_best_coordinates depth g = (Ret None, g).
Proof.
  intros W N. rewrite get_best_coordinates_unfold.
  rewrite (bind_run _ _ _ _ _ (get_blank_coordinates_run g W)).
  apply (blank_cells_nil_iff g W) in N. rewrite N. reflexivity.
Qed.

Lemma get_coordinates_none depth r difficulty g :
  three_by_three (grid g) -> ~ has_blank g ->
  get_coordinates depth r difficulty g =
    (Raise (if str_eqb difficulty (lit "easy") || str_eqb difficulty (lit "medium")
            then IndexError else TypeError), g).
Proof.
  intros W N. unfold get_coordinates.
  destruct (str_eqb difficulty (lit "easy")); cbn [orb].
  - unfold bind. now rewrite (get_random_coordinates_none r g W N).
  - destruct (str_eqb difficulty (lit "medium")).
    + unfold bind. now rewrite (get_relevant_coordinates_none r g W N).
    + now rewrite (bind_run _ _ _ _ _ (get_best_coordinates_none depth g W N)).
Qed.

(** X5.  On a three-by-three board with a blank cell, for every
    difficulty and every draw of the generator, [get_coordinates] (the
    search deep enough) returns a text and leaves the board alone, the text
    is that of a blank cell, and [place_move] accepts it. *)
Theorem get_coordinates_accepted (depth r : nat) (difficulty : str) (g : game) :
  three_by_three (grid g) -> has_blank g -> (9 <= depth)%nat ->
  exists m t g',
    get_coordinates depth r difficulty g = (Ret (format m), g) /\
    blank_cell g m /\
    place_move (format m) g = (Ret t, g') /\ is_result t = true.
Proof.
  intros W B D.
  destruct (get_coordinates_some depth r difficulty g W B D) as (m & E & Bm).
  destruct (blank_cell_accepted g m W Bm) as (t & g' & P & R).
  exists m, t, g'. auto.
Qed.

(** X6.  On a full three-by-three board no strategy has a move:
    [get_best_coordinates] returns [None], and [get_coordinates] raises
    [IndexError] for "easy" and "medium", out of [random.choice] on the
    empty list, and [TypeError] for every other difficulty, out of the
    subscript of [None]; the board is left alone. *)
Theorem get_coordinates_full_board (depth r : nat) (difficulty : str) (g : game) :
  three_by_three (grid g) -> ~ has_blank g ->
  get_best_coordinates depth g = (Ret None, g) /\
  get_coordinates depth r difficulty g =
    (Raise (if str_eqb difficulty (lit "easy") || str_eqb difficulty (lit "medium")
            then IndexError else TypeError), g).
Proof.
  intros W N. split.
  - now apply get_best_coordinates_none.
  - now apply get_coordinates_none.
Qed.

End Automatic.

(** A full board without a line. *)
Definition full_board : game :=
  Game [[mark_X; mark_O; mark_X]; [mark_X; mark_O; mark_O]; [mark_O; mark_X; mark_X]]
       true.

Lemma three_by_three_full_board : three_by_three (grid full_board).
Proof. split; [reflexivity|repeat constructor]. Qed.

Lemma full_board_full : ~ has_blank full_board.
Proof. apply count_zero_iff. reflexivity. Qed.

Lemma two_in_column_blank : has_blank two_in_column.
Proof. apply count_nonzero_iff. discriminate. Qed.

Lemma three_by_three_two_in_column : three_by_three (grid two_in_column).
Proof. split; [reflexivity|repeat constructor]. Qed.

Lemma get_coordinates_accepted_witness :
  exists m t g',
    get_coordinates (U := plain_unicode) 9 0 (lit "medium") two_in_column =
      (Ret (format m), two_in_column) /\
    blank_cell two_in_column m /\
    place_move (U := plain_unicode) (format m) two_in_column = (Ret t, g') /\
    is_result t = true.
Proof.
  apply (@get_coordinates_accepted plain_unicode 9 0 (lit "medium") two_in_column);
    [exact three_by_three_two_in_column|exact two_in_column_blank|lia].
Defined.

Lemma get_coordinates_full_board_witness :
  get_best_coordinates (U := plain_unicode) 9 full_board = (Ret None, full_board) /\
  get_coordinates (U := plain_unicode) 9 0 (lit "hard") full_board =
    (Raise (if str_eqb (lit "hard") (lit "easy") || str_eqb (lit "hard") (lit "medium")
            then IndexError else TypeError), full_board).
Proof.
  apply (@get_coordinates_full_board plain_unicode 9 0 (lit "hard") full_board);
    [exact three_by_three_full_board|exact full_board_full].
Defined.

(** ** The game loop *)

Section Loop.
Context {U : UnicodeData}.

Lemma place_move_failure_state coordinates g t g' :
  place_move coordinates g = (Ret t, g') -> is_failure t = true -> g' = g.
Proof.
  rewrite place_move_unfold.
  destruct (split coordinates) as [|x [|y [|z l]]];
    try (intros H; now inversion H).
  destruct (negb (isdigit x) || negb (isdigit y));
    [intros H; now inversion H|].
  destruct (int x) as [vx|]; [|discriminate].
  destruct (int y) as [vy|]; [|discriminate].
  cbn [or_raise bind ret].
  destruct (in_range (vx - 1) (vy - 1)).
  - apply place_at_keeps_state_on_failure.
  - intros H; now inversion H.
Qed.

(** What the loop does with the answer of [place_move]. *)
Definition after_move (fuel depth : nat) (x_player o_player : str)
    (input : nat -> str) (draws : nat -> nat) (k : nat) (move_result : tag) : M tag :=
  match move_result with
  | draw | tag_X | tag_O => ret move_result
  | _ => play fuel depth x_player o_player input draws (S k)
  end.

(** The move of the loop, typed or computed. *)
Definition turn_move (depth : nat) (x_player o_player : str)
    (input : nat -> str) (draws : nat -> nat) (k : nat) (p : bool) : M tag :=
  if (str_eqb x_player (lit "user") && tag_eqb (tag_of p) tag_X) ||
     (str_eqb o_player (lit "user") && tag_eqb (tag_of p) tag_O)
  then place_move (input k)
  else
    coordinates <- get_coordinates depth (draws k)
                     (if tag_eqb (tag_of p) tag_X then x_player else o_player) ;;
    place_move coordinates.

Lemma play_step fuel depth x_player o_player input draws k g :
  play (S fuel) depth x_player o_player input draws k g =
  bind (turn_move depth x_player o_player input draws k (player g))
       (after_move fuel depth x_player o_player input draws k) g.
Proof. reflexivity. Qed.

Lemma after_move_result fuel depth x_player o_player input draws k s p j :
  result s p j <> not_finished ->
  after_move fuel depth x_player o_player input draws k (result s p j) =
  ret (result s p j).
Proof.
  intros N. destruct (result_cases s p j) as [E|[E|E]]; rewrite E in *;
    [now destruct p|reflexivity|congruence].
Qed.

Lemma concat_board s p :
  List.length s = 9%nat -> List.concat (grid (board s p)) = s.
Proof. intros L. nine_of s L. reflexivity. Qed.

Lemma has_blank_board s p :
  List.length s = 9%nat -> (has_blank (board s p) <-> blanks s <> []).
Proof.
  intros L. unfold has_blank. rewrite concat_board by exact L.
  rewrite <- count_nonzero_iff, blanks_nil_iff. tauto.
Qed.

Lemma blanks_after s p j :
  List.length s = 9%nat -> In j (blanks s) ->
  result (after s p j) p j = not_finished -> blanks (after s p j) <> [].
Proof.
  intros L I E. destruct (after_facts s p j L I) as (_ & _ & _ & N).
  rewrite blanks_nil_iff. now apply N.
Qed.

(** An automatic move on a board with a blank cell: it takes a blank
    cell. *)
Lemma automatic_move depth r difficulty s p :
  List.length s = 9%nat -> blanks s <> [] -> (9 <= depth)%nat ->
  exists j, In j (blanks s) /\
    (coordinates <- get_coordinates depth r difficulty ;; place_move coordinates)
      (board s p) =
    (Ret (result (after s p j) p j), board (after s p j) (negb p)).
Proof.
  intros L N D.
  assert (W : three_by_three (grid (board s p))) by now apply three_by_three_board.
  assert (B : has_blank (board s p)) by now apply has_blank_board.
  destruct (get_coordinates_some depth r difficulty _ W B D) as (m & E & Bm).
  apply blank_cells_iff in Bm. rewrite blank_cells_board in Bm by exact L.
  apply in_map_iff in Bm as (j & <- & I).
  exists j. split; [exact I|]. rewrite (bind_run _ _ _ _ _ E).
  apply (move_run s p j L I).
Qed.

Section AutomaticPlay.
Variables (depth : nat) (x_player o_player : str).
Variables (input : nat -> str) (draws : nat -> nat).
Hypothesis deep : (9 <= depth)%nat.
Hypothesis automatic_x : str_eqb x_player (lit "user") = false.
Hypothesis automatic_o : str_eqb o_player (lit "user") = false.

Lemma play_automatic fuel :
  forall s p k,
  List.length s = 9%nat -> blanks s <> [] -> count blank s <= Z.of_nat fuel ->
  exists t s' p',
    play fuel depth x_player o_player input draws k (board s p) =
      (Ret t, board s' p') /\
    List.length s' = 9%nat /\ (t = tag_X \/ t = tag_O \/ t = draw).
Proof.
  induction fuel as [|fuel IH]; intros s p k L N C.
  { exfalso. apply N, blanks_nil_iff. pose proof (count_nonneg blank s). simpl in C. lia. }
  rewrite play_step. unfold turn_move. rewrite automatic_x, automatic_o.
  cbn [andb orb player board].
  destruct (automatic_move depth (draws k)
              (if tag_eqb (tag_of p) tag_X then x_player else o_player) s p L N deep)
    as (j & I & E).
  rewrite (bind_run _ _ _ _ _ E).
  destruct (after_facts s p j L I) as (L' & C' & _ & _).
  destruct (result_cases (after s p j) p j) as [R|[R|R]].
  - rewrite after_move_result by (rewrite R; now destruct p).
    exists (result (after s p j) p j), (after s p j), (negb p).
    split; [reflexivity|]. split; [exact L'|]. rewrite R. destruct p; auto.
  - rewrite after_move_result by (rewrite R; discriminate).
    exists (result (after s p j) p j), (after s p j), (negb p).
    split; [reflexivity|]. split; [exact L'|]. rewrite R. auto.
  - pose proof (blanks_after s p j L I R) as N'. rewrite R. cbn [after_move].
    apply IH; auto. lia.
Qed.

End AutomaticPlay.

(** X7.  A game between two automatic players ends: on a three-by-three
    board with a blank cell, for all difficulties other than "user" and
    all draws of the generator, [play] (the loop run at least as many
    times as there are blank cells, the search deep enough) returns 'X',
    'O' or 'draw', never raises, and leaves a three-by-three board. *)
Theorem play_automatic_ends (fuel depth : nat) (x_player o_player : str)
    (input : nat -> str) (draws : nat -> nat) (k : nat) (g : game) :
  three_by_three (grid g) -> has_blank g ->
  str_eqb x_player (lit "user") = false ->
  str_eqb o_player (lit "user") = false ->
  count blank (List.concat (grid g)) <= Z.of_nat fuel -> (9 <= depth)%nat ->
  exists t g',
    play fuel depth x_player o_player input draws k g = (Ret t, g') /\
    (t = tag_X \/ t = tag_O \/ t = draw) /\ three_by_three (grid g').
Proof.
  intros W B X O C D.
  destruct (board_with_blank g W B) as (s & L & E & N).
  assert (Cs : count blank s <= Z.of_nat fuel).
  { rewrite E, concat_board in C by exact L. exact C. }
  destruct (play_automatic depth x_player o_player input draws D X O fuel
              s (player g) k L N Cs) as (t & s' & p' & P & L' & T).
  exists t, (board s' p'). rewrite E at 1. split; [exact P|].
  split; [exact T|now apply three_by_three_board].
Qed.

(** ** The hard strategy does not lose *)

(** The game of the hard strategy against itself ends as the player who
    wins by force says. *)
Lemma self_play_forced fuel :
  forall depth s p t q,
  List.length s = 9%nat -> count blank s <= Z.of_nat depth ->
  self_play fuel depth s p = Some t -> forces_win q (board s p) ->
  t = tag_of q.
Proof.
  induction fuel as [|fuel IH]; intros depth s p t q L C H F; [discriminate|].
  assert (N : blanks s <> []).
  { assert (M : exists t' g', move (board s p) t' g').
    { inversion F as [h h' P M|h h' P M F'|h P E N F']; subst; eauto. }
    destruct M as (t' & g' & M). apply move_board in M as (j & I & _); [|exact L].
    intros E. now rewrite E in I. }
  destruct (best_spec depth s p L N C) as (j & I & B & _ & W).
  cbn [self_play] in H. rewrite B in H.
  assert (J : (j < 9)%nat) by (apply blanks_in in I; lia).
  rewrite (position_of_coords j J) in H. fold (after s p j) in H.
  destruct (after_facts s p j L I) as (L' & C' & _ & _).
  assert (Wq : wins q (result (after s p j) p j) (board (after s p j) (negb p))).
  { destruct (bool_dec q p) as [->|Q]; [exact (W F)|].
    assert (q = negb p) by (destruct q, p; try reflexivity; now elim Q). subst q.
    exact (mover_loses_inv s p j L F I). }
  destruct Wq as [E|[E F']]; rewrite E in H.
  - destruct q; now inversion H.
  - apply (IH depth (after s p j) (negb p)); auto. lia.
Qed.

Lemma initial_game_board : initial_game = board nine_blanks true.
Proof. reflexivity. Qed.

(** Nobody wins by force from the empty board. *)
Lemma initial_game_even q : ~ forces_win q (board nine_blanks true).
Proof.
  intros F.
  pose proof (self_play_forced 9 9 nine_blanks true draw q eq_refl
                ltac:(cbv; discriminate) self_play_draw F) as E.
  now destruct q.
Qed.

(** A player who does not lose by force has a move after which the same
    holds. *)
Lemma escape s p :
  List.length s = 9%nat -> blanks s <> [] ->
  ~ forces_win (negb p) (board s p) ->
  exists t2 g2, move (board s p) t2 g2 /\ ~ wins (negb p) t2 g2.
Proof.
  intros L N NF.
  assert (C : count blank s <= Z.of_nat 9).
  { pose proof (count_le_length blank s). lia. }
  assert (Dec : forall l, (forall j, In j l -> In j (blanks s)) ->
    (forall j, In j l ->
       wins (negb p) (result (after s p j) p j) (board (after s p j) (negb p))) \/
    (exists j, In j l /\
       ~ wins (negb p) (result (after s p j) p j) (board (after s p j) (negb p)))).
  { induction l as [|j l IH]; intros Sub; [left; contradiction|].
    destruct (child_score_spec 9 s p j L C (Sub j (or_introl eq_refl))) as [_ V].
    destruct V as [[_ Wp]|[[_ Wn]|[_ [_ Nn]]]].
    - right. exists j. split; [now left|]. intros Wn.
      exact (wins_exclusive _ _ _ Wp Wn).
    - destruct (IH (fun j' I' => Sub j' (or_intror I'))) as [All|(j' & I' & Nw)].
      + left. intros j' [<-|I']; auto.
      + right. exists j'. split; [now right|exact Nw].
    - right. exists j. split; [now left|exact Nn]. }
  destruct (Dec (blanks s) (fun j I => I)) as [All|(j & I & Nw)].
  - exfalso. apply NF. now apply mover_loses.
  - exists (result (after s p j) p j), (board (after s p j) (negb p)).
    split; [|exact Nw]. apply move_board; [exact L|]. exists j. auto.
Qed.

Section Hard.
Variables (depth : nat) (x_player o_player : str).
Variables (input : nat -> str) (draws : nat -> nat).
Variable u : bool.
Hypothesis deep : (9 <= depth)%nat.
Hypothesis hard_side :
  if u then o_player = lit "hard" else x_player = lit "hard".

(** The move of the hard side. *)
Lemma hard_turn k s :
  List.length s = 9%nat -> blanks s <> [] ->
  ~ forces_win u (board s (negb u)) ->
  exists j, In j (blanks s) /\
    turn_move depth x_player o_player input draws k (negb u) (board s (negb u)) =
      (Ret (result (after s (negb u) j) (negb u) j),
       board (after s (negb u) j) u) /\
    ~ wins u (result (after s (negb u) j) (negb u) j) (board (after s (negb u) j) u).
Proof.
  intros L N NF.
  assert (C : count blank s <= Z.of_nat depth).
  { pose proof (count_le_length blank s). lia. }
  destruct (best_spec depth s (negb u) L N C) as (j & I & B & NL & _).
  rewrite negb_involutive in NL.
  exists j. split; [exact I|]. split.
  - pose proof (best_run depth s (negb u) _ L B) as G.
    assert (E : turn_move depth x_player o_player input draws k (negb u) =
                (coordinates <- get_coordinates depth (draws k) (lit "hard") ;;
                 place_move coordinates)).
    { unfold turn_move. destruct u; cbn [negb tag_of tag_eqb]; rewrite hard_side;
        [rewrite andb_false_r|rewrite andb_false_r]; reflexivity. }
    rewrite E, get_coordinates_hard.
    unfold bind at 1. unfold bind at 1. rewrite G. cbn [or_raise ret bind].
    pose proof (proj1 (move_run s (negb u) j L I)) as P.
    rewrite negb_involutive in P. exact P.
  - apply NL. pose proof (escape s (negb u) L N) as Es.
    rewrite negb_involutive in Es. exact (Es NF).
Qed.

(** The move of the other side, whoever plays it. *)
Lemma other_turn k s :
  List.length s = 9%nat -> blanks s <> [] ->
  (exists coordinates,
     turn_move depth x_player o_player input draws k u (board s u) =
     place_move coordinates (board s u)).
Proof.
  intros L N. unfold turn_move.
  match goal with |- context [if ?c then _ else _] => destruct c end.
  - now exists (input k).
  - destruct (automatic_move depth (draws k)
                (if tag_eqb (tag_of u) tag_X then x_player else o_player)
                s u L N deep) as (j & I & E).
    exists (format (coords j)). rewrite E. symmetry. apply (move_run s u j L I).
Qed.

Lemma hard_holds fuel :
  forall s p k,
  List.length s = 9%nat -> blanks s <> [] -> ~ forces_win u (board s p) ->
  fst (play fuel depth x_player o_player input draws k (board s p))
    <> Ret (tag_of u).
Proof.
  induction fuel as [|fuel IH]; intros s p k L N NF; [discriminate|].
  rewrite play_step. cbn [player board].
  destruct (bool_dec p u) as [->|Q].
  - (* the other side is to move *)
    destruct (other_turn k s L N) as (coordinates & E).
    unfold bind. rewrite E.
    destruct (place_move coordinates (board s u)) as [[t|e|] g1] eqn:P;
      [|discriminate|discriminate].
    destruct (is_result t) eqn:R.
    + assert (M : move (board s u) t g1) by (exists coordinates; auto).
      pose proof M as M'.
      apply move_board in M' as (j & I & Et & Eg); [|exact L].
      fold (after s u j) in Et, Eg. subst g1.
      destruct (result_cases (after s u j) u j) as [T|[T|T]];
        rewrite T in Et; subst t.
      * exfalso. apply NF. now apply fw_win with (g' := board (after s u j) (negb u)).
      * cbn. now destruct u.
      * cbn [after_move]. destruct (after_facts s u j L I) as (L' & _).
        apply IH; [exact L'|now apply blanks_after|].
        intros F. apply NF.
        now apply fw_move with (g' := board (after s u j) (negb u)).
    + assert (g1 = board s u).
      { apply (place_move_failure_state _ _ _ _ P). unfold is_failure. now rewrite R. }
      subst g1. destruct t; try discriminate R; cbn [after_move]; now apply IH.
  - (* the hard side is to move *)
    assert (p = negb u) by (destruct p, u; try reflexivity; now elim Q). subst p.
    destruct (hard_turn k s L N NF) as (j & I & E & NW).
    rewrite (bind_run _ _ _ _ _ E).
    destruct (after_facts s (negb u) j L I) as (L' & _).
    destruct (result_cases (after s (negb u) j) (negb u) j) as [T|[T|T]];
      rewrite T in *.
    + cbn. destruct u; cbn; discriminate.
    + cbn. now destruct u.
    + cbn [after_move]. apply IH; [exact L'|now apply blanks_after; rewrite ?T|].
      intros F. apply NW. right. now split.
Qed.

End Hard.

(** X8.  The hard strategy does not lose: in a game from the empty board
    in which one side is played at level "hard", whoever plays the other
    side, whatever is typed and whatever the generator draws, and however
    long the loop runs, [play] (the search deep enough) never returns the
    mark of the other side. *)
Theorem hard_never_loses (fuel depth : nat) (opponent : str)
    (input : nat -> str) (draws : nat -> nat) (k : nat) :
  (9 <= depth)%nat ->
  fst (play fuel depth (lit "hard") opponent input draws k initial_game)
    <> Ret tag_O /\
  fst (play fuel depth opponent (lit "hard") input draws k initial_game)
    <> Ret tag_X.
Proof.
  intros D. rewrite initial_game_board. split.
  - apply (hard_holds depth (lit "hard") opponent input draws false D eq_refl);
      [reflexivity|discriminate|apply initial_game_even].
  - apply (hard_holds depth opponent (lit "hard") input draws true D eq_refl);
      [reflexivity|discriminate|apply initial_game_even].
Qed.

End Loop.

(** ** What the loop announces *)

Lemma line_through_or_apart l x y :
  In l lines -> 0 <= x <= 2 -> 0 <= y <= 2 ->
  In l (lines_through x y) \/
  Forall (fun c => c <> (x, y) /\ 0 <= fst c <= 2 /\ 0 <= snd c <= 2) l.
Proof.
  intros I Hx Hy. unfold lines in I. simpl in I.
  three_cases x; three_cases y;
    repeat destruct I as [<-|I]; try contradiction;
    first [ left; cbv; tauto
          | right; repeat constructor; cbn; try lia; discriminate ].
Qed.

Lemma line_through_cell l x y :
  In l (lines_through x y) -> In l lines /\ In (x, y) l.
Proof.
  intros I. apply filter_In in I as [I E]. split; [exact I|].
  apply existsb_exists in E as ([a b] & Id & S).
  unfold same_cell in S. cbn [fst snd] in S.
  apply andb_true_iff in S as [Sa Sb].
  apply Z.eqb_eq in Sa, Sb. now subst.
Qed.

Section Announce.
Context {U : UnicodeData}.

Lemma place_move_outcome coordinates g t g' :
  three_by_three (grid g) ->
  place_move coordinates g = (Ret t, g') -> is_result t = true ->
  exists x y, 0 <= x <= 2 /\ 0 <= y <= 2 /\ content g (x, y) = Some blank /\
    g' = Game (grid_set (grid g) x y (mark_of (player g))) (negb (player g)) /\
    t = if existsb (line_winsb g') (lines_through x y) then tag_of (player g)
        else if negb (count blank (List.concat (grid g')) =? 0)
             then not_finished else draw.
Proof.
  intros W. rewrite place_move_unfold.
  destruct (split coordinates) as [|x [|y [|z l]]];
    try (intros H R; inversion H; subst; discriminate).
  destruct (negb (isdigit x) || negb (isdigit y));
    [intros H R; inversion H; subst; discriminate|].
  destruct (int x) as [vx|]; [|discriminate].
  destruct (int y) as [vy|]; [|discriminate].
  cbn [or_raise bind ret].
  destruct (in_range (vx - 1) (vy - 1)) eqn:I;
    [|intros H R; inversion H; subst; discriminate].
  apply in_range_iff in I. intros H R.
  destruct (content g (vx - 1, vy - 1)) as [c|] eqn:C.
  - destruct (char_eqb_spec c blank) as [->|N].
    + exists (vx - 1), (vy - 1).
      split; [lia|split; [lia|split; [exact C|]]].
      rewrite place_at_run in H by (auto; lia).
      set (g1 := Game _ _) in H.
      rewrite (game_state_eq g1 (vx - 1) (vy - 1) (mark_of (player g))) in H.
      * cbn [player g1] in H. rewrite negb_involutive in H.
        inversion H; subst g'. split; reflexivity.
      * apply three_by_three_grid_set; auto; lia.
      * lia.
      * lia.
      * apply content_grid_set; auto; lia.
      * now destruct (player g).
    + exfalso. unfold place_at in H.
      rewrite (bind_run _ _ _ _ _ (content_cell _ _ _ _ C)) in H.
      destruct (char_eqb_spec c blank); [contradiction|].
      inversion H; subst. discriminate.
  - exfalso. unfold content in C. cbn [fst snd] in C.
    unfold place_at, bind in H.
    destruct (cell (vx - 1) (vy - 1) g) as [[c| |] g1]; discriminate.
Qed.

(** No line of the board holds three equal marks. *)
Definition no_line (g : game) : Prop := forall l, In l lines -> ~ line_wins g l.

(** The position an accepted move leaves. *)
Lemma place_move_position coordinates g t g' :
  three_by_three (grid g) -> no_line g ->
  place_move coordinates g = (Ret t, g') -> is_result t = true ->
  three_by_three (grid g') /\
  (t = tag_of (player g) /\ player g' = negb (player g) /\
   (exists l, In l lines /\
      Forall (fun c => content g' c = Some (mark_of (player g))) l) \/
   t = draw /\ ~ has_blank g' /\ no_line g' \/
   t = not_finished /\ has_blank g' /\ no_line g').
Proof.
  intros W NL H R.
  destruct (place_move_outcome _ _ _ _ W H R) as (x & y & Hx & Hy & B & Eg & Et).
  assert (W' : three_by_three (grid g')).
  { subst g'. cbn [grid]. now apply three_by_three_grid_set. }
  split; [exact W'|].
  assert (Cxy : content g' (x, y) = Some (mark_of (player g))).
  { subst g'. now apply content_grid_set. }
  destruct (existsb (line_winsb g') (lines_through x y)) eqn:E.
  - left. split; [exact Et|]. split; [now subst g'|].
    apply won_iff in E as (l & I & (m & Nm & F)).
    apply line_through_cell in I as [I Ixy]. exists l. split; [exact I|].
    rewrite Forall_forall in F. pose proof (F _ Ixy) as Em.
    rewrite Cxy in Em. inversion Em; subst m. now apply Forall_forall.
  - assert (NL' : no_line g').
    { intros l I Wl.
      destruct (line_through_or_apart l x y I Hx Hy) as [T|A].
      - assert (Ex : existsb (line_winsb g') (lines_through x y) = true)
          by (apply won_iff; eauto).
        congruence.
      - apply (NL l I). destruct Wl as (m & Nm & F). exists m. split; [exact Nm|].
        rewrite Forall_forall in *. intros [a b] Ic.
        destruct (A _ Ic) as (Nc & Ha & Hb). cbn [fst snd] in Ha, Hb.
        rewrite <- (F _ Ic). subst g'. symmetry.
        destruct g as [gr p]. cbn [grid player].
        now apply content_grid_set_other. }
    right.
    destruct (Z.eqb_spec (count blank (List.concat (grid g'))) 0) as [Z|Z];
      cbn [negb] in Et.
    + left. split; [exact Et|]. split; [now apply count_zero_iff|exact NL'].
    + right. split; [exact Et|]. split; [now apply count_nonzero_iff|exact NL'].
Qed.

Lemma has_blank_dec g : {has_blank g} + {~ has_blank g}.
Proof. apply (In_dec N.eq_dec). Qed.

(** The move of a turn of the loop is a call of [place_move] on the
    board as it is. *)
Lemma turn_move_place depth x_player o_player input draws k g t g1 :
  three_by_three (grid g) -> (9 <= depth)%nat ->
  turn_move depth x_player o_player input draws k (player g) g = (Ret t, g1) ->
  exists coordinates, place_move coordinates g = (Ret t, g1).
Proof.
  intros W D. unfold turn_move.
  match goal with |- context [if ?c then _ else _] => destruct c end.
  - intros H. now exists (input k).
  - intros H. apply bind_ret_inv in H as (c & g0 & G & P).
    destruct (has_blank_dec g) as [B|N].
    + destruct (get_coordinates_some depth (draws k)
                  (if tag_eqb (tag_of (player g)) tag_X then x_player else o_player)
                  g W B D) as (m & E & _).
      rewrite E in G. inversion G; subst. now exists (format m).
    + rewrite (get_coordinates_none depth (draws k) _ g W N) in G. discriminate.
Qed.

Lemma play_position fuel depth x_player o_player input draws :
  (9 <= depth)%nat ->
  forall k g t g',
  three_by_three (grid g) -> no_line g ->
  play fuel depth x_player o_player input draws k g = (Ret t, g') ->
  three_by_three (grid g') /\
  (t = tag_of (negb (player g')) /\
   (exists l, In l lines /\
      Forall (fun c => content g' c = Some (mark_of (negb (player g')))) l) \/
   t = draw /\ ~ has_blank g' /\ no_line g').
Proof.
  intros D. induction fuel as [|fuel IH]; intros k g t g' W NL H; [discriminate|].
  rewrite play_step in H. apply bind_ret_inv in H as (mr & g1 & T & A).
  apply turn_move_place in T as (coordinates & P); auto.
  destruct (is_result mr) eqn:R.
  - destruct (place_move_position _ _ _ _ W NL P R)
      as (W1 & [(E & Ep & L)|[(E & F & NL1)|(E & B & NL1)]]).
    + assert (mr = t /\ g1 = g') as [<- <-].
      { rewrite E in A. destruct (player g); now inversion A. }
      split; [exact W1|]. left. rewrite Ep, negb_involutive. auto.
    + subst mr. inversion A; subst. split; [exact W1|]. right. auto.
    + subst mr. cbn [after_move] in A. exact (IH _ _ _ _ W1 NL1 A).
  - assert (g1 = g).
    { apply (place_move_failure_state _ _ _ _ P). unfold is_failure. now rewrite R. }
    subst g1. destruct mr; try discriminate R; cbn [after_move] in A;
      exact (IH _ _ _ _ W NL A).
Qed.

(** X9.  What [play] announces is on the board it leaves: in a game from
    a three-by-three board without a line of three equal marks, when
    [play] returns 'X' or 'O' some line of the final board holds three of
    that mark and the other player would be next, and when it returns
    'draw' the final board is full and has no line of three equal marks;
    it returns nothing else. *)
Theorem play_announces (fuel depth : nat) (x_player o_player : str)
    (input : nat -> str) (draws : nat -> nat) (k : nat) (g : game)
    (t : tag) (g' : game) :
  (9 <= depth)%nat ->
  three_by_three (grid g) ->
  (forall l, In l lines -> ~ line_wins g l) ->
  play fuel depth x_player o_player input draws k g = (Ret t, g') ->
  three_by_three (grid g') /\
  ((t = tag_X \/ t = tag_O) /\ t = tag_of (negb (player g')) /\
   (exists l, In l lines /\
      Forall (fun c => content g' c = Some (mark_of (negb (player g')))) l) \/
   t = draw /\ ~ has_blank g' /\ (forall l, In l lines -> ~ line_wins g' l)).
Proof.
  intros D W NL H.
  destruct (play_position fuel depth x_player o_player input draws D k g t g' W NL H)
    as (W' & [(E & L)|(E & F & NL')]).
  - split; [exact W'|]. left. split; [|auto].
    rewrite E. destruct (player g'); auto.
  - split; [exact W'|]. right. auto.
Qed.

(** X10.  A line that [place_move] rejects costs the user nothing: when
    it is the turn of a side played by "user" and the line typed is
    rejected, [play] goes on as if the line had not been typed, on the
    same board and with the same player to move. *)
Theorem play_rejected_line (fuel depth : nat) (x_player o_player : str)
    (input : nat -> str) (draws : nat -> nat) (k : nat) (g : game)
    (t : tag) (g1 : game) :
  (if player g then x_player else o_player) = lit "user" ->
  place_move (input k) g = (Ret t, g1) -> is_failure t = true ->
  g1 = g /\
  play (S fuel) depth x_player o_player input draws k g =
  play fuel depth x_player o_player input draws (S k) g.
Proof.
  intros Us P F.
  assert (E : g1 = g) by exact (place_move_failure_state _ _ _ _ P F).
  subst g1. split; [reflexivity|].
  rewrite play_step. unfold turn_move.
  assert (C : (str_eqb x_player (lit "user") && tag_eqb (tag_of (player g)) tag_X) ||
              (str_eqb o_player (lit "user") && tag_eqb (tag_of (player g)) tag_O)
              = true).
  { destruct (player g); rewrite Us; cbn; [reflexivity|apply orb_true_r]. }
  rewrite C, (bind_run _ _ _ _ _ P).
  destruct t; try discriminate F; reflexivity.
Qed.

End Announce.

(** ** The value of the search *)

Section SearchValue.
Context {U : UnicodeData}.

(** X11.  On a three-by-three board reached by a move that answered
    [move_result], [min_max_algorithm], called with [maximizing] set when
    the player to move is [computer_player] and deep enough, returns and
    leaves the board as it was, and what it returns is 1 when
    [computer_player] has won or wins by force, -1 when the opponent has
    won or wins by force, and 0 otherwise; called with 'not_finished' on a
    full board it raises [ValueError], out of [max] or [min] of the empty
    list. *)
Theorem min_max_algorithm_value (g : game) :
  three_by_three (grid g) ->
  (forall depth move_result q,
     is_result move_result = true ->
     (move_result = not_finished -> has_blank g) ->
     count blank (List.concat (grid g)) < Z.of_nat depth ->
     exists v,
       min_max_algorithm depth move_result (tag_of q) (Bool.eqb (player g) q) g
         = (Ret v, g) /\
       (v = 1 \/ v = 0 \/ v = -1) /\
       (v = 1 <-> wins q move_result g) /\
       (v = -1 <-> wins (negb q) move_result g)) /\
  (~ has_blank g ->
   forall depth computer_player maximizing,
     min_max_algorithm (S depth) not_finished computer_player maximizing g
       = (Raise ValueError, g)).
Proof.
  intros W. split.
  - intros depth r q R B C.
    pose proof (length_concat_grid _ W) as L.
    rewrite (board_of_grid g W). set (s := List.concat (grid g)) in *.
    set (p := player g). cbn [player board].
    assert (N : r = not_finished -> count blank s <> 0).
    { intros E. apply count_nonzero_iff. exact (B E). }
    destruct (score_spec depth s p r q L C R N) as (v & E & V).
    exists v. split; [exact (score_run depth s p r (tag_of q) _ v L E)|].
    split; [pose proof (value_ok_range _ _ _ _ V); lia|].
    split; split.
    + intros ->. destruct V as [[_ ?]|[[? _]|[? _]]]; auto; discriminate.
    + exact (value_ok_won _ _ _ _ V).
    + intros ->. destruct V as [[? _]|[[_ ?]|[? _]]]; auto; discriminate.
    + exact (value_ok_lost _ _ _ _ V).
  - intros N depth c mx. rewrite min_max_algorithm_unfold. cbn [tag_eqb negb].
    rewrite (bind_run _ _ _ _ _ (get_blank_coordinates_run g W)).
    rewrite (proj2 (blank_cells_nil_iff g W) N). cbn [for_each].
    rewrite (bind_run (ret []) _ g [] g eq_refl). now destruct mx.
Qed.

End SearchValue.

(** ** The first of the best cells *)

Section FirstBest.
Context {U : UnicodeData}.

(** The score [get_best_coordinates] gives a cell: the move is made,
    searched and undone. *)
Definition move_score (depth : nat) (computer_player : tag) (coordinates : Z * Z)
    : M Z :=
  move_result <- place_move (format coordinates) ;;
  score <- min_max_algorithm depth move_result computer_player false ;;
  undo_move coordinates ;;;
  ret score.

Lemma move_score_run depth s p j :
  List.length s = 9%nat -> count blank s <= Z.of_nat depth -> In j (blanks s) ->
  move_score depth (tag_of p) (coords j) (board s p) =
  (Ret (child_value depth s p j), board s p).
Proof.
  intros L C I. destruct (move_run s p j L I) as [P Un].
  destruct (child_score_spec depth s p j L C I) as [E _].
  unfold move_score. rewrite (bind_run _ _ _ _ _ P).
  assert (L' : List.length (update s j (mark_of p)) = 9%nat)
    by now rewrite length_update.
  rewrite (bind_run _ _ _ _ _ (score_run depth _ _ _ _ _ _ L' E)).
  now rewrite (bind_run _ _ _ _ _ Un).
Qed.

(** What the loop holds after the cells [seen]: nothing, or the first of
    the cells of highest score. *)
Definition first_best (depth : nat) (s : str) (p : bool) (seen : list nat)
    (b : option Z * option (Z * Z)) : Prop :=
  (seen = [] /\ b = (None, None)) \/
  exists l1 j l2, seen = l1 ++ j :: l2 /\
    b = (Some (child_value depth s p j), Some (coords j)) /\
    (forall j', In j' l1 -> child_value depth s p j' < child_value depth s p j) /\
    (forall j', In j' l2 -> child_value depth s p j' <= child_value depth s p j).

Lemma best_from_first depth s p l :
  (forall j, In j l -> child_score depth s p j = Some (child_value depth s p j)) ->
  forall seen b, first_best depth s p seen b ->
  exists r, best_from depth s p l b = Some r /\
            first_best depth s p (seen ++ l) r.
Proof.
  induction l as [|j l IH]; intros H seen b G.
  - exists b. rewrite app_nil_r. now split.
  - cbn [best_from]. fold (child_score depth s p j).
    rewrite (H j (or_introl eq_refl)).
    replace (seen ++ j :: l) with ((seen ++ [j]) ++ l)
      by (now rewrite <- app_assoc).
    apply IH; [intros j' I; apply H; now right|].
    destruct G as [[-> ->]|(l1 & j1 & l2 & -> & -> & Lt & Le)].
    + right. exists [], j, []. cbn. repeat split; try reflexivity; contradiction.
    + cbn [fst exceeds].
      destruct (Z.gtb_spec (child_value depth s p j) (child_value depth s p j1)).
      * right. exists (l1 ++ j1 :: l2), j, [].
        split; [reflexivity|]. split; [reflexivity|]. split; [|contradiction].
        intros j' I'. apply in_app_or in I' as [I'|[<-|I']];
          [specialize (Lt j' I')|idtac|specialize (Le j' I')]; lia.
      * right. exists l1, j1, (l2 ++ [j]).
        split; [now rewrite <- app_assoc|]. split; [reflexivity|].
        split; [exact Lt|]. intros j' I'.
        apply in_app_or in I' as [I'|[<-|[]]]; [exact (Le j' I')|lia].
Qed.

Lemma blanks_from_sorted n s :
  StronglySorted lt (blanks_from n s) /\
  Forall (fun j => (n <= j)%nat) (blanks_from n s).
Proof.
  revert n. induction s as [|c s IH]; intros n; [split; constructor|].
  cbn [blanks_from]. destruct (IH (S n)) as [S1 F1].
  assert (F : Forall (fun j => (n <= j)%nat) (blanks_from (S n) s)).
  { eapply Forall_impl; [|exact F1]. cbn. intros; lia. }
  destruct (char_eqb c blank).
  - split; [constructor; [exact S1|exact F1]|constructor; [lia|exact F]].
  - now split.
Qed.

Lemma sorted_split (l1 l2 : list nat) j :
  StronglySorted lt (l1 ++ j :: l2) -> forall j', In j' l2 -> (j < j')%nat.
Proof.
  induction l1 as [|a l1 IH]; cbn; intros S j' I.
  - inversion S as [|? ? _ F]; subst. rewrite Forall_forall in F. now apply F.
  - inversion S; subst. now apply IH.
Qed.

Lemma before_coords a b :
  (a < 9)%nat -> (b < 9)%nat -> before (coords a) (coords b) -> (a < b)%nat.
Proof.
  intros A B.
  do 9 (destruct a as [|a]; [do 9 (destruct b as [|b]; [cbv; try lia; discriminate|]); lia|]).
  lia.
Qed.

(** X12.  On a three-by-three board with a blank cell
    [get_best_coordinates] returns the first, in row-major order, of the
    blank cells of highest score: every blank cell scores no more, and
    every blank cell before it scores less; the score of a cell is what
    the search returns once the cell is played, the cell being cleared
    again. *)
Theorem get_best_coordinates_first (depth : nat) (g : game) :
  three_by_three (grid g) -> has_blank g -> (9 <= depth)%nat ->
  exists m v,
    get_best_coordinates depth g = (Ret (Some m), g) /\
    blank_cell g m /\
    move_score depth (tag_of (player g)) m g = (Ret v, g) /\
    forall m', blank_cell g m' ->
      exists v', move_score depth (tag_of (player g)) m' g = (Ret v', g) /\
                 v' <= v /\ (before m' m -> v' < v).
Proof.
  intros W B D. destruct (board_with_blank g W B) as (s & L & E & N).
  set (p := player g) in *. clearbody p. subst g.
  assert (C : count blank s <= Z.of_nat depth).
  { pose proof (count_le_length blank s). lia. }
  destruct (best_from_first depth s p (blanks s)
              (fun j I => proj1 (child_score_spec depth s p j L C I))
              [] (None, None) (or_introl (conj eq_refl eq_refl)))
    as (r & Er & G).
  cbn [app] in G.
  destruct G as [[Q _]|(l1 & j & l2 & Eb & -> & Lt & Le)]; [congruence|].
  assert (I : In j (blanks s)) by (rewrite Eb; apply in_elt).
  exists (coords j), (child_value depth s p j).
  split. { apply best_run; [exact L|]. unfold best. now rewrite Er. }
  split. { apply blank_cells_iff. rewrite blank_cells_board by exact L.
           now apply in_map. }
  split; [now apply move_score_run|].
  intros m' Bm. apply blank_cells_iff in Bm.
  rewrite blank_cells_board in Bm by exact L.
  apply in_map_iff in Bm as (j' & <- & I').
  exists (child_value depth s p j'). split; [now apply move_score_run|].
  pose proof (proj1 (blanks_from_sorted 0 s)) as Srt. fold (blanks s) in Srt.
  rewrite Eb in Srt, I'.
  apply in_app_or in I' as [I1|[<-|I2]].
  - specialize (Lt j' I1). split; [lia|intros _; exact Lt].
  - split; [lia|]. unfold before. lia.
  - split; [exact (Le j' I2)|]. intros Bf. exfalso.
    pose proof (sorted_split _ _ _ Srt j' I2) as Gt.
    assert (J : (j < 9)%nat) by (apply blanks_in in I; lia).
    assert (J' : (j' < 9)%nat).
    { assert (Ib : In j' (blanks s)) by (rewrite Eb; apply in_or_app; right; now right).
      apply blanks_in in Ib. lia. }
    pose proof (before_coords j' j J' J Bf). lia.
Qed.

End FirstBest.

(** ** Undoing without checking *)

(** The index a coordinate of [undo_move] addresses: Python counts a
    negative subscript from the end. *)
Definition wrapped (i : Z) : Z := if i <=? 0 then i + 3 else i.

(** X13.  [undo_move] checks nothing.  On a three-by-three board, with
    both coordinates from 1 to 3 it clears the cell whatever it holds and
    gives the turn to the other player; a coordinate from -2 to 0
    addresses the row or column counted from the end, so that (0, 0)
    clears the cell (3, 3); with any other coordinate the call raises
    [IndexError] and changes nothing. *)
Theorem undo_move_unchecked (g : game) (r c : Z) :
  three_by_three (grid g) ->
  (-2 <= r <= 3 /\ -2 <= c <= 3 ->
   undo_move (r, c) g =
     (Ret tt, Game (grid_set (grid g) (wrapped r - 1) (wrapped c - 1) blank)
                   (negb (player g)))) /\
  (~ (-2 <= r <= 3 /\ -2 <= c <= 3) ->
   undo_move (r, c) g = (Raise IndexError, g)).
Proof.
  intros W. destruct g as [gr p]. cbn [grid player] in *. nine_cells gr W.
  split.
  - intros [Hr Hc].
    assert (R : r = -2 \/ r = -1 \/ r = 0 \/ r = 1 \/ r = 2 \/ r = 3) by lia.
    assert (C : c = -2 \/ c = -1 \/ c = 0 \/ c = 1 \/ c = 2 \/ c = 3) by lia.
    destruct R as [ -> | [ -> | [ -> | [ -> | [ -> | -> ] ] ] ] ],
             C as [ -> | [ -> | [ -> | [ -> | [ -> | -> ] ] ] ] ]; reflexivity.
  - intros N.
    assert (P : forall (A : Type) (l : list A) n,
              List.length l = 3%nat -> ~ (-3 <= n <= 2) -> position l n = None).
    { intros A l n L Hi. unfold position. rewrite L. change (Z.of_nat 3) with 3.
      destruct ((0 <=? n) && (n <? 3)) eqn:E1.
      { apply andb_true_iff in E1 as [A1 A2].
        apply Z.leb_le in A1. apply Z.ltb_lt in A2. lia. }
      destruct ((- (3) <=? n) && (n <? 0)) eqn:E2; [|reflexivity].
      apply andb_true_iff in E2 as [A1 A2].
      apply Z.leb_le in A1. apply Z.ltb_lt in A2. lia. }
    cbv [undo_move set_cell bind get_grid fst snd grid].
    destruct (getitem [[a; b; c0]; [d; e; f]; [g; h; i]] (r - 1)) as [row|] eqn:G;
      [|reflexivity].
    cbn [or_raise ret].
    assert (Lr : List.length row = 3%nat /\ -3 <= r - 1 <= 2).
    { unfold getitem in G.
      destruct (position [[a; b; c0]; [d; e; f]; [g; h; i]] (r - 1)) as [n|] eqn:Pn;
        [|discriminate].
      split.
      - destruct n as [|[|[|n]]]; cbn in G;
          [inversion G; reflexivity..|destruct n; discriminate].
      - destruct (Z_le_gt_dec (-3) (r - 1)) as [Lo|Lo];
          [destruct (Z_le_gt_dec (r - 1) 2) as [Hi|Hi]; [lia|]|];
          rewrite P in Pn by (try reflexivity; lia); discriminate. }
    destruct Lr as [Lr Rr]. unfold setitem at 1.
    rewrite (P _ row (c - 1) Lr) by lia. reflexivity.
Qed.

(** ** The picture of the board *)

Definition space : char := 32%N.
Definition newline : char := 10%N.

(** [sep.join(l)] for a list [l] of one-character strings. *)
Fixpoint join (sep : str) (l : list char) : str :=
  match l with
  | [] => []
  | [c] => [c]
  | c :: l' => c :: sep ++ join sep l'
  end.

(** [s.replace(a, b)] for one-character [a] and [b]. *)
Definition replace (a b : char) (s : str) : str :=
  map (fun c => if char_eqb c a then b else c) s.

(** [str(game)] *)
Definition __str__ : M str :=
  let render := lit "---------" ++ [newline] in
  render <- for_fold [0; 1; 2] render (fun render i =>
    gr <- get_grid ;;
    row <- or_raise IndexError (getitem gr i) ;;
    ret (render ++
         replace blank space
           (lit "| " ++ join (lit " ") row ++ lit " |" ++ [newline]))) ;;
  ret (render ++ lit "---------").

(** [l.count(x)] for a list of rows. *)
Definition count_rows (x : list char) (l : list (list char)) : Z :=
  Z.of_nat (List.length (filter (fun row => str_eqb row x) l)).

Definition has_initial_condition : M bool :=
  gr <- get_grid ;;
  ret (negb (count_rows [blank; blank; blank] gr =? 3)).

(** What a cell looks like in the picture. *)
Definition shown (v : char) : char := if char_eqb v blank then space else v.

Lemma str_run a b c d e f g h i p :
  __str__ (Game [[a; b; c]; [d; e; f]; [g; h; i]] p) =
  (Ret (lit "---------" ++ [newline] ++
        lit "| " ++ [shown a; space; shown b; space; shown c] ++ lit " |" ++ [newline] ++
        lit "| " ++ [shown d; space; shown e; space; shown f] ++ lit " |" ++ [newline] ++
        lit "| " ++ [shown g; space; shown h; space; shown i] ++ lit " |" ++ [newline] ++
        lit "---------"),
   Game [[a; b; c]; [d; e; f]; [g; h; i]] p).
Proof. reflexivity. Qed.

Lemma shown_not_blank v : shown v <> blank.
Proof.
  unfold shown. destruct (char_eqb_spec v blank); [discriminate|assumption].
Qed.

Lemma shown_cell u v : is_cell u -> is_cell v -> shown u = shown v -> u = v.
Proof.
  intros [ -> | [ -> | -> ] ] [ -> | [ -> | -> ] ]; try reflexivity; discriminate.
Qed.

(** X14.  On a three-by-three board [__str__] returns a picture of 49
    characters and leaves the board alone: the cell in row [x] and column
    [y] (from 0) is shown at position 12 + 10 x + 2 y, a blank as a space
    and a mark as itself, so that no '_' is in the picture; and two boards
    of marks and blanks with the same picture are the same board. *)
Theorem str_shows_board (g : game) :
  three_by_three (grid g) ->
  exists s,
    __str__ g = (Ret s, g) /\
    List.length s = 49%nat /\
    (forall x y v, 0 <= x <= 2 -> 0 <= y <= 2 -> content g (x, y) = Some v ->
       nth_error s (Z.to_nat (12 + 10 * x + 2 * y)) = Some (shown v)) /\
    ~ In blank s /\
    (forall g2, three_by_three (grid g2) ->
       Forall is_cell (List.concat (grid g)) ->
       Forall is_cell (List.concat (grid g2)) ->
       fst (__str__ g2) = Ret s -> grid g2 = grid g).
Proof.
  intros W. destruct g as [gr p]. cbn [grid] in *. nine_cells gr W.
  eexists. split; [apply str_run|]. split; [reflexivity|]. split; [|split].
  - intros x y v Hx Hy C.
    three_cases x; three_cases y; cbv in C; inversion C; subst; reflexivity.
  - match goal with
    | |- ~ In blank ?s => assert (F : Forall (fun c => c <> blank) s)
    end.
    { cbn.
      repeat (apply Forall_cons;
              [first [apply shown_not_blank | cbv; discriminate]|]).
      apply Forall_nil. }
    intros I. rewrite Forall_forall in F. exact (F _ I eq_refl).
  - intros [gr2 p2] W2 F F2 E. cbn [grid] in *. nine_cells gr2 W2.
    rewrite str_run in E. cbn [fst] in E.
    cbn in F, F2. rewrite !Forall_cons_iff in F, F2.
    decompose [and] F. decompose [and] F2. clear F F2.
    inversion E.
    repeat match goal with
    | H : shown ?u = shown ?v |- _ =>
        apply shown_cell in H; [subst|assumption|assumption]
    end.
    reflexivity.
Qed.

Definition blank_row : list char := [blank; blank; blank].

Lemma has_initial_condition_run g :
  three_by_three (grid g) ->
  has_initial_condition g =
  (Ret (negb (forallb (fun row => str_eqb row blank_row) (grid g))), g).
Proof.
  intros W. destruct g as [gr p]. cbn [grid] in *. nine_cells gr W.
  unfold has_initial_condition, bind, get_grid, ret, count_rows.
  cbn [grid filter forallb]. fold blank_row.
  destruct (str_eqb [a; b; c] blank_row), (str_eqb [d; e; f] blank_row),
           (str_eqb [g; h; i] blank_row); reflexivity.
Qed.

Lemma empty_grid_iff gr :
  three_by_three gr ->
  (forallb (fun row => str_eqb row blank_row) gr = true <-> gr = empty_grid).
Proof.
  intros W. nine_cells gr W. cbn [forallb]. rewrite andb_true_r, !andb_true_iff.
  rewrite !str_eqb_eq. unfold empty_grid, blank_row.
  split; [intros (-> & -> & ->); reflexivity|intros E; now inversion E].
Qed.

(** X15.  On a three-by-three board [has_initial_condition] leaves the
    board alone and answers False exactly when the grid is the empty
    grid, whether a preset was given or not: it is False on a new game and
    on the preset of nine blanks, and True after every accepted move. *)
Theorem has_initial_condition_empty {U : UnicodeData} (g : game) :
  three_by_three (grid g) ->
  (exists b, has_initial_condition g = (Ret b, g) /\
             (b = false <-> grid g = empty_grid)) /\
  has_initial_condition initial_game = (Ret false, initial_game) /\
  fst (has_initial_condition (fst (init (Some (lit "_________"))))) = Ret false /\
  (forall coordinates t g',
     place_move coordinates g = (Ret t, g') -> is_result t = true ->
     has_initial_condition g' = (Ret true, g')).
Proof.
  intros W. split; [|split; [reflexivity|split; [reflexivity|]]].
  - eexists. split; [now apply has_initial_condition_run|].
    rewrite negb_false_iff. now apply empty_grid_iff.
  - intros coordinates t g' P R.
    destruct (place_move_outcome _ _ _ _ W P R) as (x & y & Hx & Hy & B & Eg & _).
    assert (W' : three_by_three (grid g')).
    { subst g'. now apply three_by_three_grid_set. }
    rewrite has_initial_condition_run by exact W'. f_equal. f_equal.
    apply negb_true_iff, not_true_is_false. intros E.
    apply (empty_grid_iff _ W') in E.
    assert (C : content g' (x, y) = Some (mark_of (player g))).
    { subst g'. now apply content_grid_set. }
    clear Eg P. destruct g' as [gr' p']. cbn [grid] in E. subst gr'.
    destruct (player g);
      three_cases x; three_cases y; cbv in C; discriminate.
Qed.

(** ** The command loop [new_game] *)

(** The lower-case mapping above U+00FF: what the character [c] becomes
    between the text [before] and the text [after] (the mapping of the
    capital sigma looks at both). *)
Class UnicodeCase := {
  u_lower : str -> N -> str -> str
}.

Definition plain_case : UnicodeCase := {| u_lower := fun _ c _ => [c] |}.

Section Commands.
Context {U : UnicodeData} {V : UnicodeCase}.

(** The lower-case mapping of one character up to U+00FF. *)
Definition lower_char (c : char) : char :=
  if between 65 90 c then N.add c 32
  else if between 192 222 c && negb (N.eqb c 215) then N.add c 32
  else c.

Fixpoint lower_from (before s : str) : str :=
  match s with
  | [] => []
  | c :: s' =>
      (if N.ltb c 256 then [lower_char c] else u_lower before c s')
      ++ lower_from (before ++ [c]) s'
  end.

(** [s.lower()] *)
Definition lower (s : str) : str := lower_from [] s.

Definition levels : list str :=
  [lit "user"; lit "easy"; lit "medium"; lit "hard"].

(** [x in l] for a list of strings. *)
Definition member (x : str) (l : list str) : bool := existsb (str_eqb x) l.

(** What [new_game] ends with: the value returned, [None] for [return
    None], the number of lines read and the lines printed. *)
Record session := Session {
  returned : outcome (option (game * str * str));
  lines_read : nat;
  printed : list str
}.

(** [print(game)] *)
Definition print_game (game : game) (out : list str) : outcome unit * list str :=
  match fst (__str__ game) with
  | Ret picture => (Ret tt, out ++ [picture])
  | Raise e => (Raise e, out)
  | NoFuel => (NoFuel, out)
  end.

(** The loop of [new_game] from its round [k], [game] being the board
    held and [out] the lines printed so far; [input k] is the line typed
    at round [k]. *)
Fixpoint new_game_from (fuel : nat) (input : nat -> str) (k : nat)
    (game : game) (out : list str) : session :=
  match fuel with
  | O => Session NoFuel k out
  | S fuel' =>
      let command := split (lower (input k)) in
      match getitem command 0 with
      | None => Session (Raise IndexError) (S k) out
      | Some command0 =>
          if str_eqb command0 (lit "preset") then
            match getitem command 1 with
            | None => Session (Raise IndexError) (S k) out
            | Some command1 =>
                let (game', said) := init (Some command1) in
                match print_game game' (out ++ said) with
                | (Ret _, out') => new_game_from fuel' input (S k) game' out'
                | (Raise e, out') => Session (Raise e) (S k) out'
                | (NoFuel, out') => Session NoFuel (S k) out'
                end
            end
          else if str_eqb command0 (lit "start") &&
                  (Z.of_nat (List.length command) =? 3) &&
                  match getitem command 1 with
                  | Some command1 => member command1 levels
                  | None => false
                  end &&
                  match getitem command 2 with
                  | Some command2 => member command2 levels
                  | None => false
                  end
          then
            match print_game game out with
            | (Ret _, out') =>
                match getitem command 1, getitem command 2 with
                | Some command1, Some command2 =>
                    Session (Ret (Some (game, command1, command2))) (S k) out'
                | _, _ => Session (Raise IndexError) (S k) out'
                end
            | (Raise e, out') => Session (Raise e) (S k) out'
            | (NoFuel, out') => Session NoFuel (S k) out'
            end
          else if str_eqb command0 (lit "exit") then
            Session (Ret None) (S k) out
          else
            new_game_from fuel' input (S k) game (out ++ [lit "Bad parameters!"])
      end
  end.

Definition new_game (fuel : nat) (input : nat -> str) : session :=
  new_game_from fuel input 0 initial_game [].

(** *** Subscripts of the command *)

Lemma getitem_nat {A} (l : list A) (n : nat) :
  getitem l (Z.of_nat n) = nth_error l n.
Proof.
  unfold getitem, position.
  destruct (Z.ltb_spec (Z.of_nat n) (Z.of_nat (List.length l))) as [Lt|Ge].
  - replace (0 <=? Z.of_nat n) with true by (symmetry; apply Z.leb_le; lia).
    cbn [andb]. now rewrite Nat2Z.id.
  - rewrite andb_false_r.
    replace (Z.of_nat n <? 0) with false by (symmetry; apply Z.ltb_ge; lia).
    rewrite andb_false_r. symmetry. apply nth_error_None. lia.
Qed.

Lemma getitem_0 {A} (l : list A) : getitem l 0 = nth_error l 0.
Proof. exact (getitem_nat l 0). Qed.

Lemma getitem_1 {A} (l : list A) : getitem l 1 = nth_error l 1.
Proof. exact (getitem_nat l 1). Qed.

Lemma getitem_2 {A} (l : list A) : getitem l 2 = nth_error l 2.
Proof. exact (getitem_nat l 2). Qed.

Lemma member_iff x l : member x l = true <-> In x l.
Proof.
  unfold member. rewrite existsb_exists. split.
  - intros (y & I & E). apply str_eqb_eq in E. now subst.
  - intros I. exists x. split; [exact I|now apply str_eqb_eq].
Qed.

Lemma init_three_by_three ic : three_by_three (grid (fst (init ic))).
Proof.
  destruct ic as [ic|]; [|exact three_by_three_initial_game].
  unfold init.
  destruct ((Z.of_nat (List.length (upper ic)) =? 9) && _) eqn:E;
    [|exact three_by_three_initial_game].
  apply accepted_iff in E as [L _]. cbn [fst grid].
  nine_of (upper ic) L. split; [reflexivity|repeat constructor].
Qed.

Lemma print_game_run game out :
  three_by_three (grid game) ->
  exists picture,
    fst (__str__ game) = Ret picture /\
    print_game game out = (Ret tt, out ++ [picture]).
Proof.
  intros W. destruct game as [gr p]. cbn [grid] in W. nine_cells gr W.
  unfold print_game. rewrite str_run. cbn [fst]. eexists. split; reflexivity.
Qed.

(** What a session of [new_game] that began at round [k] has done. *)
Definition session_ok (input : nat -> str) (k : nat) (fuel : nat) (r : session)
    : Prop :=
  let last := split (lower (input (pred (lines_read r)))) in
  match returned r with
  | Ret (Some (g, x_player, o_player)) =>
      (k < lines_read r)%nat /\
      last = [lit "start"; x_player; o_player] /\
      In x_player levels /\ In o_player levels /\
      three_by_three (grid g) /\
      exists picture,
        fst (__str__ g) = Ret picture /\ List.last (printed r) [] = picture
  | Ret None =>
      (k < lines_read r)%nat /\ exists rest, last = lit "exit" :: rest
  | Raise e =>
      (k < lines_read r)%nat /\ e = IndexError /\
      (last = [] \/ last = [lit "preset"])
  | NoFuel => lines_read r = (k + fuel)%nat
  end.

Lemma session_ok_next input k fuel r :
  session_ok input (S k) fuel r -> session_ok input k (S fuel) r.
Proof.
  unfold session_ok. destruct (returned r) as [[[[g x] o]|]|e|].
  - intros (Lt & H). split; [lia|exact H].
  - intros (Lt & H). split; [lia|exact H].
  - intros (Lt & H). split; [lia|exact H].
  - lia.
Qed.

Lemma new_game_from_ok fuel input :
  forall k game out,
  three_by_three (grid game) ->
  session_ok input k fuel (new_game_from fuel input k game out).
Proof.
  induction fuel as [|fuel IH]; intros k game out W.
  { unfold session_ok. cbn. lia. }
  cbn [new_game_from]. set (command := split (lower (input k))).
  rewrite getitem_0, getitem_1, getitem_2.
  destruct command as [|c0 rest] eqn:Ec; cbn [nth_error].
  { unfold session_ok. cbn. fold command. rewrite Ec. auto. }
  destruct (str_eqb c0 (lit "preset")) eqn:P.
  { apply str_eqb_eq in P. subst c0.
    destruct rest as [|c1 rest]; cbn [nth_error].
    { unfold session_ok. cbn. fold command. rewrite Ec. auto. }
    pose proof (init_three_by_three (Some c1)) as W1.
    destruct (init (Some c1)) as [game' said]. cbn [fst] in W1.
    destruct (print_game_run game' (out ++ said) W1) as (picture & _ & ->).
    apply session_ok_next, IH, W1. }
  match goal with |- context [if ?c then _ else _] => destruct c eqn:St end.
  { apply andb_true_iff in St as [St M2]. apply andb_true_iff in St as [St M1].
    apply andb_true_iff in St as [St L3].
    apply str_eqb_eq in St. subst c0. apply Z.eqb_eq in L3.
    destruct rest as [|c1 [|c2 [|c3 rest]]]; cbn in L3; try lia.
    cbn [nth_error] in *. apply member_iff in M1, M2.
    destruct (print_game_run game out W) as (picture & Pic & ->).
    unfold session_ok. cbn. fold command. rewrite Ec.
    split; [lia|]. split; [reflexivity|]. split; [exact M1|]. split; [exact M2|].
    split; [exact W|]. exists picture. split; [exact Pic|apply last_last]. }
  destruct (str_eqb c0 (lit "exit")) eqn:Ex.
  { apply str_eqb_eq in Ex. subst c0.
    unfold session_ok. cbn. fold command. rewrite Ec. split; [lia|now exists rest]. }
  apply session_ok_next, IH, W.
Qed.

(** X16.  How [new_game] can end.  When it returns a game, the last line
    read is, in lower case, "start" followed by two levels and nothing
    else, the two levels returned are among "user", "easy", "medium" and
    "hard", the board is three by three and its picture is the last thing
    printed; when it returns [None], the last line read begins with
    "exit"; when it raises, the exception is [IndexError] and the last
    line read is blank or is "preset" alone; otherwise every line read
    was another command. *)
Theorem new_game_outcome (fuel : nat) (input : nat -> str) :
  let r := new_game fuel input in
  let last := split (lower (input (pred (lines_read r)))) in
  match returned r with
  | Ret (Some (g, x_player, o_player)) =>
      (0 < lines_read r)%nat /\
      last = [lit "start"; x_player; o_player] /\
      In x_player levels /\ In o_player levels /\
      three_by_three (grid g) /\
      exists picture,
        fst (__str__ g) = Ret picture /\ List.last (printed r) [] = picture
  | Ret None =>
      (0 < lines_read r)%nat /\ exists rest, last = lit "exit" :: rest
  | Raise e =>
      (0 < lines_read r)%nat /\ e = IndexError /\
      (last = [] \/ last = [lit "preset"])
  | NoFuel => lines_read r = fuel
  end.
Proof.
  exact (new_game_from_ok fuel input 0 initial_game [] three_by_three_initial_game).
Qed.

(** *** The board [new_game] returns *)

(** The first word of the line typed at round [j]. *)
Definition first_word (input : nat -> str) (j : nat) : option str :=
  nth_error (split (lower (input j))) 0.

(** The board held at round [k]: that of the last "preset" before [k],
    or the new board when there was none. *)
Definition last_preset (input : nat -> str) (k : nat) (game : game) : Prop :=
  (game = initial_game /\
   forall j, (j < k)%nat -> first_word input j <> Some (lit "preset")) \/
  exists j c rest,
    (j < k)%nat /\
    split (lower (input j)) = lit "preset" :: c :: rest /\
    (forall j', (j < j' < k)%nat -> first_word input j' <> Some (lit "preset")) /\
    game = fst (init (Some c)).

Lemma last_preset_next input k game :
  last_preset input k game ->
  first_word input k <> Some (lit "preset") ->
  last_preset input (S k) game.
Proof.
  intros [[E N]|(j & c & rest & Lt & S & N & E)] F.
  - left. split; [exact E|]. intros j Lt.
    destruct (Nat.eq_dec j k) as [->|]; [exact F|apply N; lia].
  - right. exists j, c, rest. split; [lia|]. split; [exact S|]. split; [|exact E].
    intros j' Lt'. destruct (Nat.eq_dec j' k) as [->|]; [exact F|apply N; lia].
Qed.

Lemma new_game_from_board fuel input :
  forall k game out g x_player o_player,
  last_preset input k game ->
  returned (new_game_from fuel input k game out) =
    Ret (Some (g, x_player, o_player)) ->
  last_preset input (lines_read (new_game_from fuel input k game out)) g.
Proof.
  induction fuel as [|fuel IH]; intros k game out g x o Inv H; [discriminate|].
  cbn [new_game_from] in *.
  assert (Fw : first_word input k = nth_error (split (lower (input k))) 0)
    by reflexivity.
  set (command := split (lower (input k))) in *.
  rewrite getitem_0, getitem_1, getitem_2 in *.
  destruct command as [|c0 rest] eqn:Ec; cbn [nth_error] in *; [discriminate|].
  destruct (str_eqb c0 (lit "preset")) eqn:P.
  { apply str_eqb_eq in P. subst c0.
    destruct rest as [|c1 rest]; cbn [nth_error] in *; [discriminate|].
    destruct (init (Some c1)) as [game' said] eqn:I.
    destruct (print_game game' (out ++ said)) as [[[]|e|] out']; try discriminate.
    apply (IH (S k) game' out' g x o); [|exact H].
    right. exists k, c1, rest. split; [lia|]. split; [exact Ec|].
    split; [intros j' Lt'; lia|]. now rewrite I. }
  assert (NP : first_word input k <> Some (lit "preset")).
  { rewrite Fw. intros Q. inversion Q; subst c0.
    now rewrite (proj2 (str_eqb_eq _ _) eq_refl) in P. }
  match type of H with context [if ?c then _ else _] => destruct c end.
  { destruct (print_game game out) as [[[]|e|] out']; try discriminate.
    destruct rest as [|c1 [|c2 rest]]; cbn [nth_error] in *; try discriminate.
    cbn in H. inversion H; subst. cbn. now apply last_preset_next. }
  destruct (str_eqb c0 (lit "exit")); [discriminate|].
  apply (IH (S k) game _ g x o); [|exact H]. now apply last_preset_next.
Qed.

(** X17.  The board [new_game] returns is that of the last "preset"
    command typed, built by [TicTacToe] from its second word, and the new
    board when no "preset" was typed: every "preset" replaces the board
    held, so that a preset [TicTacToe] does not load puts the empty board
    back. *)
Theorem new_game_board (fuel : nat) (input : nat -> str)
    (g : game) (x_player o_player : str) :
  returned (new_game fuel input) = Ret (Some (g, x_player, o_player)) ->
  let n := lines_read (new_game fuel input) in
  (g = initial_game /\
   forall j, (j < n)%nat -> first_word input j <> Some (lit "preset")) \/
  exists j c rest,
    (j < n)%nat /\
    split (lower (input j)) = lit "preset" :: c :: rest /\
    (forall j', (j < j' < n)%nat -> first_word input j' <> Some (lit "preset")) /\
    g = fst (init (Some c)).
Proof.
  intros H. apply (new_game_from_board fuel input 0 initial_game [] g x_player o_player).
  - left. split; [reflexivity|]. intros j Lt. lia.
  - exact H.
Qed.

End Commands.

(** ** Instances *)

(** The lines typed, one a round. *)
Definition typed (l : list str) : nat -> str := fun k => nth k l [].

Lemma no_line_initial_game {U : UnicodeData} :
  forall l, In l lines -> ~ line_wins initial_game l.
Proof.
  intros l I (m & N & F). destruct (lines_have_three_cells l I) as (c1 & c2 & c3 & ->).
  inversion F as [|? ? H _]; subst.
  unfold lines in I. simpl in I.
  repeat destruct I as [I|I]; try contradiction; inversion I; subst;
    cbv in H; inversion H; subst; now apply N.
Qed.

Section Instances.
#[local] Existing Instance plain_unicode.
#[local] Existing Instance plain_case.

Lemma play_automatic_ends_witness :
  exists t g',
    play 9 9 (lit "easy") (lit "medium") (typed []) (fun k => k) 0 two_in_column
      = (Ret t, g') /\
    (t = tag_X \/ t = tag_O \/ t = draw) /\ three_by_three (grid g').
Proof.
  apply (play_automatic_ends 9 9 (lit "easy") (lit "medium") (typed []) (fun k => k)
           0 two_in_column);
    [ exact three_by_three_two_in_column | exact two_in_column_blank
    | reflexivity | reflexivity | cbv; discriminate | lia ].
Defined.

Lemma hard_never_loses_witness :
  fst (play 3 9 (lit "hard") (lit "user") (typed [lit "2 2"]) (fun k => k) 0
         initial_game) <> Ret tag_O /\
  fst (play 3 9 (lit "user") (lit "hard") (typed [lit "2 2"]) (fun k => k) 0
         initial_game) <> Ret tag_X.
Proof.
  apply (hard_never_loses 3 9 (lit "user") (typed [lit "2 2"]) (fun k => k) 0). lia.
Defined.

(** 'X' takes the first row. *)
Definition first_row_game : list str :=
  [lit "1 1"; lit "2 1"; lit "1 2"; lit "2 2"; lit "1 3"].

Definition first_row_taken : game :=
  Game [[mark_X; mark_X; mark_X]; [mark_O; mark_O; blank]; [blank; blank; blank]]
       false.

Lemma play_announces_witness :
  three_by_three (grid first_row_taken) /\
  ((tag_X = tag_X \/ tag_X = tag_O) /\
   tag_X = tag_of (negb (player first_row_taken)) /\
   (exists l, In l lines /\
      Forall (fun c => content first_row_taken c
                       = Some (mark_of (negb (player first_row_taken)))) l) \/
   tag_X = draw /\ ~ has_blank first_row_taken /\
   (forall l, In l lines -> ~ line_wins first_row_taken l)).
Proof.
  apply (play_announces 5 9 (lit "user") (lit "user") (typed first_row_game)
           (fun k => k) 0 initial_game tag_X first_row_taken);
    [ lia | exact three_by_three_initial_game | exact no_line_initial_game
    | reflexivity ].
Defined.

Lemma play_rejected_line_witness :
  initial_game = initial_game /\
  play 3 9 (lit "user") (lit "easy") (typed [lit "abc"]) (fun k => k) 0 initial_game =
  play 2 9 (lit "user") (lit "easy") (typed [lit "abc"]) (fun k => k) 1 initial_game.
Proof.
  apply (play_rejected_line 2 9 (lit "user") (lit "easy") (typed [lit "abc"])
           (fun k => k) 0 initial_game not_coordinates_pair initial_game);
    reflexivity.
Defined.

Lemma min_max_algorithm_value_witness :
  (forall depth move_result q,
     is_result move_result = true ->
     (move_result = not_finished -> has_blank two_in_column) ->
     count blank (List.concat (grid two_in_column)) < Z.of_nat depth ->
     exists v,
       min_max_algorithm depth move_result (tag_of q)
         (Bool.eqb (player two_in_column) q) two_in_column
         = (Ret v, two_in_column) /\
       (v = 1 \/ v = 0 \/ v = -1) /\
       (v = 1 <-> wins q move_result two_in_column) /\
       (v = -1 <-> wins (negb q) move_result two_in_column)) /\
  (~ has_blank two_in_column ->
   forall depth computer_player maximizing,
     min_max_algorithm (S depth) not_finished computer_player maximizing
       two_in_column = (Raise ValueError, two_in_column)).
Proof.
  apply (min_max_algorithm_value two_in_column). exact three_by_three_two_in_column.
Defined.

Lemma get_best_coordinates_first_witness :
  exists m v,
    get_best_coordinates 9 two_in_column = (Ret (Some m), two_in_column) /\
    blank_cell two_in_column m /\
    move_score 9 (tag_of (player two_in_column)) m two_in_column
      = (Ret v, two_in_column) /\
    forall m', blank_cell two_in_column m' ->
      exists v', move_score 9 (tag_of (player two_in_column)) m' two_in_column
                   = (Ret v', two_in_column) /\
                 v' <= v /\ (before m' m -> v' < v).
Proof.
  apply (get_best_coordinates_first 9 two_in_column);
    [exact three_by_three_two_in_column|exact two_in_column_blank|lia].
Defined.

Lemma undo_move_unchecked_witness :
  (-2 <= 0 <= 3 /\ -2 <= 0 <= 3 ->
   undo_move (0, 0) full_board =
     (Ret tt, Game (grid_set (grid full_board) (wrapped 0 - 1) (wrapped 0 - 1) blank)
                   (negb (player full_board)))) /\
  (~ (-2 <= 0 <= 3 /\ -2 <= 0 <= 3) ->
   undo_move (0, 0) full_board = (Raise IndexError, full_board)).
Proof.
  apply (undo_move_unchecked full_board 0 0). exact three_by_three_full_board.
Defined.

Lemma str_shows_board_witness :
  exists s,
    __str__ two_in_column = (Ret s, two_in_column) /\
    List.length s = 49%nat /\
    (forall x y v, 0 <= x <= 2 -> 0 <= y <= 2 ->
       content two_in_column (x, y) = Some v ->
       nth_error s (Z.to_nat (12 + 10 * x + 2 * y)) = Some (shown v)) /\
    ~ In blank s /\
    (forall g2, three_by_three (grid g2) ->
       Forall is_cell (List.concat (grid two_in_column)) ->
       Forall is_cell (List.concat (grid g2)) ->
       fst (__str__ g2) = Ret s -> grid g2 = grid two_in_column).
Proof.
  apply (str_shows_board two_in_column). exact three_by_three_two_in_column.
Defined.

Lemma has_initial_condition_empty_witness :
  (exists b, has_initial_condition two_in_column = (Ret b, two_in_column) /\
             (b = false <-> grid two_in_column = empty_grid)) /\
  has_initial_condition initial_game = (Ret false, initial_game) /\
  fst (has_initial_condition (fst (init (Some (lit "_________"))))) = Ret false /\
  (forall coordinates t g',
     place_move coordinates two_in_column = (Ret t, g') -> is_result t = true ->
     has_initial_condition g' = (Ret true, g')).
Proof.
  apply (has_initial_condition_empty two_in_column).
  exact three_by_three_two_in_column.
Defined.

(** A preset in lower case, then a start in capitals. *)
Definition preset_then_start : list str :=
  [lit "preset xo_______"; lit "START easy Hard"].

Definition preset_board : game :=
  Game [[mark_X; mark_O; blank]; [blank; blank; blank]; [blank; blank; blank]] true.

Lemma new_game_board_witness :
  let n := lines_read (new_game 2 (typed preset_then_start)) in
  (preset_board = initial_game /\
   forall j, (j < n)%nat ->
     first_word (typed preset_then_start) j <> Some (lit "preset")) \/
  exists j c rest,
    (j < n)%nat /\
    split (lower (typed preset_then_start j)) = lit "preset" :: c :: rest /\
    (forall j', (j < j' < n)%nat ->
       first_word (typed preset_then_start) j' <> Some (lit "preset")) /\
    preset_board = fst (init (Some c)).
Proof.
  apply (new_game_board 2 (typed preset_then_start) preset_board
           (lit "easy") (lit "hard")).
  reflexivity.
Defined.

End Instances.
